(** * go-no-nil-linter: a shallow embedding of the analyzer

    The development follows the layout of the Go sources:
    - [messages.go] and the response-message predicate: the type classifier;
    - [detector.go]: the nullability oracle and the recursive validators;
    - [analyzer.go]: the entry points ([checkAssignment],
      [checkCompositeLiteral]) and the traversal [run].

    The [go/types] and [go/ast] data the analyzer consumes are modelled
    as plain inductive data; the diagnostics sink [pass.Reportf] is a
    writer effect; recursion that follows variable declarations is
    driven by fuel, since nothing in the code bounds it. *)

From Stdlib Require Import ZArith String Ascii.
From stdpp Require Import gmap strings list.

Local Open Scope string_scope.
Local Open Scope list_scope.

(* ===================================================================== *)
(** ** Strings: the functions of Go's [strings] and [token] packages     *)
(* ===================================================================== *)

(** [strings.HasSuffix]: [len(s) >= len(suffix) && s[len(s)-len(suffix):] == suffix]. *)
Definition HasSuffix (s suffix : string) : bool :=
  (String.length suffix <=? String.length s)%nat &&
  String.eqb
    (String.substring (String.length s - String.length suffix)
                      (String.length suffix) s)
    suffix.

(** [strings.Contains]: [substr] occurs at some offset of [s]. *)
Fixpoint Contains (s substr : string) : bool :=
  String.prefix substr s ||
  match s with
  | EmptyString => false
  | String _ s' => Contains s' substr
  end.

(** [token.IsExported]: the name begins with an upper-case letter
    (the ASCII range; identifiers are byte strings here). *)
Definition IsExported (name : string) : bool :=
  match name with
  | EmptyString => false
  | String c _ => (65 <=? nat_of_ascii c)%nat && (nat_of_ascii c <=? 90)%nat
  end.

(* ===================================================================== *)
(** ** [go/types]                                                        *)
(* ===================================================================== *)

(** A named type is referred to by identity; what it stands for (object,
    method set, underlying type) lives in the type universe, so that
    record schemas may refer to themselves. *)
Definition TypeId := string.

#[warnings="-register-all"]
Inductive Type_ : Type :=
| Basic (name : string)
| Pointer (elem : Type_)
| Slice (elem : Type_)
| Array (len : Z) (elem : Type_)
| Map (key elem : Type_)
| Interface
| Signature (params results : list Type_)
| Struct (fields : list Var)
| Named (id : TypeId)
with Var : Type :=
| NewVar (name : string) (typ : Type_).

Definition Var_Name (v : Var) : string := let 'NewVar n _ := v in n.
Definition Var_Type (v : Var) : Type_ := let 'NewVar _ t := v in t.
Definition Var_Exported (v : Var) : bool := IsExported (Var_Name v).

Record Package := { Path : string }.
Record TypeName := { tn_Name : string; tn_Pkg : option Package }.
Record Func := { fn_Name : string; fn_Type : Type_ }.

Record NamedInfo := {
  Obj : option TypeName;
  Methods : list Func;
  Underlying : Type_;
}.

Definition Universe := TypeId -> option NamedInfo.

Section Classifier.
Context (U : Universe).

Definition Named_Methods (t : TypeId) : list Func :=
  match U t with Some i => Methods i | None => [] end.
Definition Named_Obj (t : TypeId) : option TypeName :=
  match U t with Some i => Obj i | None => None end.
Definition Named_Underlying (t : TypeId) : option Type_ :=
  match U t with Some i => Some (Underlying i) | None => None end.

(** messages.go: [hasProtoMessageMethod] *)
Definition hasProtoMessageMethod (t : TypeId) : bool :=
  existsb
    (fun method =>
       String.eqb (fn_Name method) "ProtoMessage" &&
       match fn_Type method with
       | Signature params results =>
           (length params =? 0)%nat && (length results =? 0)%nat
       | _ => false
       end)
    (Named_Methods t).

(** messages.go: [isProtobufMessageType] *)
Definition isProtobufMessageType (t : Type_) : bool :=
  let t := match t with Pointer e => e | _ => t end in
  match t with
  | Named named => hasProtoMessageMethod named
  | _ => false
  end.

(** The registry of boxed-primitive wrappers, a [map[string]bool]. *)
Definition scalarWrappers : gmap string bool :=
  list_to_map
    [ ("StringValue", true); ("Int32Value", true); ("Int64Value", true);
      ("UInt32Value", true); ("UInt64Value", true); ("FloatValue", true);
      ("DoubleValue", true); ("BoolValue", true); ("BytesValue", true) ].

Definition pkgPathContains (pkg : option Package) (substr : string) : bool :=
  match pkg with
  | Some p => Contains (Path p) substr
  | None => false
  end.

(** messages.go: [isMessageField] *)
Definition isMessageField (field : Var) : bool :=
  let fieldType := Var_Type field in
  match fieldType with
  | Slice _ => false
  | _ =>
    let fieldType := match fieldType with Pointer e => e | _ => fieldType end in
    match fieldType with
    | Named named =>
      if negb (hasProtoMessageMethod named) then false else
      match Named_Obj named with
      | None => false
      | Some obj =>
        let pkg := tn_Pkg obj in
        let typeName := tn_Name obj in
        if pkgPathContains pkg "google.golang.org/protobuf/types/known" then true
        else if pkgPathContains pkg "google.golang.org/genproto/googleapis/type" then true
        else if default false (scalarWrappers !! typeName) then false
        else true
      end
    | _ => false
    end
  end.

(** messages.go: [isOptionalField]; only a pointer to a pointer counts. *)
Definition isOptionalField (field : Var) : bool :=
  match Var_Type field with
  | Pointer (Pointer _) => true
  | _ => false
  end.

(** messages.go: [getMessageFields] *)
Definition getMessageFields (structType : list Var) : list Var :=
  List.filter
    (fun field =>
       Var_Exported field && isMessageField field
       && negb (isOptionalField field))
    structType.

(** The response-message predicate: a protobuf message whose name ends
    in [Response], [Reply] or [Result]. *)
Definition isResponseMessage (t : Type_) : bool :=
  let t := match t with Pointer e => e | _ => t end in
  match t with
  | Named named =>
    if negb (hasProtoMessageMethod named) then false else
    match Named_Obj named with
    | None => false
    | Some obj =>
      let typeName := tn_Name obj in
      if HasSuffix typeName "Response" then true
      else if HasSuffix typeName "Reply" then true
      else if HasSuffix typeName "Result" then true
      else false
    end
  | _ => false
  end.

(** analyzer.go: [getStructType] *)
Definition getStructType (t : Type_) : option (list Var) :=
  let t := match t with Pointer e => e | _ => t end in
  match t with
  | Named named =>
    match Named_Underlying named with
    | Some (Struct fields) => Some fields
    | _ => None
    end
  | _ => None
  end.

(** analyzer.go: [getFieldFromType] *)
Definition getFieldFromType (t : Type_) (fieldName : string) : option Var :=
  match getStructType t with
  | None => None
  | Some fields =>
    List.find (fun field => String.eqb (Var_Name field) fieldName) fields
  end.

End Classifier.

(* ===================================================================== *)
(** ** [go/ast] with the annotations of [types.Info]                     *)
(* ===================================================================== *)

Definition Pos := Z.
Definition NodeId := positive.

Inductive Token := AND | DEFINE | ASSIGN | OtherTok (name : string).

Definition Token_eqb (a b : Token) : bool :=
  match a, b with
  | AND, AND | DEFINE, DEFINE | ASSIGN, ASSIGN => true
  | OtherTok x, OtherTok y => String.eqb x y
  | _, _ => false
  end.

(** [types.TypeAndValue], the entry of [TypesInfo.Types] for an expression. *)
Record TypeAndValue := {
  tv_IsType : bool;            (* the expression denotes a type *)
  tv_Type : Type_;
  tv_Value : option string;    (* the constant value, when there is one *)
}.

(** [types.Object], compared by identity ([oid]). *)
Inductive ObjKind := KVar | KConst | KTypeName | KFunc | KNil | KOther.

Record Object := {
  oid : positive;
  okind : ObjKind;
  oname : string;
  otype : Type_;
}.

Definition Object_eqb (a b : Object) : bool := Pos.eqb (oid a) (oid b).

(** What every syntax node carries: its identity (the pointer, in Go),
    its position and its entry in [TypesInfo.Types], if any. *)
Record Info := {
  nid : NodeId;
  pos : Pos;
  tv : option TypeAndValue;
}.

Record IdentT := {
  id_Info : Info;
  id_Name : string;
  id_Obj : option Object;      (* TypesInfo.ObjectOf *)
}.

#[warnings="-register-all"]
Inductive Node : Type :=
| Ident (i : IdentT)
| BasicLit (h : Info) (value : string)
| CompositeLit (h : Info) (type : option Node) (Elts : list Node)
| KeyValueExpr (h : Info) (Key Value : Node)
| CallExpr (h : Info) (Fun : Node) (Args : list Node)
| UnaryExpr (h : Info) (Op : Token) (X : Node)
| SelectorExpr (h : Info) (X : Node) (Sel : IdentT)
| AssignStmt (h : Info) (Lhs : list Node) (Tok : Token) (Rhs : list Node)
| ReturnStmt (h : Info) (Results : list Node)
| ValueSpec (h : Info) (Names : list IdentT) (type : option Node) (Values : list Node)
| OtherNode (h : Info) (children : list Node).
    (* every other kind of node, its children in the order of ast.Walk *)

Definition info (n : Node) : Info :=
  match n with
  | Ident i => id_Info i
  | BasicLit h _ | CompositeLit h _ _ | KeyValueExpr h _ _ | CallExpr h _ _
  | UnaryExpr h _ _ | SelectorExpr h _ _ | AssignStmt h _ _ _
  | ReturnStmt h _ | ValueSpec h _ _ _ | OtherNode h _ => h
  end.

(** [n.Pos()] *)
Definition nodePos (n : Node) : Pos := pos (info n).

(** [TypesInfo.ObjectOf] *)
Definition ObjectOf (id : IdentT) : option Object := id_Obj id.

(** [TypesInfo.TypeOf]: the recorded type, else the type of the object an
    identifier denotes. *)
Definition TypeOf (e : Node) : option Type_ :=
  match tv (info e) with
  | Some t => Some (tv_Type t)
  | None =>
    match e with
    | Ident id =>
      match ObjectOf id with
      | Some obj => Some (otype obj)
      | None => None
      end
    | _ => None
    end
  end.

Definition Spec_Names (n : Node) : list IdentT :=
  match n with ValueSpec _ names _ _ => names | _ => [] end.
Definition Spec_Values (n : Node) : list Node :=
  match n with ValueSpec _ _ _ values => values | _ => [] end.
Definition Assign_Lhs (n : Node) : list Node :=
  match n with AssignStmt _ lhs _ _ => lhs | _ => [] end.
Definition Assign_Rhs (n : Node) : list Node :=
  match n with AssignStmt _ _ _ rhs => rhs | _ => [] end.

(** [ast.Inspect], for a callback that updates captured variables: the
    captured state is threaded, and the callback's result says whether
    the children are visited. *)
Fixpoint Inspect {S : Type} (f : S -> Node -> S * bool) (s : S) (n : Node) : S :=
  let '(s, descend) := f s n in
  if descend then
    let many :=
      fix many (s : S) (ns : list Node) : S :=
        match ns with
        | [] => s
        | m :: ms => many (Inspect f s m) ms
        end in
    let leaves (s : S) (ids : list IdentT) : S :=
      fold_left (fun s i => fst (f s (Ident i))) ids s in
    match n with
    | Ident _ => s
    | BasicLit _ _ => s
    | CompositeLit _ type elts =>
        many (match type with Some t => Inspect f s t | None => s end) elts
    | KeyValueExpr _ key value => Inspect f (Inspect f s key) value
    | CallExpr _ fn args => many (Inspect f s fn) args
    | UnaryExpr _ _ x => Inspect f s x
    | SelectorExpr _ x sel => leaves (Inspect f s x) [sel]
    | AssignStmt _ lhs _ rhs => many (many s lhs) rhs
    | ReturnStmt _ results => many s results
    | ValueSpec _ names type values =>
        many (match type with
              | Some t => Inspect f (leaves s names) t
              | None => leaves s names
              end) values
    | OtherNode _ children => many s children
    end
  else s.

Record File := {
  Filename : string;           (* pass.Fset.Position(file.Pos()).Filename *)
  Decls : list Node;
}.

Definition InspectFile {S : Type} (f : S -> Node -> S * bool) (s : S) (file : File) : S :=
  fold_left (Inspect f) (Decls file) s.

(** The nodes of a file in depth-first order, as [inspector.Preorder]
    meets them. *)
Definition preorder (file : File) : list Node :=
  InspectFile (fun acc n => (acc ++ [n], true)) [] file.

(** [analysis.Pass]: the files of the unit and its type information. *)
Record Pass := {
  Files : list File;
  TypeDecls : Universe;
}.

(* ===================================================================== *)
(** ** Diagnostics and the reporting effect                              *)
(* ===================================================================== *)

(** One call of [pass.Reportf(pos, format, args...)]. *)
Record Diagnostic := {
  d_Pos : Pos;
  d_Format : string;
  d_Args : list string;
}.

(** [fmt.Sprintf] for the [%s] verb, the only one the analyzer uses. *)
Fixpoint Sprintf (format : string) (args : list string) : string :=
  match format with
  | String "%" (String "s" rest) =>
    match args with
    | a :: args' => a ++ Sprintf rest args'
    | [] => "%!s(MISSING)" ++ Sprintf rest []
    end
  | String c rest => String c (Sprintf rest args)
  | EmptyString => EmptyString
  end.

Definition Message (d : Diagnostic) : string := Sprintf (d_Format d) (d_Args d).

Definition fmtNilAssign :=
  "nil assignment to non-optional message field '%s' in protobuf message '%s'".
Definition fmtNotInit :=
  "non-optional message field '%s' not initialized in protobuf message '%s'".
Definition fmtNilAssignIn :=
  "nil assignment to non-optional message field '%s.%s' in protobuf message '%s'".
Definition fmtNotInitIn :=
  "non-optional message field '%s.%s' not initialized in protobuf message '%s'".
Definition fmtZeroValue :=
  "variable '%s' used for field '%s' is nil (zero value)".
Definition fmtNilAtUse :=
  "variable used in '%s' has nil in non-optional message field '%s' of type '%s'".
Definition fmtNotInitAtUse :=
  "variable used in '%s' has uninitialized non-optional message field '%s' of type '%s'".

(** A computation that may run out of fuel and that writes to a log. *)
Definition M (W A : Type) : Type := option (A * list W).

Definition ret {W A} (a : A) : M W A := Some (a, []).

Definition bind {W A B} (m : M W A) (k : A -> M W B) : M W B :=
  match m with
  | None => None
  | Some (a, w1) =>
    match k a with
    | None => None
    | Some (b, w2) => Some (b, w1 ++ w2)
    end
  end.

Definition tell {W} (w : W) : M W unit := Some (tt, [w]).

Definition liftO {W A} (o : option A) : M W A :=
  match o with
  | None => None
  | Some a => Some (a, [])
  end.

Declare Scope M_scope.
Delimit Scope M_scope with M.
Notation "x <- m ;; k" := (bind m (fun x => k))
  (at level 100, m at next level, right associativity) : M_scope.
Notation "m ;; k" := (bind m (fun _ => k))
  (at level 100, right associativity) : M_scope.
Local Open Scope M_scope.

(** What was written, when the computation returned. *)
Definition logOf {W A} (m : M W A) : option (list W) :=
  match m with
  | None => None
  | Some (_, w) => Some w
  end.

Definition Reportf (p : Pos) (format : string) (args : list string)
  : M Diagnostic unit :=
  tell {| d_Pos := p; d_Format := format; d_Args := args |}.

(** [for _, x := range l { body }] *)
Fixpoint forM_ {W A} (l : list A) (body : A -> M W unit) : M W unit :=
  match l with
  | [] => ret tt
  | x :: l' => body x ;; forM_ l' body
  end.

(** [for i, x := range l { body }], counting from [i]. *)
Fixpoint forRangeM_ {W A} (i : nat) (l : list A) (body : nat -> A -> M W unit)
  : M W unit :=
  match l with
  | [] => ret tt
  | x :: l' => body i x ;; forRangeM_ (S i) l' body
  end.

(** A loop that updates a local variable. *)
Fixpoint foldM {W A S} (body : S -> A -> M W S) (s : S) (l : list A) : M W S :=
  match l with
  | [] => ret s
  | x :: l' => s' <- body s x ;; foldM body s' l'
  end.

(* ===================================================================== *)
(** ** detector.go and analyzer.go                                       *)
(* ===================================================================== *)

Section Analyzer.
(** [types.Type.String] belongs to [go/types]; the analyzer only prints
    its result. *)
Context (TypeString : Type_ -> string).
Context (pass : Pass).

Local Abbreviation U := (TypeDecls pass).

(** [pass.TypesInfo.ObjectOf(name) == obj] *)
Definition declares (obj : Object) (name : IdentT) : bool :=
  match ObjectOf name with
  | Some o => Object_eqb o obj
  | None => false
  end.

Definition declaresNode (obj : Object) (n : Node) : bool :=
  match n with
  | Ident id => declares obj id
  | _ => false
  end.

(** The callback given to [ast.Inspect] by [isNilVariable] and by
    [validateVariableMessageAtPos]: it captures [decl]. *)
Definition specVisitor (obj : Object) (decl : option Node) (n : Node)
  : option Node * bool :=
  match n with
  | ValueSpec _ names _ _ =>
    if existsb (declares obj) names then (Some n, false) else (decl, true)
  | _ => (decl, true)
  end.

(** [for _, file := range pass.Files { ast.Inspect(...); if decl != nil { break } }] *)
Fixpoint findValueSpec (obj : Object) (files : list File) : option Node :=
  match files with
  | [] => None
  | file :: files' =>
    match InspectFile (specVisitor obj) None file with
    | Some decl => Some decl
    | None => findValueSpec obj files'
    end
  end.

(** The callback of [validateVariableMessage]: it captures [decl] and
    [declAssign], and looks at [:=] statements as well. *)
Definition declVisitor (obj : Object) (s : option Node * option Node) (n : Node)
  : (option Node * option Node) * bool :=
  let '(decl, declAssign) := s in
  match n with
  | AssignStmt _ lhs tok _ =>
    if Token_eqb tok DEFINE && existsb (declaresNode obj) lhs
    then ((decl, Some n), false) else (s, true)
  | ValueSpec _ names _ _ =>
    if existsb (declares obj) names then ((Some n, declAssign), false) else (s, true)
  | _ => (s, true)
  end.

Fixpoint findDeclaration (obj : Object) (files : list File)
  : option Node * option Node :=
  match files with
  | [] => (None, None)
  | file :: files' =>
    match InspectFile (declVisitor obj) (None, None) file with
    | (None, None) => findDeclaration obj files'
    | found => found
    end
  end.

(** [tv, ok := pass.TypesInfo.Types[ident]; ok && tv.Value != nil] *)
Definition hasConstantValue (ident : IdentT) : bool :=
  match tv (id_Info ident) with
  | Some t => bool_decide (is_Some (tv_Value t))
  | None => false
  end.

Definition isNilIdent (e : Node) : bool :=
  match e with
  | Ident ident => String.eqb (id_Name ident) "nil"
  | _ => false
  end.

(** [for _, value := range values { if isNil(value) { return true } }; return false] *)
Fixpoint anyNil (isNil : Node -> option bool) (values : list Node) : option bool :=
  match values with
  | [] => Some false
  | value :: values' =>
    match isNil value with
    | None => None
    | Some true => Some true
    | Some false => anyNil isNil values'
    end
  end.

(** detector.go: [isNilValue] and [isNilVariable] *)
Fixpoint isNilValue (fuel : nat) (expr : Node) : option bool :=
  match fuel with
  | O => None
  | S fuel =>
    if isNilIdent expr then Some true
    else if match expr with
            | CallExpr _ _ [arg] => isNilIdent arg
            | _ => false
            end then Some true
    else
      match match expr with
            | Ident ident => isNilVariable fuel ident
            | _ => Some false
            end with
      | None => None
      | Some true => Some true
      | Some false =>
        match expr with
        | UnaryExpr _ AND x => isNilValue fuel x
        | _ => Some false
        end
      end
  end
with isNilVariable (fuel : nat) (ident : IdentT) : option bool :=
  match fuel with
  | O => None
  | S fuel =>
    match ObjectOf ident with
    | None => Some false
    | Some obj =>
      if hasConstantValue ident then Some false
      else
        match findValueSpec obj (Files pass) with
        | None => Some false
        | Some decl =>
          match Spec_Values decl with
          | [] =>
            match otype obj with
            | Pointer _ => Some true
            | Interface => Some true
            | _ => Some false
            end
          | values => anyNil (isNilValue fuel) values
          end
        end
    end
  end.

Definition findField (messageFields : list Var) (fieldName : string) : option Var :=
  List.find (fun f => String.eqb (Var_Name f) fieldName) messageFields.

Definition isPointer (t : Type_) : bool :=
  match t with Pointer _ => true | _ => false end.

(** The index of the first element of a [for i, x := range l] loop at
    which the loop returns. *)
Fixpoint firstIndex {A} (p : A -> bool) (i : nat) (l : list A) : option nat :=
  match l with
  | [] => None
  | x :: l' => if p x then Some i else firstIndex p (S i) l'
  end.

(** The closing loop of the three composite validators. *)
Definition reportMissing (messageFields : list Var) (initialized : gset string)
    (report : Var -> M Diagnostic unit) : M Diagnostic unit :=
  forM_ messageFields (fun field =>
    if bool_decide (Var_Name field ∈ initialized) then ret tt else report field).

(** detector.go: the validators that report at the position of use *)
Fixpoint validateCompositeLiteralMessageAtUse (fuel : nat) (lit : Info)
    (Elts : list Node) (litType : Type_) (fieldContext : string)
    (reportPos : Pos) : M Diagnostic unit :=
  match fuel with
  | O => None
  | S fuel =>
    match getStructType U litType with
    | None => ret tt
    | Some structType =>
      let messageFields := getMessageFields U structType in
      if (length messageFields =? 0)%nat then ret tt else
      initialized <-
        foldM (fun (initialized : gset string) elt =>
          match elt with
          | KeyValueExpr _ (Ident fieldIdent) value =>
            let fieldName := id_Name fieldIdent in
            let initialized := {[fieldName]} ∪ initialized in
            match findField messageFields fieldName with
            | None => ret initialized
            | Some _ =>
              isNil <- liftO (isNilValue fuel value) ;;
              (if isNil : bool then
                 Reportf reportPos fmtNilAtUse
                   [fieldContext; fieldName; TypeString litType]
               else
                 match TypeOf value with
                 | Some valueType =>
                   if isProtobufMessageType U valueType then
                     validateMessageValueAtPos fuel value valueType
                       (fieldContext ++ "." ++ fieldName) reportPos
                   else ret tt
                 | None => ret tt
                 end) ;;
              ret initialized
            end
          | _ => ret initialized
          end) ∅ Elts ;;
      reportMissing messageFields initialized (fun field =>
        Reportf reportPos fmtNotInitAtUse
          [fieldContext; Var_Name field; TypeString litType])
    end
  end

with validateMessageValueAtPos (fuel : nat) (expr : Node) (exprType : Type_)
    (fieldContext : string) (reportPos : Pos) : M Diagnostic unit :=
  match fuel with
  | O => None
  | S fuel =>
    match expr with
    | Ident e => validateVariableMessageAtPos fuel e exprType fieldContext reportPos
    | CompositeLit h _ elts =>
        validateCompositeLiteralMessageAtUse fuel h elts exprType
          fieldContext reportPos
    | UnaryExpr _ AND x =>
        validateMessageValueAtPos fuel x exprType fieldContext reportPos
    | _ => ret tt
    end
  end

with validateVariableMessageAtPos (fuel : nat) (ident : IdentT)
    (exprType : Type_) (fieldContext : string) (reportPos : Pos)
    : M Diagnostic unit :=
  match fuel with
  | O => None
  | S fuel =>
    match ObjectOf ident with
    | None => ret tt
    | Some obj =>
      match findValueSpec obj (Files pass) with
      | None => ret tt
      | Some decl =>
        match Spec_Values decl with
        | [] =>
          if isPointer exprType
          then Reportf reportPos fmtZeroValue [id_Name ident; fieldContext]
          else ret tt
        | values =>
          forRangeM_ 0 (Spec_Names decl) (fun i name =>
            if declares obj name then
              match values !! i with
              | Some (CompositeLit h _ elts) =>
                  validateCompositeLiteralMessageAtUse fuel h elts exprType
                    fieldContext reportPos
              | Some (UnaryExpr _ AND (CompositeLit h _ elts as comp)) =>
                match TypeOf comp with
                | Some compType =>
                    validateCompositeLiteralMessageAtUse fuel h elts compType
                      fieldContext reportPos
                | None => ret tt
                end
              | _ => ret tt
              end
            else ret tt)
        end
      end
    end
  end.

(** detector.go: [handleValidation] *)
Definition handleValidation (fuel : nat) (value : Node) (exprType : Type_)
    (fieldContext : string) (reportPos : Pos) : M Diagnostic unit :=
  match value with
  | CompositeLit h _ elts =>
    match TypeOf value with
    | Some compType =>
        validateCompositeLiteralMessageAtUse fuel h elts compType
          fieldContext reportPos
    | None => ret tt
    end
  | UnaryExpr _ AND (CompositeLit h _ elts as comp) =>
    match TypeOf comp with
    | Some compType =>
        validateCompositeLiteralMessageAtUse fuel h elts compType
          fieldContext reportPos
    | None => ret tt
    end
  | _ => ret tt
  end.

(** detector.go: [validateVariableMessage] *)
Definition validateVariableMessage (fuel : nat) (ident : IdentT)
    (exprType : Type_) (fieldContext : string) : M Diagnostic unit :=
  match ObjectOf ident with
  | None => ret tt
  | Some obj =>
    let '(decl, declAssign) := findDeclaration obj (Files pass) in
    let fromSpec :=
      match decl with
      | None => ret tt
      | Some decl =>
        match Spec_Values decl with
        | [] =>
          if isPointer exprType
          then Reportf (pos (id_Info ident)) fmtZeroValue
                 [id_Name ident; fieldContext]
          else ret tt
        | values =>
          forRangeM_ 0 (Spec_Names decl) (fun i name =>
            if declares obj name then
              match values !! i with
              | Some value =>
                  handleValidation fuel value exprType fieldContext
                    (pos (id_Info ident))
              | None => ret tt
              end
            else ret tt)
        end
      end in
    match declAssign with
    | Some assign =>
      match firstIndex (declaresNode obj) 0 (Assign_Lhs assign) with
      | Some i =>
        match Assign_Rhs assign !! i with
        | Some value =>
            handleValidation fuel value exprType fieldContext
              (pos (id_Info ident))
        | None => ret tt
        end
      | None => fromSpec
      end
    | None => fromSpec
    end
  end.

(** detector.go: the validators that report where the fault is written *)
Fixpoint validateMessageValue (fuel : nat) (expr : Node) (exprType : Type_)
    (fieldContext : string) : M Diagnostic unit :=
  match fuel with
  | O => None
  | S fuel =>
    match expr with
    | Ident e => validateVariableMessage fuel e exprType fieldContext
    | CompositeLit h _ elts =>
        validateCompositeLiteralMessage fuel h elts exprType fieldContext
    | CallExpr _ _ _ => ret tt
    | UnaryExpr _ AND x => validateMessageValue fuel x exprType fieldContext
    | SelectorExpr _ _ _ => ret tt
    | _ => ret tt
    end
  end

with validateCompositeLiteralMessage (fuel : nat) (lit : Info) (Elts : list Node)
    (litType : Type_) (fieldContext : string) : M Diagnostic unit :=
  match fuel with
  | O => None
  | S fuel =>
    match getStructType U litType with
    | None => ret tt
    | Some structType =>
      let messageFields := getMessageFields U structType in
      if (length messageFields =? 0)%nat then ret tt else
      initialized <-
        foldM (fun (initialized : gset string) elt =>
          match elt with
          | KeyValueExpr _ (Ident fieldIdent) value =>
            let fieldName := id_Name fieldIdent in
            let initialized := {[fieldName]} ∪ initialized in
            match findField messageFields fieldName with
            | None => ret initialized
            | Some _ =>
              isNil <- liftO (isNilValue fuel value) ;;
              (if isNil : bool then
                 Reportf (nodePos value) fmtNilAssignIn
                   [fieldContext; fieldName; TypeString litType]
               else
                 match TypeOf value with
                 | Some valueType =>
                   if isProtobufMessageType U valueType then
                     validateMessageValue fuel value valueType
                       (fieldContext ++ "." ++ fieldName)
                   else ret tt
                 | None => ret tt
                 end) ;;
              ret initialized
            end
          | _ => ret initialized
          end) ∅ Elts ;;
      reportMissing messageFields initialized (fun field =>
        Reportf (pos lit) fmtNotInitIn
          [fieldContext; Var_Name field; TypeString litType])
    end
  end.

(** analyzer.go: [checkAssignment] *)
Definition checkAssignment (fuel : nat) (Lhs Rhs : list Node) : M Diagnostic unit :=
  forM_ (zip Lhs Rhs) (fun '(lhs, rhs) =>
    match lhs with
    | SelectorExpr _ x sel =>
      match TypeOf x with
      | None => ret tt
      | Some baseType =>
        let baseType := match baseType with Pointer e => e | _ => baseType end in
        if negb (isResponseMessage U baseType) then ret tt else
        match getFieldFromType U baseType (id_Name sel) with
        | None => ret tt
        | Some field =>
          if negb (isMessageField U field) then ret tt else
          if isOptionalField field then ret tt else
          isNil <- liftO (isNilValue fuel rhs) ;;
          if isNil : bool then
            Reportf (nodePos rhs) fmtNilAssign
              [id_Name sel; TypeString baseType]
          else
            match TypeOf rhs with
            | Some rhsType =>
              if isProtobufMessageType U rhsType
              then validateMessageValue fuel rhs rhsType (id_Name sel)
              else ret tt
            | None => ret tt
            end
        end
      end
    | _ => ret tt
    end).

(** analyzer.go: [checkCompositeLiteral] *)
Definition checkCompositeLiteral (fuel : nat) (lit : Info) (Elts : list Node)
    (litType : Type_) : M Diagnostic unit :=
  if negb (isResponseMessage U litType) then ret tt else
  match getStructType U litType with
  | None => ret tt
  | Some structType =>
    let messageFields := getMessageFields U structType in
    if (length messageFields =? 0)%nat then ret tt else
    initialized <-
      foldM (fun (initialized : gset string) elt =>
        match elt with
        | KeyValueExpr _ (Ident fieldIdent) value =>
          let fieldName := id_Name fieldIdent in
          let initialized := {[fieldName]} ∪ initialized in
          match findField messageFields fieldName with
          | None => ret initialized
          | Some _ =>
            isNil <- liftO (isNilValue fuel value) ;;
            (if isNil : bool then
               Reportf (nodePos value) fmtNilAssign
                 [fieldName; TypeString litType]
             else
               match TypeOf value with
               | Some valueType =>
                 if isProtobufMessageType U valueType then
                   validateMessageValue fuel value valueType fieldName
                 else ret tt
               | None => ret tt
               end) ;;
            ret initialized
          end
        | _ => ret initialized
        end) ∅ Elts ;;
    reportMissing messageFields initialized (fun field =>
      Reportf (pos lit) fmtNotInit [Var_Name field; TypeString litType])
  end.

End Analyzer.

(** [nodeFilter] *)
Definition nodeFilter (n : Node) : bool :=
  match n with
  | AssignStmt _ _ _ _ | CompositeLit _ _ _ | ReturnStmt _ _ => true
  | _ => false
  end.

(** The nodes [inspector.Preorder] hands to the callback, in order. *)
Definition visited (files : list File) : list Node :=
  List.filter nodeFilter (concat (map preorder files)).

(** analyzer.go: the callback [run] gives to [inspector.Preorder]. What it
    calls on an assignment and on a composite literal are parameters, so
    that the order of the calls can be observed apart from their effect. *)
Section Scanner.
Context {W : Type}.
Context (U : Universe).
Context (onAssignment : list Node -> list Node -> M W unit).
Context (onCompositeLiteral : Info -> list Node -> Type_ -> M W unit).

Definition visitResult (analyzedComposites : gset NodeId) (result : Node)
  : M W (gset NodeId) :=
  match result with
  | CompositeLit comp _ elts =>
    if bool_decide (nid comp ∈ analyzedComposites) then ret analyzedComposites else
    let analyzedComposites := {[nid comp]} ∪ analyzedComposites in
    match TypeOf result with
    | Some litType =>
      if isResponseMessage U litType
      then onCompositeLiteral comp elts litType ;; ret analyzedComposites
      else ret analyzedComposites
    | None => ret analyzedComposites
    end
  | _ => ret analyzedComposites
  end.

Definition visit (analyzedComposites : gset NodeId) (n : Node)
  : M W (gset NodeId) :=
  match n with
  | AssignStmt _ lhs _ rhs =>
      onAssignment lhs rhs ;; ret analyzedComposites
  | CompositeLit stmt _ elts =>
    if bool_decide (nid stmt ∈ analyzedComposites) then ret analyzedComposites else
    let analyzedComposites := {[nid stmt]} ∪ analyzedComposites in
    match TypeOf n with
    | None => ret analyzedComposites
    | Some litType =>
      if isResponseMessage U litType
      then onCompositeLiteral stmt elts litType ;; ret analyzedComposites
      else ret analyzedComposites
    end
  | ReturnStmt _ results => foldM visitResult analyzedComposites results
  | _ => ret analyzedComposites
  end.

(** [inspect.Preorder(nodeFilter, ...)] over the files of the unit. *)
Definition scan (files : list File) : M W unit :=
  foldM visit ∅ (visited files) ;;
  ret tt.

(** analyzer.go: [run], with the skip of generated files in front. *)
Definition runWith (files : list File) : M W unit :=
  if existsb (fun file => HasSuffix (Filename file) ".pb.go") files
  then ret tt
  else scan files.

End Scanner.

(** A call made by the callback of [run]. *)
Inductive Entry :=
| OnAssignment (Lhs Rhs : list Node)
| OnCompositeLiteral (lit : Info) (Elts : list Node) (litType : Type_).

(** The calls [run] makes, in order: the traversal with both callees
    replaced by a note of the call. *)
Definition noteAssignment (lhs rhs : list Node) : M Entry unit :=
  tell (OnAssignment lhs rhs).
Definition noteCompositeLiteral (lit : Info) (elts : list Node)
    (litType : Type_) : M Entry unit :=
  tell (OnCompositeLiteral lit elts litType).

Definition schedule (U : Universe) (files : list File) : M Entry unit :=
  runWith U noteAssignment noteCompositeLiteral files.

Definition perform {W : Type}
    (onAssignment : list Node -> list Node -> M W unit)
    (onCompositeLiteral : Info -> list Node -> Type_ -> M W unit)
    (e : Entry) : M W unit :=
  match e with
  | OnAssignment lhs rhs => onAssignment lhs rhs
  | OnCompositeLiteral lit elts litType => onCompositeLiteral lit elts litType
  end.

(** The identities of the composite literals that were handed to
    [checkCompositeLiteral]. *)
Definition validated (entries : list Entry) : list NodeId :=
  omap (fun e => match e with
                 | OnCompositeLiteral lit _ _ => Some (nid lit)
                 | OnAssignment _ _ => None
                 end) entries.

(** The composite literals the callback meets: as nodes of their own and
    as results of return statements. *)
Definition asComposite (n : Node) : list Node :=
  match n with
  | CompositeLit _ _ _ => [n]
  | _ => []
  end.

Definition compositesAt (n : Node) : list Node :=
  match n with
  | CompositeLit _ _ _ => [n]
  | ReturnStmt _ results => flat_map asComposite results
  | _ => []
  end.

Definition entryComposites (nodes : list Node) : list Node :=
  flat_map compositesAt nodes.

(** analyzer.go: [run] *)
Definition run (TypeString : Type_ -> string) (pass : Pass) (fuel : nat)
  : M Diagnostic unit :=
  runWith (TypeDecls pass)
    (checkAssignment TypeString pass fuel)
    (checkCompositeLiteral TypeString pass fuel)
    (Files pass).

(* ===================================================================== *)
(** ** The remaining predicates on types                                 *)
(* ===================================================================== *)

Section WellKnown.
Context (U : Universe).

(** messages.go: [isWellKnownType] *)
Definition isWellKnownType (t : Type_) : bool :=
  let t := match t with Pointer e => e | _ => t end in
  match t with
  | Named named =>
    match Named_Obj U named with
    | None => false
    | Some obj =>
      match tn_Pkg obj with
      | None => false
      | Some pkg =>
        let pkgPath := Path pkg in
        Contains pkgPath "google.golang.org/protobuf/types/known"
        || Contains pkgPath "google.golang.org/genproto/googleapis/type"
      end
    end
  | _ => false
  end.

(** [shouldCheckType], next to [isResponseMessage] *)
Definition shouldCheckType (t : Type_) : bool := isResponseMessage U t.

End WellKnown.

(* ===================================================================== *)
(** ** The vocabulary of the properties                                  *)
(* ===================================================================== *)



(** A step of the traversal makes the calls it notes, and its effect on
    the visited set does not depend on the callees. *)
Definition scheduled {W A : Type}
    (f : list Node -> list Node -> M W unit)
    (g : Info -> list Node -> Type_ -> M W unit)
    (noted : gset NodeId -> A -> M Entry (gset NodeId))
    (real : gset NodeId -> A -> M W (gset NodeId)) : Prop :=
  ∀ s x, ∃ s' es,
    noted s x = Some (s', es)
    ∧ real s x = (forM_ es (perform f g) ;; ret s').

(** A step hands over only literals that were not marked, marks each of
    them, and never unmarks. *)
Definition marking {A : Type}
    (step : gset NodeId -> A -> M Entry (gset NodeId)) : Prop :=
  ∀ s x s' es, step s x = Some (s', es) →
    s ⊆ s' ∧ NoDup (validated es) ∧ ∀ n, n ∈ validated es → n ∈ s' ∧ n ∉ s.

(** If the literal [c] is among the literals of the step, it is marked
    afterwards; and if the step marks the identity of [c], it hands [c]
    over. The literals of the step that have the identity of [c] are
    [c] itself. *)
Definition reaching {A : Type} (c : Node) (own : A -> list Node)
    (step : gset NodeId -> A -> M Entry (gset NodeId)) : Prop :=
  ∀ s x s' es, step s x = Some (s', es) →
    (∀ c', c' ∈ own x → nid (info c') = nid (info c) → c' = c) →
    (c ∈ own x → nid (info c) ∈ s')
    ∧ (nid (info c) ∈ s' → nid (info c) ∉ s → nid (info c) ∈ validated es).

(** A slice, an array or a map, of anything. *)
Definition isCollection (t : Type_) : bool :=
  match t with
  | Slice _ | Array _ _ | Map _ _ => true
  | _ => false
  end.

(** The loop over the elements only ever adds to [initialized], and what
    it reports does not depend on what was added before. *)
Definition additive {W A : Type}
    (body : gset string -> A -> M W (gset string)) : Prop :=
  ∀ s x,
    body s x = match body ∅ x with
               | Some (k, w) => Some (k ∪ s, w)
               | None => None
               end.

(** Every diagnostic a computation writes, if it returns, satisfies [P]. *)
Definition logs {W A : Type} (P : W -> Prop) (m : M W A) : Prop :=
  ∀ a w, m = Some (a, w) → Forall P w.

(** The formats of the validators of nested values. *)
Definition nestedFormat (d : Diagnostic) : Prop :=
  d_Format d ∈ [fmtNilAssignIn; fmtNotInitIn; fmtZeroValue; fmtNilAtUse;
                fmtNotInitAtUse].




(** The objects of the identifiers that the oracle and the validators may
    follow from an expression: through [&], and through the values of
    the keyed elements of composite literals. *)
Fixpoint traced (e : Node) : list Object :=
  match e with
  | Ident i =>
    match ObjectOf i with
    | Some obj => [obj]
    | None => []
    end
  | UnaryExpr _ AND x => traced x
  | CompositeLit _ _ elts =>
    flat_map (fun elt =>
      match elt with
      | KeyValueExpr _ (Ident _) value => traced value
      | _ => []
      end) elts
  | _ => []
  end.

(** The [var] declarations of the unit are ranked: whatever is followed
    from the values of the declaration of a variable ranks below it. *)
Definition ranked (pass : Pass) (rank : Object -> nat) : Prop :=
  ∀ obj decl value obj',
    findValueSpec obj (Files pass) = Some decl →
    value ∈ Spec_Values decl →
    obj' ∈ traced value →
    (rank obj' < rank obj)%nat.

(** The number of nodes of a tree. *)
Fixpoint size (n : Node) : nat :=
  S match n with
    | Ident _ | BasicLit _ _ => 0
    | CompositeLit _ type elts =>
        match type with Some t => size t | None => 0 end
        + list_sum (map size elts)
    | KeyValueExpr _ key value => size key + size value
    | CallExpr _ fn args => size fn + list_sum (map size args)
    | UnaryExpr _ _ x => size x
    | SelectorExpr _ x _ => size x
    | AssignStmt _ lhs _ rhs => list_sum (map size lhs) + list_sum (map size rhs)
    | ReturnStmt _ results => list_sum (map size results)
    | ValueSpec _ _ type values =>
        match type with Some t => size t | None => 0 end
        + list_sum (map size values)
    | OtherNode _ children => list_sum (map size children)
    end.

(** From some amount of fuel on, [P] holds. *)
Definition eventually (P : nat -> Prop) : Prop :=
  ∃ N : nat, ∀ fuel, (N ≤ fuel)%nat → P fuel.

(** What it means for the oracle and for the validators to return on an
    expression, on the elements of a literal and on a variable. *)
Section Returning.
Context (TypeString : Type_ -> string) (pass : Pass).

Definition oracleReturns (fuel : nat) (e : Node) : Prop :=
  ∃ b, isNilValue pass fuel e = Some b.

Definition atPosReturns (fuel : nat) (e : Node) : Prop :=
  ∀ exprType ctx p, ∃ w,
    validateMessageValueAtPos TypeString pass fuel e exprType ctx p = Some (tt, w).

Definition atUseReturns (fuel : nat) (elts : list Node) : Prop :=
  ∀ lit litType ctx p, ∃ w,
    validateCompositeLiteralMessageAtUse TypeString pass fuel lit elts litType
      ctx p = Some (tt, w).

Definition variableReturns (fuel : nat) (obj : Object) : Prop :=
  ∀ ident, ObjectOf ident = Some obj →
    (∃ b, isNilVariable pass fuel ident = Some b)
    ∧ ∀ exprType ctx p, ∃ w,
        validateVariableMessageAtPos TypeString pass fuel ident exprType ctx p
        = Some (tt, w).

Definition valueReturns (fuel : nat) (e : Node) : Prop :=
  ∀ exprType ctx, ∃ w,
    validateMessageValue TypeString pass fuel e exprType ctx = Some (tt, w).

Definition handledReturns (fuel : nat) (value : Node) : Prop :=
  ∀ exprType ctx p, ∃ w,
    handleValidation TypeString pass fuel value exprType ctx p = Some (tt, w).

Definition variableValueReturns (fuel : nat) (ident : IdentT) : Prop :=
  ∀ exprType ctx, ∃ w,
    validateVariableMessage TypeString pass fuel ident exprType ctx = Some (tt, w).

Definition literalReturns (fuel : nat) (elts : list Node) : Prop :=
  ∀ lit litType ctx, ∃ w,
    validateCompositeLiteralMessage TypeString pass fuel lit elts litType ctx
    = Some (tt, w).

(** For the value of a keyed element. *)
Definition onValue (P : Node -> Prop) (elt : Node) : Prop :=
  match elt with
  | KeyValueExpr _ (Ident _) value => P value
  | _ => True
  end.

End Returning.

(** The nodes of a tree in the order in which [ast.Inspect] meets them
    when nothing is pruned. *)
Fixpoint subnodes (n : Node) : list Node :=
  n :: match n with
       | Ident _ | BasicLit _ _ => []
       | CompositeLit _ type elts =>
           match type with Some t => subnodes t | None => [] end
           ++ flat_map subnodes elts
       | KeyValueExpr _ key value => subnodes key ++ subnodes value
       | CallExpr _ fn args => subnodes fn ++ flat_map subnodes args
       | UnaryExpr _ _ x => subnodes x
       | SelectorExpr _ x sel => subnodes x ++ [Ident sel]
       | AssignStmt _ lhs _ rhs => flat_map subnodes lhs ++ flat_map subnodes rhs
       | ReturnStmt _ results => flat_map subnodes results
       | ValueSpec _ names type values =>
           map Ident names
           ++ match type with Some t => subnodes t | None => [] end
           ++ flat_map subnodes values
       | OtherNode _ children => flat_map subnodes children
       end.

(** All the nodes of the files of a unit. *)
Definition nodesOf (files : list File) : list Node :=
  flat_map (fun file => flat_map subnodes (Decls file)) files.

(** A [var] specification one of whose names denotes [obj]. *)
Definition specOf (obj : Object) (n : Node) : bool :=
  match n with
  | ValueSpec _ names _ _ => existsb (declares obj) names
  | _ => false
  end.

(** A [:=] statement one of whose left-hand sides denotes [obj]. *)
Definition defineOf (obj : Object) (n : Node) : bool :=
  match n with
  | AssignStmt _ lhs tok _ => Token_eqb tok DEFINE && existsb (declaresNode obj) lhs
  | _ => false
  end.

(** The children of a node, in the order in which [ast.Inspect] visits
    them. *)
Definition children (n : Node) : list Node :=
  match n with
  | Ident _ | BasicLit _ _ => []
  | CompositeLit _ type elts => option_list type ++ elts
  | KeyValueExpr _ key value => [key; value]
  | CallExpr _ fn args => fn :: args
  | UnaryExpr _ _ x => [x]
  | SelectorExpr _ x sel => [x; Ident sel]
  | AssignStmt _ lhs _ rhs => lhs ++ rhs
  | ReturnStmt _ results => results
  | ValueSpec _ names type values => map Ident names ++ option_list type ++ values
  | OtherNode _ children => children
  end.

(** The positions of the nodes of some trees. *)
Definition positionsOf (ns : list Node) : list Pos :=
  map nodePos (flat_map subnodes ns).

(** The field context a diagnostic of the nested validators carries: the
    second argument of the "zero value" format, the first of the others. *)
Definition contextOf (d : Diagnostic) : option string :=
  if String.eqb (d_Format d) fmtZeroValue
  then d_Args d !! 1%nat
  else d_Args d !! 0%nat.

(** The diagnostic is about something below the field path [ctx]. *)
Definition within (ctx : string) (d : Diagnostic) : Prop :=
  ∃ rest, contextOf d = Some (ctx +:+ rest).

(** What is reported on behalf of a use at [p] below the path [ctx]. *)
Definition atUseReport (ctx : string) (p : Pos) (d : Diagnostic) : Prop :=
  d_Pos d = p ∧ within ctx d.

(** What is reported about the value [e] of the field path [ctx]: at the
    position of a node of [e]. *)
Definition valueReport (e : Node) (ctx : string) (d : Diagnostic) : Prop :=
  d_Pos d ∈ positionsOf [e] ∧ within ctx d.

(** The same for a literal that is given by its header and elements. *)
Definition literalReport (lit : Info) (elts : list Node) (ctx : string)
    (d : Diagnostic) : Prop :=
  (d_Pos d = pos lit ∨ d_Pos d ∈ positionsOf elts) ∧ within ctx d.

(** The node a call of the callback of [run] was made for: an assignment
    statement with these sides, or a composite literal with this header
    and these elements, whose type is the response type handed over. *)
Definition entryOf (U : Universe) (e : Entry) (n : Node) : Prop :=
  match e with
  | OnAssignment lhs rhs => ∃ h tok, n = AssignStmt h lhs tok rhs
  | OnCompositeLiteral lit elts litType =>
      ∃ type, n = CompositeLit lit type elts
              ∧ TypeOf n = Some litType
              ∧ isResponseMessage U litType = true
  end.

(** The call was made for a node of the files. *)
Definition fromUnit (U : Universe) (files : list File) (e : Entry) : Prop :=
  ∃ n, n ∈ nodesOf files ∧ entryOf U e n.

(** The sides of the assignment statements among some nodes, and of the
    assignments among some calls. *)
Definition assignmentsOf (ns : list Node) : list (list Node * list Node) :=
  omap (fun n => match n with
                 | AssignStmt _ lhs _ rhs => Some (lhs, rhs)
                 | _ => None
                 end) ns.

Definition assignmentEntries (es : list Entry) : list (list Node * list Node) :=
  omap (fun e => match e with
                 | OnAssignment lhs rhs => Some (lhs, rhs)
                 | OnCompositeLiteral _ _ _ => None
                 end) es.

(** The type with one pointer taken off, as the analyzer looks at it. *)
Definition deref (t : Type_) : Type_ :=
  match t with Pointer e => e | _ => t end.

(** The left-hand side selects a required message field of a response
    message: the tests [checkAssignment] makes before it looks at the
    right-hand side. *)
Definition targetsRequiredField (U : Universe) (lhs : Node) : bool :=
  match lhs with
  | SelectorExpr _ x sel =>
    match TypeOf x with
    | Some baseType =>
      isResponseMessage U (deref baseType)
      && match getFieldFromType U (deref baseType) (id_Name sel) with
         | Some field => isMessageField U field && negb (isOptionalField field)
         | None => false
         end
    | None => false
    end
  | _ => false
  end.

(** An expression that is neither an identifier, nor a composite
    literal, nor an address, nor a call with the one argument [nil]. *)
Definition opaque (e : Node) : bool :=
  match e with
  | Ident _ | CompositeLit _ _ _ | UnaryExpr _ AND _ => false
  | CallExpr _ _ [arg] => negb (isNilIdent arg)
  | _ => true
  end.


(** The diagnostic is about the field [name] of a message of the type
    printed as [typeName]: it names them, or it is a diagnostic of the
    nested validators under a field context that begins with [name]. *)
Definition aboutField (name typeName : string) (d : Diagnostic) : Prop :=
  (d_Format d ∈ [fmtNilAssign; fmtNotInit] ∧ d_Args d = [name; typeName])
  ∨ (nestedFormat d ∧ within name d).

#[local] Instance Diagnostic_eq_dec : EqDecision Diagnostic.
Proof. solve_decision. Defined.


(* ===================================================================== *)
(** ** Concrete inputs                                                   *)
(* ===================================================================== *)

(** The message types the fixtures under [testdata] are written against
    (package [gen/example/v1] and the well-known types), and some of the
    fixtures themselves. *)
Module Examples.

Definition examplev1 : Package :=
  {| Path := "github.com/nickheyer/go_no_nil_linter/gen/example/v1" |}.
Definition timestamppb : Package :=
  {| Path := "google.golang.org/protobuf/types/known/timestamppb" |}.
Definition wrapperspb : Package :=
  {| Path := "google.golang.org/protobuf/types/known/wrapperspb" |}.

Definition ProtoMessage : Func :=
  {| fn_Name := "ProtoMessage"; fn_Type := Signature [] [] |}.

Definition message (pkg : Package) (name : string) (fields : list Var)
  : NamedInfo :=
  {| Obj := Some {| tn_Name := name; tn_Pkg := Some pkg |};
     Methods := [ProtoMessage];
     Underlying := Struct (NewVar "sizeCache" (Basic "int32") :: fields) |}.

Definition tString := Basic "string".
Definition tUser := Named "examplev1.User".
Definition tAddress := Named "examplev1.Address".
Definition tLocation := Named "examplev1.Location".
Definition tContactInfo := Named "examplev1.ContactInfo".
Definition tUserResponse := Named "examplev1.UserResponse".
Definition tTimestamp := Named "timestamppb.Timestamp".
Definition tStringValue := Named "wrapperspb.StringValue".

(** Modelled from the spec: the message types of the generated package
    [gen/example/v1] and of the protobuf library, which are not among the
    sources. The fields are those the scenarios of the specification, the
    fixtures under [testdata] and [examples], and USAGE.md name
    ([UserResponse.User], [User.Address], [Address.Location],
    [LastLogin], [RelatedUsers], ...); [ProfileResponse] is added for
    the boxed string. *)
Definition declsOf : list (TypeId * NamedInfo) :=
  [ ("examplev1.UserResponse",
     message examplev1 "UserResponse"
       [ NewVar "User" (Pointer tUser);
         NewVar "LastLogin" (Pointer tTimestamp);
         NewVar "RelatedUsers" (Slice (Pointer tUser)) ]);
    ("examplev1.User",
     message examplev1 "User"
       [ NewVar "Id" tString;
         NewVar "Name" tString;
         NewVar "Address" (Pointer tAddress);
         NewVar "CreatedAt" (Pointer tTimestamp);
         NewVar "ContactInfo" (Pointer tContactInfo) ]);
    ("examplev1.Address",
     message examplev1 "Address"
       [ NewVar "Street" tString;
         NewVar "City" tString;
         NewVar "PostalCode" tString;
         NewVar "Location" (Pointer tLocation) ]);
    ("examplev1.Location",
     message examplev1 "Location"
       [ NewVar "Latitude" (Basic "float64");
         NewVar "Longitude" (Basic "float64") ]);
    ("examplev1.ContactInfo",
     message examplev1 "ContactInfo"
       [ NewVar "Email" tString;
         NewVar "Phone" tString ]);
    ("timestamppb.Timestamp",
     message timestamppb "Timestamp"
       [ NewVar "Seconds" (Basic "int64");
         NewVar "Nanos" (Basic "int32") ]);
    ("wrapperspb.StringValue",
     message wrapperspb "StringValue"
       [ NewVar "Value" tString ]);
    ("examplev1.ProfileResponse",
     message examplev1 "ProfileResponse"
       [ NewVar "Nickname" (Pointer tStringValue) ]) ].

Definition universe : Universe := fun id =>
  snd <$> List.find (fun d => String.eqb (fst d) id) declsOf.

(** [types.TypeString] on the types that occur in the fixtures. *)
Fixpoint typeString (t : Type_) : string :=
  match t with
  | Basic name => name
  | Pointer e => "*" ++ typeString e
  | Slice e => "[]" ++ typeString e
  | Array _ e => "[...]" ++ typeString e
  | Map k e => "map[" ++ typeString k ++ "]" ++ typeString e
  | Interface => "interface{}"
  | Signature _ _ => "func"
  | Struct _ => "struct"
  | Named id =>
    match Named_Obj universe id with
    | Some {| tn_Name := name; tn_Pkg := Some pkg |} => Path pkg ++ "." ++ name
    | Some {| tn_Name := name; tn_Pkg := None |} => name
    | None => id
    end
  end.

(** *** Building syntax *)

(** Nodes are numbered by hand; a node's number is its identity and,
    unless it starts where its parent starts, its position. *)
Definition plain (n : positive) : Info :=
  {| nid := n; pos := Z.pos n; tv := None |}.
Definition typed (n : positive) (t : Type_) : Info :=
  {| nid := n; pos := Z.pos n;
     tv := Some {| tv_IsType := false; tv_Type := t; tv_Value := None |} |}.
Definition constant (n : positive) (t : Type_) (v : string) : Info :=
  {| nid := n; pos := Z.pos n;
     tv := Some {| tv_IsType := false; tv_Type := t; tv_Value := Some v |} |}.
(** The first child of the node [n], at the same position. *)
Definition inside (n : positive) (t : option TypeAndValue) : Info :=
  {| nid := (n + 10000)%positive; pos := Z.pos n; tv := t |}.

Definition variable (o : positive) (name : string) (t : Type_) : Object :=
  {| oid := o; okind := KVar; oname := name; otype := t |}.
Definition function (o : positive) (name : string) (t : Type_) : Object :=
  {| oid := o; okind := KFunc; oname := name; otype := t |}.

(** A defining occurrence and a use of an object. *)
Definition def (n : positive) (obj : Object) : IdentT :=
  {| id_Info := plain n; id_Name := oname obj; id_Obj := Some obj |}.
Definition use (n : positive) (obj : Object) : Node :=
  Ident {| id_Info := typed n (otype obj); id_Name := oname obj;
           id_Obj := Some obj |}.

Definition nilObject : Object :=
  {| oid := 1; okind := KNil; oname := "nil"; otype := Basic "untyped nil" |}.
Definition nil_ (n : positive) : Node :=
  Ident {| id_Info := typed n (Basic "untyped nil"); id_Name := "nil";
           id_Obj := Some nilObject |}.
Definition blank (n : positive) : Node :=
  Ident {| id_Info := plain n; id_Name := "_"; id_Obj := None |}.

(** A field name in a selector; the field objects are never consulted. *)
Definition name_ (n : positive) (name : string) : IdentT :=
  {| id_Info := plain n; id_Name := name; id_Obj := None |}.

Definition str (n : positive) (v : string) : Node :=
  BasicLit (constant n tString v) v.
(** [field: value] *)
Definition kv (n : positive) (field : string) (value : Node) : Node :=
  KeyValueExpr (plain n)
    (Ident {| id_Info := inside n None; id_Name := field; id_Obj := None |})
    value.
(** The expression that names the type [t]. *)
Definition typeRef (n : positive) (t : Type_) : Node :=
  OtherNode
    (inside n (Some {| tv_IsType := true; tv_Type := t; tv_Value := None |}))
    [].
(** [T{...}] and [&T{...}] *)
Definition lit (n : positive) (t : Type_) (elts : list Node) : Node :=
  CompositeLit (typed n t) (Some (typeRef n t)) elts.
Definition ref (n : positive) (t : Type_) (elts : list Node) : Node :=
  UnaryExpr (typed n (Pointer t)) AND (lit (n + 1)%positive t elts).
(** [x.field] where [x] is a variable *)
Definition field (n : positive) (x : Object) (name : string) (t : Type_) : Node :=
  SelectorExpr (typed n t) (use (n + 1)%positive x) (name_ (n + 2)%positive name).
(** A function declaration and its body. *)
Definition func (n : positive) (body : list Node) : Node :=
  OtherNode (plain n) [OtherNode (inside n None) body].
(** A [var] declaration. *)
Definition varDecl (n : positive) (spec : Node) : Node :=
  OtherNode (plain n) [spec].

Definition passOf (files : list File) : Pass :=
  {| Files := files; TypeDecls := universe |}.

(** *** testdata/src/invalid: [implicitNilAssignment] *)
Module ImplicitNil.
Definition user := variable 10 "user" (Pointer tUser).
Definition response := variable 11 "response" (Pointer tUserResponse).

(** [response.User = user] *)
Definition assignment : Node :=
  AssignStmt (plain 120) [field 121 response "User" (Pointer tUser)]
    ASSIGN [use 124 user].

Definition body : Node :=
  func 100
    [ (* var user *examplev1.User *)
      varDecl 101
        (ValueSpec (plain 102) [def 103 user]
                   (Some (typeRef 104 (Pointer tUser))) []);
      (* response := &examplev1.UserResponse{} *)
      AssignStmt (plain 110) [Ident (def 111 response)] DEFINE
        [ref 112 tUserResponse []];
      assignment ].

Definition pass : Pass :=
  passOf [ {| Filename := "invalid.go"; Decls := [body] |} ].
End ImplicitNil.

(** *** testdata/src/invalid: [deeplyNestedNil] *)
Module DeeplyNested.
Definition addr := variable 20 "addr" (Pointer tAddress).
Definition user := variable 21 "user" (Pointer tUser).

Definition body : Node :=
  func 200
    [ AssignStmt (plain 210) [Ident (def 211 addr)] DEFINE
        [ref 212 tAddress
           [ kv 214 "Street" (str 215 "123 Main St");
             kv 216 "City" (str 217 "NYC");
             kv 218 "PostalCode" (str 219 "10001");
             kv 220 "Location" (nil_ 221) ]];
      AssignStmt (plain 230) [Ident (def 231 user)] DEFINE
        [ref 232 tUser
           [ kv 234 "Id" (str 235 "123");
             kv 236 "Name" (str 237 "John");
             kv 238 "Address" (use 239 addr) ]];
      AssignStmt (plain 250) [blank 251] ASSIGN
        [ref 252 tUserResponse
           [ kv 254 "User" (use 255 user);
             kv 256 "LastLogin" (nil_ 257) ]] ].

Definition pass : Pass :=
  passOf [ {| Filename := "invalid.go"; Decls := [body] |} ].
End DeeplyNested.

(** *** A call that is handed [nil]: [response.User = loadUser(nil)] *)
Module CallWithNil.
Definition response := variable 30 "response" (Pointer tUserResponse).
Definition loadUser :=
  function 31 "loadUser"
    (Signature [Pointer (Named "examplev1.GetUserRequest")] [Pointer tUser]).

Definition call : Node :=
  CallExpr (typed 324 (Pointer tUser)) (use 325 loadUser) [nil_ 326].

Definition body : Node :=
  func 300
    [ AssignStmt (plain 320) [field 321 response "User" (Pointer tUser)]
        ASSIGN [call] ].

Definition pass : Pass :=
  passOf [ {| Filename := "handler.go"; Decls := [body] |} ].
End CallWithNil.

(** *** Two variables declared together, the second from the first *)
Module Together.
Definition a := variable 40 "a" (Pointer tAddress).
Definition b := variable 41 "b" (Pointer tAddress).
Definition user := variable 42 "user" (Pointer tUser).
Definition response := variable 43 "response" (Pointer tUserResponse).

(** [var a, b = &examplev1.Address{Location: &examplev1.Location{}}, a] *)
Definition declAB : Node :=
  varDecl 400
    (ValueSpec (plain 401) [def 402 a; def 403 b] None
       [ ref 404 tAddress [kv 406 "Location" (ref 407 tLocation [])];
         use 409 a ]).

(** The composite literal of [var user = &examplev1.User{Address: b, ...}] *)
Definition userElts : list Node :=
  [ kv 416 "Address" (use 417 b);
    kv 418 "CreatedAt"
      (CallExpr (typed 419 (Pointer tTimestamp))
         (OtherNode (plain 420) []) []);
    kv 421 "ContactInfo" (ref 422 tContactInfo []) ].

Definition declUser : Node :=
  varDecl 410
    (ValueSpec (plain 411) [def 412 user] None [ref 413 tUser userElts]).

(** [func attach(response *examplev1.UserResponse) { response.User = user }] *)
Definition attach : Node :=
  func 430
    [ AssignStmt (plain 431) [field 432 response "User" (Pointer tUser)]
        ASSIGN [use 435 user] ].

Definition pass : Pass :=
  passOf [ {| Filename := "together.go";
              Decls := [declAB; declUser; attach] |} ].
End Together.

(** *** testdata/src/invalid: [uninitializedMessageField] *)
Module Uninitialized.
Definition elts : list Node :=
  [ kv 514 "RelatedUsers"
      (CompositeLit (typed 515 (Slice (Pointer tUser)))
         (Some (typeRef 515 (Slice (Pointer tUser)))) []) ].

Definition body : Node :=
  func 500
    [ AssignStmt (plain 510) [blank 511] ASSIGN
        [ref 512 tUserResponse elts] ].

Definition pass : Pass :=
  passOf [ {| Filename := "invalid.go"; Decls := [body] |} ].
End Uninitialized.

(** *** examples/demo.go: [createBadResponse], and a generated file *)
Module BadResponse.
Definition now (n : positive) : Node :=
  CallExpr (typed n (Pointer tTimestamp)) (OtherNode (plain (n + 1)%positive) []) [].

Definition elts : list Node := [ kv 614 "LastLogin" (now 615) ].

(** [return &examplev1.UserResponse{LastLogin: timestamppb.Now()}] *)
Definition returnStmt : Node :=
  ReturnStmt (plain 610) [ref 611 tUserResponse elts].

(** [return examplev1.UserResponse{LastLogin: timestamppb.Now()}] *)
Definition returnValue : Node :=
  ReturnStmt (plain 630) [lit 631 tUserResponse elts].

Definition demo : File :=
  {| Filename := "demo.go"; Decls := [func 600 [returnStmt]] |}.
Definition byValue : File :=
  {| Filename := "value.go"; Decls := [func 620 [returnValue]] |}.
Definition generated : File :=
  {| Filename := "service.pb.go"; Decls := [] |}.

Definition pass : Pass := passOf [demo; byValue].
Definition withGenerated : Pass := passOf [demo; generated].
End BadResponse.

(** *** A response written positionally *)
Module Positional.
(** [examplev1.UserResponse{state, user(), nil, nil}]: the fields in
    order, none of them named. *)
Definition elts : list Node :=
  [ BasicLit (constant 712 (Basic "int32") "0") "0";
    CallExpr (typed 713 (Pointer tUser)) (OtherNode (plain 714) []) [];
    nil_ 715;
    nil_ 716 ].

Definition literal : Node := lit 710 tUserResponse elts.
End Positional.

(** *** A response with a boxed string: [response.Nickname = nil] *)
Module Wrapper.
Definition tProfileResponse := Named "examplev1.ProfileResponse".
Definition nickname : Var := NewVar "Nickname" (Pointer tStringValue).

Definition response := variable 50 "response" (Pointer tProfileResponse).

Definition body : Node :=
  func 800
    [ AssignStmt (plain 810)
        [field 811 response "Nickname" (Pointer tStringValue)]
        ASSIGN [nil_ 814] ].

Definition pass : Pass :=
  passOf [ {| Filename := "profile.go"; Decls := [body] |} ].
End Wrapper.

(** *** testdata/src/valid: [fullyInitializedResponse] *)
Module FullyInitialized.
Definition response := variable 70 "response" (Pointer tUserResponse).

Definition number (n : positive) (v : string) : Node :=
  BasicLit (constant n (Basic "float64") v) v.

Definition body : Node :=
  func 1100
    [ AssignStmt (plain 1101) [Ident (def 1102 response)] DEFINE
        [ref 1103 tUserResponse
           [ kv 1105 "User"
               (ref 1106 tUser
                  [ kv 1108 "Id" (str 1109 "123");
                    kv 1110 "Name" (str 1111 "John Doe");
                    kv 1112 "Address"
                      (ref 1113 tAddress
                         [ kv 1115 "Street" (str 1116 "123 Main St");
                           kv 1117 "City" (str 1118 "New York");
                           kv 1119 "PostalCode" (str 1120 "10001");
                           kv 1121 "Location"
                             (ref 1122 tLocation
                                [ kv 1124 "Latitude" (number 1125 "40.7128");
                                  kv 1126 "Longitude" (number 1127 "-74.0060") ]) ]);
                    kv 1130 "CreatedAt" (BadResponse.now 1131);
                    kv 1133 "ContactInfo"
                      (ref 1134 tContactInfo
                         [ kv 1136 "Email" (str 1137 "john@example.com");
                           kv 1138 "Phone" (str 1139 "555-1234") ]) ]);
             kv 1140 "LastLogin" (BadResponse.now 1141);
             kv 1143 "RelatedUsers"
               (CompositeLit (typed 1144 (Slice (Pointer tUser)))
                  (Some (typeRef 1144 (Slice (Pointer tUser)))) []) ]];
      AssignStmt (plain 1150) [blank 1151] ASSIGN [use 1152 response] ].

Definition pass : Pass :=
  passOf [ {| Filename := "valid.go"; Decls := [body] |} ].
End FullyInitialized.

(** *** examples/variable_check.go: [badVariableUsage] *)
Module BadVariable.
Definition user := variable 71 "user" (Pointer tUser).
Definition response := variable 72 "response" (Pointer tUserResponse).

Definition body : Node :=
  func 1200
    [ AssignStmt (plain 1201) [Ident (def 1202 user)] DEFINE
        [ref 1203 tUser
           [ kv 1205 "Id" (str 1206 "123");
             kv 1207 "Name" (str 1208 "John") ]];
      AssignStmt (plain 1210) [Ident (def 1211 response)] DEFINE
        [ref 1212 tUserResponse
           [ kv 1214 "User" (use 1215 user);
             kv 1216 "LastLogin" (BadResponse.now 1217) ]];
      ReturnStmt (plain 1220) [use 1221 response] ].

Definition pass : Pass :=
  passOf [ {| Filename := "variable_check.go"; Decls := [body] |} ].
End BadVariable.

(** *** [deeplyNestedNil] with [var] in place of [:=] *)
Module DeeplyNestedVar.
Definition addr := variable 73 "addr" (Pointer tAddress).
Definition user := variable 74 "user" (Pointer tUser).

Definition body : Node :=
  func 1300
    [ varDecl 1301
        (ValueSpec (plain 1302) [def 1303 addr] None
           [ref 1304 tAddress
              [ kv 1306 "Street" (str 1307 "123 Main St");
                kv 1308 "City" (str 1309 "NYC");
                kv 1310 "PostalCode" (str 1311 "10001");
                kv 1312 "Location" (nil_ 1313) ]]);
      varDecl 1320
        (ValueSpec (plain 1321) [def 1322 user] None
           [ref 1323 tUser
              [ kv 1325 "Id" (str 1326 "123");
                kv 1327 "Name" (str 1328 "John");
                kv 1329 "Address" (use 1330 addr);
                kv 1331 "CreatedAt" (BadResponse.now 1332);
                kv 1334 "ContactInfo" (ref 1335 tContactInfo []) ]]);
      AssignStmt (plain 1340) [blank 1341] ASSIGN
        [ref 1342 tUserResponse
           [ kv 1344 "User" (use 1345 user);
             kv 1346 "LastLogin" (BadResponse.now 1347) ]] ].

Definition pass : Pass :=
  passOf [ {| Filename := "nested.go"; Decls := [body] |} ].
End DeeplyNestedVar.

(** *** A response with its repeated field given as nil *)
Module WithCollection.
Definition relatedUsers : Var := NewVar "RelatedUsers" (Slice (Pointer tUser)).

Definition given : list Node :=
  [ kv 914 "User" (CallExpr (typed 915 (Pointer tUser)) (OtherNode (plain 916) []) []) ].

(** [RelatedUsers: nil] *)
Definition key : IdentT :=
  {| id_Info := inside 917 None; id_Name := "RelatedUsers"; id_Obj := None |}.
End WithCollection.

(** *** Variables declared with values, one from the other, and a
    response that leaves [LastLogin] out *)
Module Ranked.
Definition addr := variable 60 "addr" (Pointer tAddress).
Definition user := variable 61 "user" (Pointer tUser).

(** [var addr = &examplev1.Address{Location: &examplev1.Location{}}] *)
Definition declAddr : Node :=
  varDecl 1000
    (ValueSpec (plain 1001) [def 1002 addr] None
       [ ref 1003 tAddress [kv 1005 "Location" (ref 1006 tLocation [])] ]).

(** [var user = &examplev1.User{Address: addr, CreatedAt: timestamppb.Now(),
    ContactInfo: &examplev1.ContactInfo{}}] *)
Definition declUser : Node :=
  varDecl 1010
    (ValueSpec (plain 1011) [def 1012 user] None
       [ ref 1013 tUser
           [ kv 1015 "Address" (use 1016 addr);
             kv 1017 "CreatedAt" (BadResponse.now 1018);
             kv 1020 "ContactInfo" (ref 1021 tContactInfo []) ] ]).

(** [&examplev1.UserResponse{User: user}] *)
Definition elts : list Node := [ kv 1033 "User" (use 1034 user) ].

Definition body : Node :=
  func 1030 [ AssignStmt (plain 1031) [blank 1035] ASSIGN
                [ref 1032 tUserResponse elts] ].

Definition pass : Pass :=
  passOf [ {| Filename := "ranked.go"; Decls := [declAddr; declUser; body] |} ].

Definition rank (obj : Object) : nat :=
  if Pos.eqb (oid obj) 61 then 1 else 0.
End Ranked.

(** *** testdata/src/invalid: [explicitNilAssignment] *)
Module ExplicitNil.
Definition response := variable 80 "response" (Pointer tUserResponse).

(** [response.User = nil] *)
Definition target : Node := field 2001 response "User" (Pointer tUser).
Definition body : Node :=
  func 2000
    [ AssignStmt (plain 2010) [Ident (def 2011 response)] DEFINE
        [ref 2012 tUserResponse []];
      AssignStmt (plain 2020) [target] ASSIGN [nil_ 2004] ].

Definition pass : Pass :=
  passOf [ {| Filename := "invalid.go"; Decls := [body] |} ].
End ExplicitNil.

(** *** Values the analyzer does not look into:
    [response.User, count = loadUser(req), other.Count] *)
Module Opaque.
Definition response := variable 81 "response" (Pointer tUserResponse).
Definition req := variable 82 "req" (Pointer (Named "examplev1.GetUserRequest")).
Definition count := variable 83 "count" (Basic "int").
Definition other := variable 84 "other" (Pointer (Named "examplev1.Stats")).
Definition loadUser :=
  function 85 "loadUser"
    (Signature [Pointer (Named "examplev1.GetUserRequest")] [Pointer tUser]).

Definition Lhs : list Node :=
  [ field 2101 response "User" (Pointer tUser); use 2104 count ].
Definition Rhs : list Node :=
  [ CallExpr (typed 2110 (Pointer tUser)) (use 2111 loadUser) [use 2112 req];
    field 2113 other "Count" (Basic "int") ].

Definition pass : Pass :=
  passOf [ {| Filename := "opaque.go";
              Decls := [func 2100 [AssignStmt (plain 2120) Lhs ASSIGN Rhs]] |} ].
End Opaque.

(** *** A joint declaration:
    [var primary, backup *examplev1.User = nil, &examplev1.User{}] *)
Module Joint.
Definition primary := variable 90 "primary" (Pointer tUser).
Definition backup := variable 91 "backup" (Pointer tUser).

Definition decl : Node :=
  ValueSpec (plain 2301) [def 2302 primary; def 2303 backup]
    (Some (typeRef 2304 (Pointer tUser)))
    [ nil_ 2305; ref 2306 tUser [] ].

Definition pass : Pass :=
  passOf [ {| Filename := "joint.go"; Decls := [varDecl 2300 decl] |} ].
End Joint.

End Examples.

(* ===================================================================== *)
(** ** Properties                                                        *)
(* ===================================================================== *)

Import Examples.

(** *** The skip of generated files *)

(** C9. If any file of the unit has a name ending in ".pb.go", [run]
    returns at once with no diagnostic at all, whatever the other files
    contain and whatever the fuel. *)
Theorem run_skips_unit_with_generated_file
    (TypeString : Type_ -> string) (pass : Pass) (fuel : nat) :
  (∃ file, file ∈ Files pass ∧ HasSuffix (Filename file) ".pb.go" = true) →
  run TypeString pass fuel = Some (tt, []).
Proof.
  intros (file & Hin & Hsuffix).
  unfold run, runWith.
  replace (existsb _ (Files pass)) with true; [reflexivity|].
  symmetry. apply existsb_exists.
  exists file. split; [by apply list_elem_of_In | exact Hsuffix].
Qed.

(** The unit of [createBadResponse] together with a generated file: the
    missing [User] of [demo.go] is reported when the unit is [demo.go]
    alone and is not when [service.pb.go] is part of it. *)
Lemma run_skips_unit_with_generated_file_witness :
  logOf (run typeString (passOf [BadResponse.demo]) 1)
    = Some [ {| d_Pos := 612%Z; d_Format := fmtNotInit;
                d_Args := ["User"; typeString tUserResponse] |} ]
  ∧ run typeString BadResponse.withGenerated 1 = Some (tt, []).
Proof.
  split; [vm_compute; reflexivity|].
  apply run_skips_unit_with_generated_file.
  exists BadResponse.generated.
  split; [|vm_compute; reflexivity].
  apply list_elem_of_In. simpl. right. left. reflexivity.
Defined.

(** *** The reporting effect *)

Lemma bind_Some {W A B} (m : M W A) (k : A -> M W B) (b : B) (w : list W) :
  bind m k = Some (b, w) ↔
  ∃ a w1 w2, m = Some (a, w1) ∧ k a = Some (b, w2) ∧ w = w1 ++ w2.
Proof.
  unfold bind. split.
  - destruct m as [[a w1]|]; [|discriminate].
    destruct (k a) as [[b' w2]|] eqn:Hk; [|discriminate].
    intros [= <- <-]. by exists a, w1, w2.
  - intros (a & w1 & w2 & -> & -> & ->). reflexivity.
Qed.

Lemma bind_ret_l {W A B} (a : A) (k : A -> M W B) : bind (ret a) k = k a.
Proof. unfold bind, ret. by destruct (k a) as [[b w]|]. Qed.

Lemma bind_None {W A B} (k : A -> M W B) : bind (None : M W A) k = None.
Proof. reflexivity. Qed.




(** *** Positional composite literals *)



(** *** The classifier on boxed primitives *)

(** Outside the well-known packages a registered wrapper name makes the
    field a scalar. *)
Lemma wrapper_elsewhere_is_scalar (U : Universe) (name : string) (id : TypeId)
    (typeName : string) (pkg : option Package) :
  U id = Some {| Obj := Some {| tn_Name := typeName; tn_Pkg := pkg |};
                 Methods := [ProtoMessage]; Underlying := Struct [] |} →
  scalarWrappers !! typeName = Some true →
  pkgPathContains pkg "google.golang.org/protobuf/types/known" = false →
  pkgPathContains pkg "google.golang.org/genproto/googleapis/type" = false →
  isMessageField U (NewVar name (Pointer (Named id))) = false.
Proof.
  intros HU Hreg Hk Ht.
  unfold isMessageField, hasProtoMessageMethod, Named_Methods, Named_Obj.
  simpl. rewrite HU. simpl. rewrite Hk, Ht, Hreg. reflexivity.
Qed.

(** Inside [google.golang.org/protobuf/types/known/...] every message is a
    message field, whatever it is called: the test of the package comes
    before the look-up in the registry. *)
Lemma wellknown_package_is_message_field (U : Universe) (name : string)
    (id : TypeId) (typeName : string) (pkg : Package) (fields : list Var) :
  U id = Some {| Obj := Some {| tn_Name := typeName; tn_Pkg := Some pkg |};
                 Methods := [ProtoMessage]; Underlying := Struct fields |} →
  Contains (Path pkg) "google.golang.org/protobuf/types/known" = true →
  isMessageField U (NewVar name (Pointer (Named id))) = true.
Proof.
  intros HU Hk.
  unfold isMessageField, hasProtoMessageMethod, Named_Methods, Named_Obj.
  simpl. rewrite HU. simpl. rewrite Hk. reflexivity.
Qed.

(** C3, at the boxed string of the protobuf library: [StringValue] is in
    the registry, and yet a field of type [*wrapperspb.StringValue] is
    classified as a message field, kept by [getMessageFields] as
    required, and [response.Nickname = nil] is reported. *)
Theorem boxed_string_is_classified_as_required_message :
  scalarWrappers !! "StringValue" = Some true
  ∧ isMessageField universe Wrapper.nickname = true
  ∧ getMessageFields universe [Wrapper.nickname] = [Wrapper.nickname]
  ∧ option_map (map Message) (logOf (run typeString Wrapper.pass 1))
    = Some [ "nil assignment to non-optional message field 'Nickname' in protobuf message 'github.com/nickheyer/go_no_nil_linter/gen/example/v1.ProfileResponse'" ].
Proof. repeat split; vm_compute; reflexivity. Qed.

(** *** The oracle on calls and selectors *)

Lemma isNilValue_selector (pass : Pass) (fuel : nat) (h : Info) (x : Node)
    (sel : IdentT) :
  isNilValue pass (S fuel) (SelectorExpr h x sel) = Some false.
Proof. reflexivity. Qed.

(** A call is reported nil exactly when it has one argument and that
    argument is the identifier [nil]; what is called plays no part. *)
Lemma isNilValue_call (pass : Pass) (fuel : nat) (h : Info) (fn : Node)
    (args : list Node) :
  isNilValue pass (S fuel) (CallExpr h fn args)
  = Some (match args with [arg] => isNilIdent arg | _ => false end).
Proof.
  simpl. destruct args as [|arg [|arg' args]]; try reflexivity.
  destruct (isNilIdent arg); reflexivity.
Qed.

(** C4, at [response.User = loadUser(nil)]: [loadUser] is a function, not
    a type, so the call is no conversion of nil; the oracle answers true
    all the same, and the assignment is reported as a nil assignment. *)
Theorem call_with_nil_argument_is_reported_nil :
  okind CallWithNil.loadUser = KFunc
  ∧ (∀ fuel, isNilValue CallWithNil.pass (S fuel) CallWithNil.call = Some true)
  ∧ option_map (map (fun d => (d_Pos d, Message d)))
      (logOf (run typeString CallWithNil.pass 1))
    = Some [ (324%Z, "nil assignment to non-optional message field 'User' in protobuf message 'github.com/nickheyer/go_no_nil_linter/gen/example/v1.UserResponse'") ].
Proof.
  split; [reflexivity|]. split; [intros fuel; reflexivity|].
  vm_compute; reflexivity.
Qed.

(** *** A variable declared without a value *)

(** For the oracle every pointer variable declared without a value is
    nil, so the branch of [checkAssignment] that would trace the variable
    is not taken for it. *)
Lemma isNilValue_pointer_without_value (pass : Pass) (fuel : nat)
    (ident : IdentT) (obj : Object) (decl : Node) (elem : Type_) :
  ObjectOf ident = Some obj →
  hasConstantValue ident = false →
  findValueSpec obj (Files pass) = Some decl →
  Spec_Values decl = [] →
  otype obj = Pointer elem →
  isNilValue pass (S (S fuel)) (Ident ident) = Some true.
Proof.
  intros Hobj Hconst Hdecl Hvalues Htype. simpl.
  destruct (String.eqb _ _); [reflexivity|].
  by rewrite Hobj, Hconst, Hdecl, Hvalues, Htype.
Qed.

(** C5, at the fixture [implicitNilAssignment]: for [var user *User] and
    [response.User = user] there is one diagnostic at the use, and its
    text is that of a nil assignment; the text "variable 'user' used for
    field 'User' is nil" that the fixture expects is not produced. *)
Theorem variable_without_value_is_reported_as_nil_assignment :
  (∀ fuel,
     checkAssignment typeString ImplicitNil.pass (S (S fuel))
       (Assign_Lhs ImplicitNil.assignment) (Assign_Rhs ImplicitNil.assignment)
     = Some (tt, [ {| d_Pos := 124%Z; d_Format := fmtNilAssign;
                      d_Args := ["User"; typeString tUserResponse] |} ]))
  ∧ Message {| d_Pos := 124%Z; d_Format := fmtNilAssign;
               d_Args := ["User"; typeString tUserResponse] |}
    = "nil assignment to non-optional message field 'User' in protobuf message 'github.com/nickheyer/go_no_nil_linter/gen/example/v1.UserResponse'"
  ∧ Message {| d_Pos := 124%Z; d_Format := fmtZeroValue;
               d_Args := ["user"; "User"] |}
    = "variable 'user' used for field 'User' is nil (zero value)".
Proof.
  split; [intros fuel; vm_compute; reflexivity|].
  split; vm_compute; reflexivity.
Qed.

(** *** Three levels through variables *)

(** C2, at the fixture [deeplyNestedNil]: [Location] is nil in [addr],
    [addr] is the [Address] of [user], and [user] is the [User] of the
    response. The run reports the two fields [user] leaves out and the
    nil [LastLogin]; nothing is reported for [User.Address.Location],
    because a variable introduced by [:=] is not followed once the
    reports are made at the position of use. *)
Theorem deeply_nested_nil_through_variables_is_missed :
  option_map (map (fun d => (d_Pos d, d_Format d, d_Args d)))
    (logOf (run typeString DeeplyNested.pass 4))
  = Some [ (255%Z, fmtNotInitAtUse, ["User"; "CreatedAt"; typeString tUser]);
           (255%Z, fmtNotInitAtUse, ["User"; "ContactInfo"; typeString tUser]);
           (257%Z, fmtNilAssign, ["LastLogin"; typeString tUserResponse]) ]
  ∧ (∀ fuel,
       validateMessageValueAtPos typeString DeeplyNested.pass (S (S fuel))
         (use 239 DeeplyNested.addr) (Pointer tAddress) "User.Address" 255%Z
       = Some (tt, [])).
Proof.
  split; [vm_compute; reflexivity|].
  intros fuel. vm_compute; reflexivity.
Qed.
(** With [var] in place of [:=] the nil [Location] is found, and reported
    at the use of [user] in the response: the field context is
    [User.Address], the field [Location]. *)
Example deeply_nested_nil_through_var_declarations :
  logOf (run typeString DeeplyNestedVar.pass 6)
  = Some [ {| d_Pos := 1345%Z; d_Format := fmtNilAtUse;
              d_Args := ["User.Address"; "Location"; typeString tAddress] |} ].
Proof. vm_compute; reflexivity. Qed.

(** *** Other fixtures *)

(** testdata/src/valid, [fullyInitializedResponse]: nothing to report. *)
Example fully_initialized_response_is_clean :
  run typeString FullyInitialized.pass 10 = Some (tt, []).
Proof. vm_compute; reflexivity. Qed.

(** testdata/src/invalid, [uninitializedMessageField]: the two required
    fields the literal leaves out, at the literal; nothing for the
    repeated field it gives. *)
Example uninitialized_message_fields_are_reported :
  logOf (run typeString Uninitialized.pass 1)
  = Some [ {| d_Pos := 513%Z; d_Format := fmtNotInit;
              d_Args := ["User"; typeString tUserResponse] |};
           {| d_Pos := 513%Z; d_Format := fmtNotInit;
              d_Args := ["LastLogin"; typeString tUserResponse] |} ].
Proof. vm_compute; reflexivity. Qed.

(** examples/variable_check.go, [badVariableUsage]: the three fields that
    [user] leaves out are reported where [user] is used. *)
Example bad_variable_usage_is_reported_at_use :
  option_map (map (fun d => (d_Pos d, d_Format d, d_Args d)))
    (logOf (run typeString BadVariable.pass 4))
  = Some [ (1215%Z, fmtNotInitAtUse, ["User"; "Address"; typeString tUser]);
           (1215%Z, fmtNotInitAtUse, ["User"; "CreatedAt"; typeString tUser]);
           (1215%Z, fmtNotInitAtUse, ["User"; "ContactInfo"; typeString tUser]) ].
Proof. vm_compute; reflexivity. Qed.

(** *** The schedule of [run] *)

Lemma bind_assoc {W A B C} (m : M W A) (k : A -> M W B) (h : B -> M W C) :
  bind (bind m k) h = bind m (fun a => bind (k a) h).
Proof.
  destruct m as [[a w1]|]; simpl; [|reflexivity].
  destruct (k a) as [[b w2]|]; simpl; [|reflexivity].
  destruct (h b) as [[c w3]|]; simpl; [|reflexivity].
  by rewrite app_assoc.
Qed.

Lemma bind_ret_tt {W} (m : M W unit) : bind m (fun _ => ret tt) = m.
Proof.
  destruct m as [[[] w]|]; simpl; [|reflexivity]. by rewrite app_nil_r.
Qed.

Lemma forM__app {W A} (l1 l2 : list A) (body : A -> M W unit) :
  forM_ (l1 ++ l2) body = (forM_ l1 body ;; forM_ l2 body).
Proof.
  induction l1 as [|x l1 IH].
  - change (forM_ l2 body = bind (ret tt) (fun _ => forM_ l2 body)).
    by rewrite bind_ret_l.
  - change (bind (body x) (fun _ => forM_ (l1 ++ l2) body)
            = bind (bind (body x) (fun _ => forM_ l1 body))
                   (fun _ => forM_ l2 body)).
    by rewrite IH, bind_assoc.
Qed.

Section Schedule.
Context {W : Type} (U : Universe).
Context (f : list Node -> list Node -> M W unit).
Context (g : Info -> list Node -> Type_ -> M W unit).

Lemma foldM_scheduled {A} noted real :
  @scheduled W A f g noted real → scheduled f g (foldM noted) (foldM real).
Proof.
  intros Hstep s l. revert s.
  induction l as [|x l IH]; intros s.
  - exists s, []. split; reflexivity.
  - destruct (Hstep s x) as (s1 & es1 & Hn1 & Hr1).
    destruct (IH s1) as (s2 & es2 & Hn2 & Hr2).
    exists s2, (es1 ++ es2). split.
    + simpl. rewrite Hn1. simpl. rewrite Hn2. reflexivity.
    + simpl. rewrite Hr1, bind_assoc, bind_ret_l, Hr2.
      by rewrite forM__app, bind_assoc.
Qed.

Lemma visitResult_scheduled :
  scheduled f g (visitResult U noteCompositeLiteral) (visitResult U g).
Proof.
  intros s r.
  destruct r as [i | h v | h type Elts | h k v | h fn args | h op x | h x0 sel | h lhs tok rhs | h Results | h names ty values | h children];
    try (exists s, []; split; reflexivity).
  simpl. destruct (bool_decide (nid h ∈ s)); [exists s, []; split; reflexivity|].
  destruct (TypeOf (CompositeLit h type Elts)) as [litType|];
    [|eexists _, []; split; reflexivity].
  destruct (isResponseMessage U litType); [|eexists _, []; split; reflexivity].
  eexists _, [_]. split; [reflexivity|].
  simpl. by rewrite bind_ret_tt.
Qed.

Lemma visit_scheduled : scheduled f g (visit U noteAssignment noteCompositeLiteral) (visit U f g).
Proof.
  intros s n.
  destruct n as [i | h v | h type Elts | h k v | h fn args | h op x | h x0 sel | h lhs tok rhs | h Results | h names ty values | h children];
    try (exists s, []; split; reflexivity).
  - simpl. destruct (bool_decide (nid h ∈ s)); [exists s, []; split; reflexivity|].
    destruct (TypeOf (CompositeLit h type Elts)) as [litType|];
      [|eexists _, []; split; reflexivity].
    destruct (isResponseMessage U litType); [|eexists _, []; split; reflexivity].
    eexists _, [_]. split; [reflexivity|].
    simpl. by rewrite bind_ret_tt.
  - exists s, [OnAssignment lhs rhs]. split; [reflexivity|].
    simpl. by rewrite bind_ret_tt.
  - apply (foldM_scheduled _ _ visitResult_scheduled).
Qed.

Lemma runWith_scheduled (files : list File) :
  ∃ es, schedule U files = Some (tt, es)
        ∧ runWith U f g files = forM_ es (perform f g).
Proof.
  unfold schedule, runWith.
  destruct (existsb _ files); [exists []; split; reflexivity|].
  unfold scan.
  destruct (foldM_scheduled _ _ visit_scheduled ∅ (visited files))
    as (s & es & Hn & Hr).
  exists es. rewrite Hn, Hr. split.
  - simpl. by rewrite app_nil_r.
  - by rewrite bind_assoc, bind_ret_l, bind_ret_tt.
Qed.

End Schedule.

(** *** Each literal is handed over at most once *)

Lemma validated_app (es1 es2 : list Entry) :
  validated (es1 ++ es2) = validated es1 ++ validated es2.
Proof. apply omap_app. Qed.

Lemma foldM_marking {A} (step : gset NodeId -> A -> M Entry (gset NodeId)) :
  marking step → marking (foldM step).
Proof.
  intros Hstep s l. revert s.
  induction l as [|x l IH]; intros s s' es Hfold.
  - injection Hfold as <- <-. split; [done|]. split; [constructor|].
    intros n Hn. inversion Hn.
  - simpl in Hfold. apply bind_Some in Hfold as (s1 & es1 & es2 & H1 & H2 & ->).
    apply Hstep in H1 as (Hsub1 & Hnd1 & Hin1).
    apply IH in H2 as (Hsub2 & Hnd2 & Hin2).
    split; [set_solver|]. rewrite validated_app. split.
    + apply NoDup_app. split; [done|]. split; [|done].
      intros n Hn1 Hn2. apply Hin1 in Hn1. apply Hin2 in Hn2. tauto.
    + intros n [Hn|Hn]%elem_of_app.
      * apply Hin1 in Hn. set_solver.
      * apply Hin2 in Hn. set_solver.
Qed.

Lemma visitResult_marking (U : Universe) : marking (visitResult U noteCompositeLiteral).
Proof.
  intros s r s' es Hstep.
  assert (Hskip : ∀ s0 : gset NodeId, s ⊆ s0 →
            (Some (s0, []) : M Entry (gset NodeId)) = Some (s', es) →
            s ⊆ s' ∧ NoDup (validated es)
            ∧ ∀ n, n ∈ validated es → n ∈ s' ∧ n ∉ s).
  { intros s0 Hs0 [= <- <-]. split; [done|]. split; [constructor|].
    intros n Hn. inversion Hn. }
  destruct r as [i | h v | h type Elts | h k v | h fn args | h op x | h x0 sel | h lhs tok rhs | h Results | h names ty values | h children];
    try (apply (Hskip s); [done|exact Hstep]).
  simpl in Hstep.
  destruct (bool_decide (nid h ∈ s)) eqn:Hmarked;
    [apply (Hskip s); [done|exact Hstep]|].
  apply bool_decide_eq_false in Hmarked.
  destruct (TypeOf (CompositeLit h type Elts)) as [litType|];
    [|apply (Hskip ({[nid h]} ∪ s)); [set_solver|exact Hstep]].
  destruct (isResponseMessage U litType);
    [|apply (Hskip ({[nid h]} ∪ s)); [set_solver|exact Hstep]].
  injection Hstep as <- <-. split; [set_solver|]. simpl. split.
  - apply NoDup_singleton.
  - intros n ->%list_elem_of_singleton. set_solver.
Qed.

Lemma visit_marking (U : Universe) : marking (visit U noteAssignment noteCompositeLiteral).
Proof.
  intros s n s' es Hstep.
  destruct n as [i | h v | h type Elts | h k v | h fn args | h op x | h x0 sel | h lhs tok rhs | h Results | h names ty values | h children];
    try (injection Hstep as <- <-; split; [done|]; split; [constructor|];
         intros n Hn; inversion Hn).
  - exact (visitResult_marking U s (CompositeLit h type Elts) s' es Hstep).
  - exact (foldM_marking _ (visitResult_marking U) s Results s' es Hstep).
Qed.

(** *** A literal of a response type that is met is handed over *)

Section Reached.
Context (U : Universe) (c : Node) (litType : Type_).
Context (Hcomposite : asComposite c = [c]).
Context (Htype : TypeOf c = Some litType).
Context (Hroot : isResponseMessage U litType = true).

Lemma foldM_reaching {A} (own : A -> list Node)
    (step : gset NodeId -> A -> M Entry (gset NodeId)) :
  marking step → reaching c own step → reaching c (flat_map own) (foldM step).
Proof using All.
  intros Hmark Hstep s l. revert s.
  induction l as [|x l IH]; intros s s' es Hfold Hid.
  - injection Hfold as <- <-. split; [intros Hin; inversion Hin|done].
  - simpl in Hfold. apply bind_Some in Hfold as (s1 & es1 & es2 & H1 & H2 & ->).
    pose proof (foldM_marking _ Hmark _ _ _ _ H2) as (Hsub2 & _ & _).
    destruct (Hstep _ _ _ _ H1) as (Hhit1 & Hlog1).
    { intros c' Hc'. apply Hid. simpl. apply elem_of_app. by left. }
    destruct (IH _ _ _ H2) as (Hhit2 & Hlog2).
    { intros c' Hc'. apply Hid. simpl. apply elem_of_app. by right. }
    split.
    + simpl. intros [Hin|Hin]%elem_of_app; [set_solver|by apply Hhit2].
    + intros Hs' Hs. rewrite validated_app. apply elem_of_app.
      destruct (decide (nid (info c) ∈ s1)); [left|right]; auto.
Qed.

Lemma visitResult_reaching : reaching c asComposite (visitResult U noteCompositeLiteral).
Proof using All.
  intros s r s' es Hstep Hid.
  destruct r as [i | h v | h type Elts | h k v | h fn args | h op x | h x0 sel | h lhs tok rhs | h Results | h names ty values | h children];
    try (injection Hstep as <- <-; split; [intros Hin; inversion Hin|done]).
  simpl in Hstep, Hid.
  destruct (bool_decide (nid h ∈ s)) eqn:Hmarked.
  { injection Hstep as <- <-. apply bool_decide_eq_true in Hmarked.
    split; [|done]. intros Heq%list_elem_of_singleton. rewrite Heq. exact Hmarked. }
  apply bool_decide_eq_false in Hmarked.
  assert (Hs' : {[nid h]} ∪ s ⊆ s').
  { destruct (TypeOf (CompositeLit h type Elts)) as [t|];
      [destruct (isResponseMessage U t)|]; injection Hstep as <- <-; done. }
  split.
  - intros Heq%list_elem_of_singleton. rewrite Heq. simpl. set_solver.
  - intros Hin Hnot.
    assert (Hsame : nid (info c) = nid h).
    { destruct (TypeOf (CompositeLit h type Elts)) as [t|];
        [destruct (isResponseMessage U t)|]; injection Hstep as <- <-;
        set_solver. }
    assert (Hc : CompositeLit h type Elts = c).
    { apply Hid; [by apply list_elem_of_singleton|by rewrite Hsame]. }
    rewrite Hc, Htype, Hroot in Hstep. injection Hstep as <- <-.
    rewrite <- Hc. simpl. by apply list_elem_of_singleton.
Qed.

Lemma visit_reaching : reaching c compositesAt (visit U noteAssignment noteCompositeLiteral).
Proof using All.
  intros s n s' es Hstep Hid.
  destruct n as [i | h v | h type Elts | h k v | h fn args | h op x | h x0 sel | h lhs tok rhs | h Results | h names ty values | h children];
    try (injection Hstep as <- <-; split; [intros Hin; inversion Hin|done]).
  - exact (visitResult_reaching s (CompositeLit h type Elts) s' es Hstep Hid).
  - exact (foldM_reaching _ _ (visitResult_marking U) visitResult_reaching
             s Results s' es Hstep Hid).
Qed.

End Reached.

Lemma schedule_fold (U : Universe) (files : list File) (entries : list Entry) :
  existsb (fun file => HasSuffix (Filename file) ".pb.go") files = false →
  schedule U files = Some (tt, entries) →
  ∃ s, foldM (visit U noteAssignment noteCompositeLiteral) ∅ (visited files) = Some (s, entries).
Proof.
  intros Hgen. unfold schedule, runWith, scan. rewrite Hgen.
  intros (s & w1 & w2 & Hfold & [= <-] & ->)%bind_Some.
  exists s. by rewrite app_nil_r.
Qed.

(** C8. [run] makes the calls of its schedule, in which no composite
    literal is handed to [checkCompositeLiteral] twice; and a literal of
    a response type that is the result of a return statement, and so is
    met both through the statement and as a node of its own, is handed
    over (so: exactly once), provided its identity is its own. *)
Theorem composite_literal_is_validated_once
    (TypeString : Type_ -> string) (pass : Pass) (fuel : nat) :
  ∃ entries,
    schedule (TypeDecls pass) (Files pass) = Some (tt, entries)
    ∧ run TypeString pass fuel
      = forM_ entries
          (perform (checkAssignment TypeString pass fuel)
                   (checkCompositeLiteral TypeString pass fuel))
    ∧ NoDup (validated entries)
    ∧ ∀ h results c litType,
        existsb (fun file => HasSuffix (Filename file) ".pb.go") (Files pass)
          = false →
        ReturnStmt h results ∈ visited (Files pass) →
        c ∈ results →
        asComposite c = [c] →
        TypeOf c = Some litType →
        isResponseMessage (TypeDecls pass) litType = true →
        (∀ c', c' ∈ entryComposites (visited (Files pass)) →
               nid (info c') = nid (info c) → c' = c) →
        nid (info c) ∈ validated entries.
Proof.
  destruct (runWith_scheduled (TypeDecls pass)
              (checkAssignment TypeString pass fuel)
              (checkCompositeLiteral TypeString pass fuel) (Files pass))
    as (entries & Hsched & Hrun).
  exists entries. split; [exact Hsched|]. split; [exact Hrun|].
  destruct (existsb (fun file => HasSuffix (Filename file) ".pb.go") (Files pass))
    eqn:Hgen.
  { unfold schedule, runWith in Hsched. rewrite Hgen in Hsched.
    injection Hsched as <-. split; [constructor|]. discriminate. }
  destruct (schedule_fold _ _ _ Hgen Hsched) as (s & Hfold).
  split.
  { exact (proj1 (proj2 (foldM_marking _ (visit_marking (TypeDecls pass))
                           _ _ _ _ Hfold))). }
  intros h results c litType _ Hret Hres Hcomp Htype Hroot Hid.
  destruct (foldM_reaching (TypeDecls pass) c litType Hcomp Htype Hroot
              compositesAt _ (visit_marking (TypeDecls pass))
              (visit_reaching (TypeDecls pass) c litType Hcomp Htype Hroot)
              _ _ _ _ Hfold Hid) as (Hhit & Hlog).
  apply Hlog; [|set_solver].
  apply Hhit. apply list_elem_of_In, in_flat_map.
  exists (ReturnStmt h results). split; [by apply list_elem_of_In|].
  simpl. apply in_flat_map. exists c. split; [by apply list_elem_of_In|].
  rewrite Hcomp. by left.
Qed.

(** [return examplev1.UserResponse{LastLogin: timestamppb.Now()}]: the
    literal is a result of the return statement and the node after it;
    it is handed over once. *)
Lemma composite_literal_is_validated_once_witness :
  ∃ entries,
    schedule universe [BadResponse.byValue] = Some (tt, entries)
    ∧ NoDup (validated entries)
    ∧ nid (info (lit 631 tUserResponse BadResponse.elts)) ∈ validated entries.
Proof.
  destruct (composite_literal_is_validated_once typeString
              (passOf [BadResponse.byValue]) 1)
    as (entries & Hsched & _ & Hnodup & Honce).
  exists entries. split; [exact Hsched|]. split; [exact Hnodup|].
  apply (Honce (plain 630) [lit 631 tUserResponse BadResponse.elts]
           (lit 631 tUserResponse BadResponse.elts) tUserResponse).
  - vm_compute; reflexivity.
  - apply list_elem_of_In. vm_compute. left. reflexivity.
  - apply list_elem_of_In. left. reflexivity.
  - reflexivity.
  - reflexivity.
  - vm_compute; reflexivity.
  - intros c' Hc' _. apply list_elem_of_In in Hc'. vm_compute in Hc'.
    destruct Hc' as [<-|[<-|[]]]; reflexivity.
Defined.

(** *** Collections are never required *)

Lemma bind_ext {W A B} (m : M W A) (k1 k2 : A -> M W B) :
  (∀ a, k1 a = k2 a) → bind m k1 = bind m k2.
Proof.
  intros Hk. destruct m as [[a w]|]; [|reflexivity]. simpl. by rewrite Hk.
Qed.

Lemma foldM_app {W A S} (body : S -> A -> M W S) (s : S) (l1 l2 : list A) :
  foldM body s (l1 ++ l2) = (s1 <- foldM body s l1 ;; foldM body s1 l2).
Proof.
  revert s. induction l1 as [|x l1 IH]; intros s.
  - change (foldM body s l2 = bind (ret s) (fun s1 => foldM body s1 l2)).
    by rewrite bind_ret_l.
  - change (bind (body s x) (fun s' => foldM body s' (l1 ++ l2))
            = bind (bind (body s x) (fun s' => foldM body s' l1))
                   (fun s1 => foldM body s1 l2)).
    rewrite bind_assoc. apply bind_ext. intros s'. apply IH.
Qed.

Lemma forM__ext {W A} (l : list A) (b1 b2 : A -> M W unit) :
  (∀ x, x ∈ l → b1 x = b2 x) → forM_ l b1 = forM_ l b2.
Proof.
  induction l as [|x l IH]; intros Hb; [reflexivity|].
  simpl. rewrite (Hb x) by (by left).
  apply bind_ext. intros _. apply IH. intros y Hy. apply Hb. by right.
Qed.

Lemma foldM_additive {W A} (body : gset string -> A -> M W (gset string))
    (s : gset string) (l : list A) :
  additive body →
  foldM body s l = match foldM body ∅ l with
                   | Some (k, w) => Some (k ∪ s, w)
                   | None => None
                   end.
Proof.
  intros Hadd. revert s. induction l as [|x l IH]; intros s.
  - simpl. unfold ret. f_equal. f_equal. set_solver.
  - simpl. rewrite (Hadd s x).
    destruct (body ∅ x) as [[k w]|]; [|reflexivity]. simpl.
    rewrite (IH (k ∪ s)), (IH k).
    destruct (foldM body ∅ l) as [[k' w']|]; [|reflexivity].
    f_equal. f_equal. set_solver.
Qed.

(** Dropping an element that only adds [name] to [initialized] changes
    nothing for a continuation that does not look at [name]. *)
Lemma foldM_drop {W A B} (body : gset string -> A -> M W (gset string))
    (K : gset string -> M W B) (name : string) (x : A) (before after : list A) :
  additive body →
  (∀ s, body s x = ret ({[name]} ∪ s)) →
  (∀ s, K ({[name]} ∪ s) = K s) →
  bind (foldM body ∅ (before ++ x :: after)) K
  = bind (foldM body ∅ (before ++ after)) K.
Proof.
  intros Hadd Hx HK.
  rewrite !foldM_app, !bind_assoc. apply bind_ext. intros s1.
  simpl. rewrite Hx, bind_ret_l.
  rewrite (foldM_additive body ({[name]} ∪ s1)), (foldM_additive body s1) by done.
  destruct (foldM body ∅ after) as [[k w]|]; [|reflexivity].
  simpl. replace (k ∪ ({[name]} ∪ s1)) with ({[name]} ∪ (k ∪ s1)) by set_solver.
  by rewrite HK.
Qed.

Lemma NoDup_names_inj (fields : list Var) (f1 f2 : Var) :
  NoDup (map Var_Name fields) → f1 ∈ fields → f2 ∈ fields →
  Var_Name f1 = Var_Name f2 → f1 = f2.
Proof.
  induction fields as [|f fields IH]; intros Hnd H1 H2 Heq.
  - inversion H1.
  - simpl in Hnd. apply NoDup_cons in Hnd as (Hnotin & Hnd).
    apply elem_of_cons in H1 as [->|H1]; apply elem_of_cons in H2 as [->|H2].
    + reflexivity.
    + exfalso. apply Hnotin. rewrite Heq. apply list_elem_of_fmap. by exists f2.
    + exfalso. apply Hnotin. rewrite <- Heq. apply list_elem_of_fmap. by exists f1.
    + by apply IH.
Qed.

Lemma findField_Some (fields : list Var) (name : string) (f : Var) :
  findField fields name = Some f → f ∈ fields ∧ Var_Name f = name.
Proof.
  unfold findField. intros (Hin & Heq)%find_some.
  split; [by apply list_elem_of_In|by apply String.eqb_eq].
Qed.

Lemma getMessageFields_spec (U : Universe) (structType : list Var) (f : Var) :
  f ∈ getMessageFields U structType ↔
  f ∈ structType ∧ Var_Exported f = true ∧ isMessageField U f = true
  ∧ isOptionalField f = false.
Proof.
  unfold getMessageFields. rewrite !list_elem_of_In, filter_In.
  rewrite !andb_true_iff, negb_true_iff. tauto.
Qed.

Lemma collection_not_message_field (U : Universe) (field : Var) :
  isCollection (Var_Type field) = true → isMessageField U field = false.
Proof.
  unfold isMessageField. by destruct (Var_Type field).
Qed.

(** No required field has the name of a collection-typed field. *)
Lemma findField_collection (U : Universe) (structType : list Var) (field : Var) :
  NoDup (map Var_Name structType) → field ∈ structType →
  isCollection (Var_Type field) = true →
  findField (getMessageFields U structType) (Var_Name field) = None.
Proof.
  intros Hnd Hin Hcoll.
  destruct (findField _ _) as [f|] eqn:Hfind; [|reflexivity].
  apply findField_Some in Hfind as (Hf & Hname).
  apply getMessageFields_spec in Hf as (Hf & _ & Hmsg & _).
  rewrite (NoDup_names_inj _ _ _ Hnd Hf Hin Hname) in Hmsg.
  by rewrite collection_not_message_field in Hmsg.
Qed.

Lemma reportMissing_other (messageFields : list Var) (name : string)
    (s : gset string) (report : Var -> M Diagnostic unit) :
  (∀ f, f ∈ messageFields → Var_Name f ≠ name) →
  reportMissing messageFields ({[name]} ∪ s) report
  = reportMissing messageFields s report.
Proof.
  intros Hother. unfold reportMissing. apply forM__ext. intros f Hf.
  specialize (Hother f Hf).
  destruct (decide (Var_Name f ∈ s)) as [Hin|Hnotin].
  - rewrite !bool_decide_eq_true_2; [done|done|set_solver].
  - rewrite !bool_decide_eq_false_2; [done|done|set_solver].
Qed.

Lemma getMessageFields_other (U : Universe) (structType : list Var) (field : Var) :
  NoDup (map Var_Name structType) → field ∈ structType →
  isCollection (Var_Type field) = true →
  ∀ f, f ∈ getMessageFields U structType → Var_Name f ≠ Var_Name field.
Proof.
  intros Hnd Hin Hcoll f Hf Hname.
  apply getMessageFields_spec in Hf as (Hf & _ & Hmsg & _).
  rewrite (NoDup_names_inj _ _ _ Hnd Hf Hin Hname) in Hmsg.
  by rewrite collection_not_message_field in Hmsg.
Qed.

Lemma additive_tail {W} (m : M W unit) (name : string) (s : gset string) :
  bind m (fun _ => ret ({[name]} ∪ s))
  = match bind m (fun _ => ret ({[name]} ∪ (∅ : gset string))) with
    | Some (k, w) => Some (k ∪ s, w)
    | None => None
    end.
Proof.
  destruct m as [[[] w]|]; [|reflexivity].
  simpl. f_equal. f_equal. set_solver.
Qed.

Lemma additive_ret {W} (k s : gset string) :
  k = k ∪ ∅ → (ret (k ∪ s) : M W (gset string))
  = match ret (k ∪ ∅) with Some (k', w) => Some (k' ∪ s, w) | None => None end.
Proof. intros _. simpl. unfold ret. f_equal. f_equal. set_solver. Qed.

Ltac additive_body :=
  let s := fresh "s" in let elt := fresh "elt" in let k := fresh "k" in
  intros s elt;
  destruct elt as [? | ? ? | ? ? ? | ? k ? | ? ? ? | ? ? ? | ? ? ? | ? ? ? ?
                  | ? ? | ? ? ? ? | ? ?];
  try (unfold ret; f_equal; f_equal; set_solver);
  destruct k as [? | ? ? | ? ? ? | ? ? ? | ? ? ? | ? ? ? | ? ? ? | ? ? ? ?
                | ? ? | ? ? ? ? | ? ?];
  try (unfold ret; f_equal; f_equal; set_solver);
  cbv zeta; destruct (findField _ _);
  [| unfold ret; f_equal; f_equal; set_solver];
  rewrite <- !bind_assoc; apply additive_tail.

Section Collections.
Context (TypeString : Type_ -> string) (pass : Pass).
Context (litType : Type_) (structType : list Var) (field : Var).
Context (Hstruct : getStructType (TypeDecls pass) litType = Some structType).
Context (Hnodup : NoDup (map Var_Name structType)).
Context (Hfield : field ∈ structType).
Context (Hcoll : isCollection (Var_Type field) = true).
Context (h : Info) (key : IdentT) (value : Node) (before after : list Node).
Context (Hkey : id_Name key = Var_Name field).

Lemma checkCompositeLiteral_collection (fuel : nat) (lit : Info) :
  checkCompositeLiteral TypeString pass fuel lit
    (before ++ KeyValueExpr h (Ident key) value :: after) litType
  = checkCompositeLiteral TypeString pass fuel lit (before ++ after) litType.
Proof using All.
  unfold checkCompositeLiteral. rewrite Hstruct.
  destruct (negb _); [reflexivity|].
  cbv zeta. destruct (_ =? 0)%nat; [reflexivity|].
  apply (foldM_drop _ _ (Var_Name field)).
  - additive_body.
  - intros s. simpl. rewrite Hkey.
    by rewrite (findField_collection _ _ _ Hnodup Hfield Hcoll).
  - intros s. apply reportMissing_other.
    by apply getMessageFields_other.
Qed.

Lemma validateCompositeLiteralMessage_collection (fuel : nat) (lit : Info)
    (fieldContext : string) :
  validateCompositeLiteralMessage TypeString pass fuel lit
    (before ++ KeyValueExpr h (Ident key) value :: after) litType fieldContext
  = validateCompositeLiteralMessage TypeString pass fuel lit (before ++ after)
      litType fieldContext.
Proof using All.
  destruct fuel as [|fuel]; [reflexivity|].
  simpl. rewrite Hstruct.
  cbv zeta. destruct (_ =? 0)%nat; [reflexivity|].
  apply (foldM_drop _ _ (Var_Name field)).
  - additive_body.
  - intros s. simpl. rewrite Hkey.
    by rewrite (findField_collection _ _ _ Hnodup Hfield Hcoll).
  - intros s. apply reportMissing_other.
    by apply getMessageFields_other.
Qed.

Lemma validateCompositeLiteralMessageAtUse_collection (fuel : nat) (lit : Info)
    (fieldContext : string) (reportPos : Pos) :
  validateCompositeLiteralMessageAtUse TypeString pass fuel lit
    (before ++ KeyValueExpr h (Ident key) value :: after) litType fieldContext
    reportPos
  = validateCompositeLiteralMessageAtUse TypeString pass fuel lit
      (before ++ after) litType fieldContext reportPos.
Proof using All.
  destruct fuel as [|fuel]; [reflexivity|].
  simpl. rewrite Hstruct.
  cbv zeta. destruct (_ =? 0)%nat; [reflexivity|].
  apply (foldM_drop _ _ (Var_Name field)).
  - additive_body.
  - intros s. simpl. rewrite Hkey.
    by rewrite (findField_collection _ _ _ Hnodup Hfield Hcoll).
  - intros s. apply reportMissing_other.
    by apply getMessageFields_other.
Qed.

End Collections.

Lemma checkAssignment_collection (TypeString : Type_ -> string) (pass : Pass)
    (fuel : nat) (h : Info) (x : Node) (sel : IdentT) (rhs : Node)
    (baseType : Type_) (field : Var) :
  TypeOf x = Some baseType →
  getFieldFromType (TypeDecls pass)
    (match baseType with Pointer e => e | _ => baseType end) (id_Name sel)
  = Some field →
  isCollection (Var_Type field) = true →
  checkAssignment TypeString pass fuel [SelectorExpr h x sel] [rhs]
  = Some (tt, []).
Proof.
  intros Htype Hget Hcoll. unfold checkAssignment. simpl.
  rewrite Htype. cbv zeta.
  destruct (negb (isResponseMessage _ _)); [reflexivity|].
  rewrite Hget, (collection_not_message_field _ _ Hcoll). reflexivity.
Qed.

(** C7. A field whose declared type is a slice, an array or a map is not
    a message field and is never among the required fields of a struct;
    an assignment to it reports nothing; and in a composite literal, at
    the top ([checkCompositeLiteral]) or at any depth (the two
    validators of nested literals, in any field context), the element
    that names it can be dropped, whatever its value, without changing
    what is reported. *)
Theorem collection_field_is_never_required
    (TypeString : Type_ -> string) (pass : Pass) (fuel : nat) (field : Var) :
  isCollection (Var_Type field) = true →
  isMessageField (TypeDecls pass) field = false
  ∧ (∀ structType, field ∉ getMessageFields (TypeDecls pass) structType)
  ∧ (∀ h x sel rhs baseType,
       TypeOf x = Some baseType →
       getFieldFromType (TypeDecls pass)
         (match baseType with Pointer e => e | _ => baseType end) (id_Name sel)
       = Some field →
       checkAssignment TypeString pass fuel [SelectorExpr h x sel] [rhs]
       = Some (tt, []))
  ∧ (∀ litType structType h key value before after lit,
       getStructType (TypeDecls pass) litType = Some structType →
       NoDup (map Var_Name structType) →
       field ∈ structType →
       id_Name key = Var_Name field →
       let elts := before ++ KeyValueExpr h (Ident key) value :: after in
       checkCompositeLiteral TypeString pass fuel lit elts litType
       = checkCompositeLiteral TypeString pass fuel lit (before ++ after) litType
       ∧ (∀ fieldContext,
            validateCompositeLiteralMessage TypeString pass fuel lit elts
              litType fieldContext
            = validateCompositeLiteralMessage TypeString pass fuel lit
                (before ++ after) litType fieldContext)
       ∧ (∀ fieldContext reportPos,
            validateCompositeLiteralMessageAtUse TypeString pass fuel lit elts
              litType fieldContext reportPos
            = validateCompositeLiteralMessageAtUse TypeString pass fuel lit
                (before ++ after) litType fieldContext reportPos)).
Proof.
  intros Hcoll. split; [by apply collection_not_message_field|].
  split.
  { intros structType (_ & _ & Hmsg & _)%getMessageFields_spec.
    by rewrite collection_not_message_field in Hmsg. }
  split.
  { intros h x sel rhs baseType Htype Hget.
    by eapply checkAssignment_collection. }
  intros litType structType h key value before after lit Hstruct Hnd Hin Hkey elts.
  split; [|split].
  - by eapply checkCompositeLiteral_collection.
  - intros fieldContext. by eapply validateCompositeLiteralMessage_collection.
  - intros fieldContext reportPos.
    by eapply validateCompositeLiteralMessageAtUse_collection.
Qed.

(** [examplev1.UserResponse{User: user(), RelatedUsers: nil}] is reported
    as [examplev1.UserResponse{User: user()}] is. *)
Lemma collection_field_is_never_required_witness :
  isMessageField universe WithCollection.relatedUsers = false
  ∧ checkCompositeLiteral typeString (passOf []) 1 (typed 910 tUserResponse)
      (WithCollection.given
       ++ KeyValueExpr (plain 917) (Ident WithCollection.key) (nil_ 918) :: [])
      tUserResponse
    = checkCompositeLiteral typeString (passOf []) 1 (typed 910 tUserResponse)
        (WithCollection.given ++ []) tUserResponse.
Proof.
  destruct (collection_field_is_never_required typeString (passOf []) 1
              WithCollection.relatedUsers eq_refl) as (Hscalar & _ & _ & Hdrop).
  split; [exact Hscalar|].
  apply (Hdrop tUserResponse
           (NewVar "sizeCache" (Basic "int32")
            :: [ NewVar "User" (Pointer tUser);
                 NewVar "LastLogin" (Pointer tTimestamp);
                 NewVar "RelatedUsers" (Slice (Pointer tUser)) ])).
  - vm_compute; reflexivity.
  - compute_done.
  - apply list_elem_of_In. simpl. right. right. right. left. reflexivity.
  - reflexivity.
Defined.

(** *** What the validators write *)

Lemma logs_ret {W A} (P : W -> Prop) (a : A) : logs P (ret a : M W A).
Proof. intros a' w [= <- <-]. constructor. Qed.

Lemma logs_None {W A} (P : W -> Prop) : logs P (None : M W A).
Proof. intros a w [=]. Qed.

Lemma logs_tell {W} (P : W -> Prop) (w : W) : P w → logs P (tell w).
Proof. intros Hw a w' [= <- <-]. by constructor. Qed.

Lemma logs_liftO {W A} (P : W -> Prop) (o : option A) : logs P (liftO o : M W A).
Proof. destruct o; intros a' w [= <- <-]. constructor. Qed.

Lemma logs_bind {W A B} (P : W -> Prop) (m : M W A) (k : A -> M W B) :
  logs P m → (∀ a, logs P (k a)) → logs P (bind m k).
Proof.
  intros Hm Hk b w (a & w1 & w2 & H1 & H2 & ->)%bind_Some.
  apply Forall_app. split; [by eapply Hm|by eapply Hk].
Qed.

Lemma logs_forM_ {W A} (P : W -> Prop) (l : list A) (body : A -> M W unit) :
  (∀ x, logs P (body x)) → logs P (forM_ l body).
Proof.
  intros Hbody. induction l as [|x l IH]; [apply logs_ret|].
  simpl. apply logs_bind; [apply Hbody|intros _; apply IH].
Qed.

Lemma logs_forRangeM_ {W A} (P : W -> Prop) (i : nat) (l : list A)
    (body : nat -> A -> M W unit) :
  (∀ i x, logs P (body i x)) → logs P (forRangeM_ i l body).
Proof.
  intros Hbody. revert i. induction l as [|x l IH]; intros i; [apply logs_ret|].
  simpl. apply logs_bind; [apply Hbody|intros _; apply IH].
Qed.

Lemma logs_foldM {W A S} (P : W -> Prop) (body : S -> A -> M W S) (s : S)
    (l : list A) :
  (∀ s x, logs P (body s x)) → logs P (foldM body s l).
Proof.
  intros Hbody. revert s. induction l as [|x l IH]; intros s; [apply logs_ret|].
  simpl. apply logs_bind; [apply Hbody|intros s'; apply IH].
Qed.

Lemma logs_reportMissing (P : Diagnostic -> Prop) (messageFields : list Var)
    (initialized : gset string) (report : Var -> M Diagnostic unit) :
  (∀ f, logs P (report f)) → logs P (reportMissing messageFields initialized report).
Proof.
  intros Hreport. apply logs_forM_. intros f.
  destruct (bool_decide _); [apply logs_ret|apply Hreport].
Qed.

Lemma logs_impl {W A} (P Q : W -> Prop) (m : M W A) :
  (∀ w, P w → Q w) → logs P m → logs Q m.
Proof. intros HPQ Hm a w Hw. eapply Forall_impl; [by eapply Hm|exact HPQ]. Qed.

Ltac nested_format := unfold nestedFormat; simpl; set_solver.

Section Formats.
Context (TypeString : Type_ -> string) (pass : Pass).

Lemma atUse_formats (fuel : nat) :
  (∀ lit elts litType ctx p,
     logs nestedFormat
       (validateCompositeLiteralMessageAtUse TypeString pass fuel lit elts
          litType ctx p))
  ∧ (∀ e exprType ctx p,
       logs nestedFormat
         (validateMessageValueAtPos TypeString pass fuel e exprType ctx p))
  ∧ (∀ i exprType ctx p,
       logs nestedFormat
         (validateVariableMessageAtPos TypeString pass fuel i exprType ctx p)).
Proof.
  induction fuel as [|fuel (IHlit & IHval & IHvar)].
  { repeat split; intros; apply logs_None. }
  split; [|split].
  - intros lit elts litType ctx p. simpl.
    destruct (getStructType _ _); [|apply logs_ret].
    cbv zeta. destruct (_ =? 0)%nat; [apply logs_ret|].
    apply logs_bind.
    + apply logs_foldM. intros s elt.
      destruct elt as [? | ? ? | ? ? ? | ? k ? | ? ? ? | ? ? ? | ? ? ? | ? ? ? ?
                      | ? ? | ? ? ? ? | ? ?]; try apply logs_ret.
      destruct k as [? | ? ? | ? ? ? | ? ? ? | ? ? ? | ? ? ? | ? ? ? | ? ? ? ?
                    | ? ? | ? ? ? ? | ? ?]; try apply logs_ret.
      cbv zeta. destruct (findField _ _); [|apply logs_ret].
      apply logs_bind; [apply logs_liftO|]. intros [|].
      * apply logs_bind; [|intros; apply logs_ret].
        apply logs_tell. nested_format.
      * apply logs_bind; [|intros; apply logs_ret].
        destruct (TypeOf _); [|apply logs_ret].
        destruct (isProtobufMessageType _ _); [apply IHval|apply logs_ret].
    + intros initialized. apply logs_reportMissing. intros f.
      apply logs_tell. nested_format.
  - intros e exprType ctx p. simpl.
    destruct e as [? | ? ? | ? ? ? | ? ? ? | ? ? ? | ? op ? | ? ? ? | ? ? ? ?
                  | ? ? | ? ? ? ? | ? ?]; try apply logs_ret.
    + apply IHvar.
    + apply IHlit.
    + destruct op; try apply logs_ret. apply IHval.
  - intros i exprType ctx p. simpl.
    destruct (ObjectOf i); [|apply logs_ret].
    destruct (findValueSpec _ _); [|apply logs_ret].
    destruct (Spec_Values _) as [|v vs].
    + destruct (isPointer _); [|apply logs_ret].
      apply logs_tell. nested_format.
    + apply logs_forRangeM_. intros idx name.
      destruct (declares _ _); [|apply logs_ret].
      destruct (_ !! idx) as [value|]; [|apply logs_ret].
      destruct value as [? | ? ? | ? ? ? | ? ? ? | ? ? ? | ? op x | ? ? ? | ? ? ? ?
                        | ? ? | ? ? ? ? | ? ?]; try apply logs_ret.
      * apply IHlit.
      * destruct op; try apply logs_ret.
        destruct x as [? | ? ? | ? ? ? | ? ? ? | ? ? ? | ? ? ? | ? ? ? | ? ? ? ?
                      | ? ? | ? ? ? ? | ? ?]; try apply logs_ret.
        destruct (TypeOf _); [apply IHlit|apply logs_ret].
Qed.

Lemma handleValidation_formats (fuel : nat) value exprType ctx p :
  logs nestedFormat (handleValidation TypeString pass fuel value exprType ctx p).
Proof.
  destruct (atUse_formats fuel) as (IHlit & _ & _).
  unfold handleValidation.
  destruct value as [? | ? ? | ? ? ? | ? ? ? | ? ? ? | ? op x | ? ? ? | ? ? ? ?
                    | ? ? | ? ? ? ? | ? ?]; try apply logs_ret.
  - destruct (TypeOf _); [apply IHlit|apply logs_ret].
  - destruct op; try apply logs_ret.
    destruct x as [? | ? ? | ? ? ? | ? ? ? | ? ? ? | ? ? ? | ? ? ? | ? ? ? ?
                  | ? ? | ? ? ? ? | ? ?]; try apply logs_ret.
    destruct (TypeOf _); [apply IHlit|apply logs_ret].
Qed.

Lemma validateVariableMessage_formats (fuel : nat) ident exprType ctx :
  logs nestedFormat (validateVariableMessage TypeString pass fuel ident exprType ctx).
Proof.
  unfold validateVariableMessage.
  destruct (ObjectOf ident) as [obj|]; [|apply logs_ret].
  destruct (findDeclaration _ _) as [decl declAssign].
  assert (Hspec : ∀ m : M Diagnostic unit,
            m = match decl with
                | Some decl0 =>
                  match Spec_Values decl0 with
                  | [] =>
                    if isPointer exprType
                    then Reportf (pos (id_Info ident)) fmtZeroValue
                           [id_Name ident; ctx]
                    else ret ()
                  | v :: vs =>
                    forRangeM_ 0 (Spec_Names decl0)
                      (λ (i : nat) (name : IdentT),
                         if declares obj name
                         then
                          match (v :: vs) !! i with
                          | Some value =>
                              handleValidation TypeString pass fuel value
                                exprType ctx (pos (id_Info ident))
                          | None => ret ()
                          end
                         else ret ())
                  end
                | None => ret ()
                end → logs nestedFormat m).
  { intros m ->. destruct decl as [decl|]; [|apply logs_ret].
    destruct (Spec_Values decl) as [|v vs] eqn:Hvalues.
    - destruct (isPointer _); [|apply logs_ret]. apply logs_tell. nested_format.
    - apply logs_forRangeM_. intros idx name.
      destruct (declares _ _); [|apply logs_ret].
      destruct (_ !! idx); [apply handleValidation_formats|apply logs_ret]. }
  destruct declAssign as [assign|]; [|by apply Hspec].
  destruct (firstIndex _ _ _) as [idx|]; [|by apply Hspec].
  destruct (_ !! idx); [apply handleValidation_formats|apply logs_ret].
Qed.

Lemma validateMessageValue_formats (fuel : nat) :
  (∀ e exprType ctx,
     logs nestedFormat (validateMessageValue TypeString pass fuel e exprType ctx))
  ∧ (∀ lit elts litType ctx,
       logs nestedFormat
         (validateCompositeLiteralMessage TypeString pass fuel lit elts litType ctx)).
Proof.
  induction fuel as [|fuel (IHval & IHlit)].
  { split; intros; apply logs_None. }
  split.
  - intros e exprType ctx. simpl.
    destruct e as [? | ? ? | ? ? ? | ? ? ? | ? ? ? | ? op ? | ? ? ? | ? ? ? ?
                  | ? ? | ? ? ? ? | ? ?]; try apply logs_ret.
    + apply validateVariableMessage_formats.
    + apply IHlit.
    + destruct op; try apply logs_ret. apply IHval.
  - intros lit elts litType ctx. simpl.
    destruct (getStructType _ _); [|apply logs_ret].
    cbv zeta. destruct (_ =? 0)%nat; [apply logs_ret|].
    apply logs_bind.
    + apply logs_foldM. intros s elt.
      destruct elt as [? | ? ? | ? ? ? | ? k ? | ? ? ? | ? ? ? | ? ? ? | ? ? ? ?
                      | ? ? | ? ? ? ? | ? ?]; try apply logs_ret.
      destruct k as [? | ? ? | ? ? ? | ? ? ? | ? ? ? | ? ? ? | ? ? ? | ? ? ? ?
                    | ? ? | ? ? ? ? | ? ?]; try apply logs_ret.
      cbv zeta. destruct (findField _ _); [|apply logs_ret].
      apply logs_bind; [apply logs_liftO|]. intros [|].
      * apply logs_bind; [|intros; apply logs_ret].
        apply logs_tell. nested_format.
      * apply logs_bind; [|intros; apply logs_ret].
        destruct (TypeOf _); [|apply logs_ret].
        destruct (isProtobufMessageType _ _); [apply IHval|apply logs_ret].
    + intros initialized. apply logs_reportMissing. intros f.
      apply logs_tell. nested_format.
Qed.

End Formats.

(** *** The two loops of [checkCompositeLiteral] *)







(** *** Enough fuel *)

Lemma eventually_and (P Q : nat -> Prop) :
  eventually P → eventually Q → eventually (fun fuel => P fuel ∧ Q fuel).
Proof.
  intros (N1 & H1) (N2 & H2). exists (N1 `max` N2).
  intros fuel Hfuel. split; [apply H1|apply H2]; lia.
Qed.

Lemma eventually_impl (P Q : nat -> Prop) :
  (∀ fuel, P fuel → Q fuel) → eventually P → eventually Q.
Proof. intros HPQ (N & HP). exists N. intros fuel Hfuel. by apply HPQ, HP. Qed.

(** One more unit of fuel for one more call. *)
Lemma eventually_step (P Q : nat -> Prop) :
  (∀ fuel, P fuel → Q (S fuel)) → eventually P → eventually Q.
Proof.
  intros HPQ (N & HP). exists (S N). intros [|fuel] Hfuel; [lia|].
  apply HPQ, HP. lia.
Qed.

Lemma eventually_always (P : nat -> Prop) :
  (∀ fuel, P (S fuel)) → eventually P.
Proof. intros HP. exists 1. intros [|fuel] Hfuel; [lia|apply HP]. Qed.

Lemma eventually_Forall {A} (P : nat -> A -> Prop) (l : list A) :
  Forall (fun x => eventually (fun fuel => P fuel x)) l →
  eventually (fun fuel => Forall (P fuel) l).
Proof.
  induction 1 as [|x l Hx _ IH].
  - exists 0. intros; constructor.
  - destruct (eventually_and _ _ Hx IH) as (N & HN).
    exists N. intros fuel Hfuel. constructor; by apply HN.
Qed.

Lemma anyNil_answers (isNil : Node -> option bool) (values : list Node) :
  Forall (fun v => ∃ b, isNil v = Some b) values →
  ∃ b, anyNil isNil values = Some b.
Proof.
  induction 1 as [|v values (b & Hb) _ (b' & IH)]; [by exists false|].
  simpl. rewrite Hb. destruct b; [by exists true|by exists b'].
Qed.

Lemma foldM_returns {W A S} (body : S -> A -> M W S) (s : S) (l : list A) :
  Forall (fun x => ∀ s, ∃ s' w, body s x = Some (s', w)) l →
  ∃ s' w, foldM body s l = Some (s', w).
Proof.
  intros Hl. revert s. induction Hl as [|x l Hx _ IH]; intros s.
  - by exists s, [].
  - destruct (Hx s) as (s1 & w1 & H1). destruct (IH s1) as (s2 & w2 & H2).
    exists s2, (w1 ++ w2). simpl. by rewrite H1; simpl; rewrite H2.
Qed.

Lemma forM__returns {W A} (l : list A) (body : A -> M W unit) :
  Forall (fun x => ∃ w, body x = Some (tt, w)) l →
  ∃ w, forM_ l body = Some (tt, w).
Proof.
  induction 1 as [|x l (w1 & H1) _ (w2 & IH)]; [by exists []|].
  exists (w1 ++ w2). simpl. by rewrite H1; simpl; rewrite IH.
Qed.

Lemma forRangeM__returns {W A} (i : nat) (l : list A)
    (body : nat -> A -> M W unit) :
  (∀ i x, ∃ w, body i x = Some (tt, w)) →
  ∃ w, forRangeM_ i l body = Some (tt, w).
Proof.
  intros Hbody. revert i. induction l as [|x l IH]; intros i; [by exists []|].
  destruct (Hbody i x) as (w1 & H1). destruct (IH (S i)) as (w2 & H2).
  exists (w1 ++ w2). simpl. by rewrite H1; simpl; rewrite H2.
Qed.

Lemma reportMissing_returns (messageFields : list Var) (initialized : gset string)
    (report : Var -> Diagnostic) :
  ∃ w, reportMissing messageFields initialized (fun f => tell (report f))
       = Some (tt, w).
Proof.
  apply forM__returns. apply Forall_forall. intros f _.
  destruct (bool_decide _); [by exists []|by eexists].
Qed.

Lemma bind_returns {W A B} (m : M W A) (k : A -> M W B) :
  (∃ a w, m = Some (a, w)) → (∀ a, ∃ b w, k a = Some (b, w)) →
  ∃ b w, bind m k = Some (b, w).
Proof.
  intros (a & w1 & ->) Hk. destruct (Hk a) as (b & w2 & H2).
  exists b, (w1 ++ w2). simpl. by rewrite H2.
Qed.

Section Totality.
Context (TypeString : Type_ -> string) (pass : Pass).

Local Abbreviation oracleR := (oracleReturns pass).
Local Abbreviation atPosR := (atPosReturns TypeString pass).
Local Abbreviation atUseR := (atUseReturns TypeString pass).
Local Abbreviation variableR := (variableReturns TypeString pass).

Lemma atUse_step (fuel : nat) (elts : list Node) :
  Forall (onValue (fun v => oracleR fuel v ∧ atPosR fuel v)) elts →
  atUseR (S fuel) elts.
Proof.
  intros Helts lit litType ctx p. simpl.
  destruct (getStructType _ _); [|by eexists].
  cbv zeta. destruct (_ =? 0)%nat; [by eexists|].
  match goal with
  | |- ∃ w, bind ?m ?k = Some (tt, w) =>
      destruct (bind_returns m k) as ([] & w & Hw); [| |by exists w]
  end.
  - apply foldM_returns. eapply Forall_impl; [exact Helts|].
    intros elt Helt s.
    destruct elt as [? | ? ? | ? ? ? | ? k ? | ? ? ? | ? ? ? | ? ? ? | ? ? ? ?
                    | ? ? | ? ? ? ? | ? ?]; try by eexists _, _.
    destruct k as [? | ? ? | ? ? ? | ? ? ? | ? ? ? | ? ? ? | ? ? ? | ? ? ? ?
                  | ? ? | ? ? ? ? | ? ?]; try by eexists _, _.
    cbv zeta. destruct (findField _ _); [|by eexists _, _].
    destruct Helt as ((b & Hb) & Hpos). rewrite Hb. simpl.
    destruct b; [by eexists _, _|].
    destruct (TypeOf _) as [valueType|]; [|by eexists _, _].
    destruct (isProtobufMessageType _ _); [|by eexists _, _].
    destruct (Hpos valueType (ctx ++ "." ++ id_Name i)%string p) as (w & ->).
    by eexists _, _.
  - intros initialized. destruct (reportMissing_returns
      (getMessageFields (TypeDecls pass) l) initialized
      (fun field => {| d_Pos := p; d_Format := fmtNotInitAtUse;
                       d_Args := [ctx; Var_Name field; TypeString litType] |}))
      as (w & Hw).
    exists tt, w. exact Hw.
Qed.

Lemma size_elem (x : Node) (l : list Node) :
  x ∈ l → (size x ≤ list_sum (map size l))%nat.
Proof.
  induction 1 as [x l|x y l _ IH]; simpl; lia.
Qed.

Lemma Forall_flat_map_elem {A B} (P : B -> Prop) (g : A -> list B) (l : list A)
    (x : A) :
  Forall P (flat_map g l) → x ∈ l → Forall P (g x).
Proof.
  intros Hall Hx. apply Forall_forall. intros y Hy.
  rewrite Forall_forall in Hall. apply Hall.
  apply list_elem_of_In, in_flat_map. exists x.
  split; by apply list_elem_of_In.
Qed.

(** The oracle and the at-use validator return on an expression once the
    variables that can be followed from it are dealt with. *)
Lemma expression_returns (n : nat) (e : Node) :
  (size e < n)%nat →
  Forall (fun obj => eventually (fun fuel => variableR fuel obj)) (traced e) →
  eventually (fun fuel => oracleR fuel e ∧ atPosR fuel e).
Proof.
  revert e. induction n as [|n IH]; intros e Hsize Hvars; [lia|].
  destruct e as [i | h v | h type elts | h k v | h fn args | h op x | h x sel
                | h lhs tok rhs | h results | h names ty values | h children];
    try (apply eventually_always; intros fuel; split;
         [by eexists|intros ? ? ?; by eexists]).
  - (* an identifier *)
    simpl in Hvars. destruct (ObjectOf i) as [obj|] eqn:Hobj.
    + apply Forall_cons in Hvars as (Hobj' & _).
      eapply eventually_step; [|exact Hobj'].
      intros fuel Hfuel. destruct (Hfuel i Hobj) as ((b & Hb) & Hpos).
      split.
      * unfold oracleReturns. simpl. destruct (String.eqb _ _); [by eexists|].
        rewrite Hb. destruct b; by eexists.
      * intros exprType ctx p. simpl. apply Hpos.
    + apply eventually_step with (P := fun fuel => (1 ≤ fuel)%nat);
        [|by exists 1].
      intros [|fuel] Hfuel; [lia|]. split.
      * unfold oracleReturns. simpl. destruct (String.eqb _ _); [by eexists|].
        rewrite Hobj. by eexists.
      * intros exprType ctx p. simpl. rewrite Hobj. by eexists.
  - (* a composite literal *)
    assert (Helts : eventually (fun fuel =>
              Forall (onValue (fun v => oracleR fuel v ∧ atPosR fuel v)) elts)).
    { apply eventually_Forall. apply Forall_forall. intros elt Helt.
      destruct elt as [? | ? ? | ? ? ? | ? k value | ? ? ? | ? ? ? | ? ? ? | ? ? ? ?
                      | ? ? | ? ? ? ? | ? ?]; try by exists 0.
      destruct k as [? | ? ? | ? ? ? | ? ? ? | ? ? ? | ? ? ? | ? ? ? | ? ? ? ?
                    | ? ? | ? ? ? ? | ? ?]; try by exists 0.
      simpl. apply IH.
      - pose proof (size_elem _ _ Helt) as Hle. simpl in Hle, Hsize. lia.
      - simpl in Hvars.
        exact (Forall_flat_map_elem _ _ _ _ Hvars Helt). }
    apply (eventually_step (fun fuel => atUseR fuel elts));
      [|apply (eventually_step _ (fun fuel => atUseR fuel elts)
                 (fun fuel => atUse_step fuel elts) Helts)].
    intros fuel Hfuel. split; [by eexists|].
    intros exprType ctx p. simpl. apply Hfuel.
  - (* a call *)
    apply eventually_always. intros fuel. split.
    + unfold oracleReturns. rewrite isNilValue_call. by eexists.
    + intros ? ? ?. by eexists.
  - (* a unary expression *)
    destruct op; try (apply eventually_always; intros fuel; split;
                      [by eexists|intros ? ? ?; by eexists]).
    eapply eventually_step; [|apply (IH x); [simpl in Hsize; lia|exact Hvars]].
    intros fuel (Hnil & Hpos). split.
    + exact Hnil.
    + intros exprType ctx p. simpl. apply Hpos.
Qed.

Context (rank : Object -> nat) (Hranked : ranked pass rank).

(** The oracle and the at-use validator return on every variable. *)
Lemma variable_returns_below (r : nat) (obj : Object) :
  (rank obj < r)%nat → eventually (fun fuel => variableR fuel obj).
Proof using Hranked.
  revert obj. induction r as [|r IH]; intros obj Hrank; [lia|].
  destruct (findValueSpec obj (Files pass)) as [decl|] eqn:Hdecl.
  2:{ apply eventually_always. intros fuel ident Hobj. split.
      - simpl. rewrite Hobj, Hdecl.
        destruct (hasConstantValue ident); by eexists.
      - intros exprType ctx p. simpl. rewrite Hobj, Hdecl. by eexists. }
  assert (Hvalues : eventually (fun fuel =>
            Forall (fun v => oracleR fuel v ∧ atPosR fuel v) (Spec_Values decl))).
  { apply eventually_Forall. apply Forall_forall. intros v Hv.
    apply (expression_returns (S (size v))); [lia|].
    apply Forall_forall. intros obj' Hobj'. apply IH.
    pose proof (Hranked obj decl v obj' Hdecl Hv Hobj'). lia. }
  destruct Hvalues as (N & HN). exists (S N).
  intros [|fuel] Hfuel; [lia|]. intros ident Hobj.
  pose proof (HN fuel ltac:(lia)) as H0.
  pose proof (HN (S fuel) ltac:(lia)) as H1.
  pose proof (HN (S (S fuel)) ltac:(lia)) as H2.
  split.
  - simpl. rewrite Hobj, Hdecl.
    assert (Hgo : ∃ b, match Spec_Values decl with
                       | [] => match otype obj with
                               | Pointer _ => Some true
                               | Interface => Some true
                               | _ => Some false
                               end
                       | v :: vs => anyNil (isNilValue pass fuel) (v :: vs)
                       end = Some b);
      [|destruct (hasConstantValue ident); [by eexists|exact Hgo]].
    destruct (Spec_Values decl) as [|v vs] eqn:Hvs.
    + destruct (otype obj); by eexists.
    + apply anyNil_answers. eapply Forall_impl; [exact H0|]. by intros ? [? _].
  - intros exprType ctx p. simpl. rewrite Hobj, Hdecl.
    destruct (Spec_Values decl) as [|v vs] eqn:Hvs.
    + destruct (isPointer _); by eexists.
    + apply forRangeM__returns. intros idx name.
      destruct (declares _ _); [|by eexists].
      destruct ((v :: vs) !! idx) as [value|] eqn:Hvalue; [|by eexists].
      apply list_elem_of_lookup_2 in Hvalue.
      rewrite Forall_forall in H1, H2.
      destruct value as [? | ? ? | h type elts | ? ? ? | ? ? ? | h op x | ? ? ?
                        | ? ? ? ? | ? ? | ? ? ? ? | ? ?]; try by eexists.
      * destruct (H1 _ Hvalue) as (_ & Hpos). apply (Hpos exprType ctx p).
      * destruct op; try by eexists.
        destruct x as [? | ? ? | h' type elts | ? ? ? | ? ? ? | ? ? ? | ? ? ?
                      | ? ? ? ? | ? ? | ? ? ? ? | ? ?]; try by eexists.
        destruct (TypeOf _) as [compType|]; [|by eexists].
        destruct (H2 _ Hvalue) as (_ & Hpos). apply (Hpos compType ctx p).
Qed.

Lemma variable_returns (obj : Object) :
  eventually (fun fuel => variableR fuel obj).
Proof using Hranked. apply (variable_returns_below (S (rank obj))). lia. Qed.

Lemma oracle_and_atPos_return (e : Node) :
  eventually (fun fuel => oracleR fuel e ∧ atPosR fuel e).
Proof using Hranked.
  apply (expression_returns (S (size e))); [lia|].
  apply Forall_forall. intros obj _. apply variable_returns.
Qed.

Lemma handleValidation_returns (value : Node) :
  eventually (fun fuel => handledReturns TypeString pass fuel value).
Proof using Hranked.
  destruct (oracle_and_atPos_return value) as (N & HN). exists N.
  intros fuel Hfuel exprType ctx p. unfold handleValidation.
  destruct value as [? | ? ? | h type elts | ? ? ? | ? ? ? | h op x | ? ? ?
                    | ? ? ? ? | ? ? | ? ? ? ? | ? ?]; try by eexists.
  - destruct (TypeOf _) as [compType|]; [|by eexists].
    destruct (HN (S fuel) ltac:(lia)) as (_ & Hpos). apply (Hpos compType ctx p).
  - destruct op; try by eexists.
    destruct x as [? | ? ? | h' type elts | ? ? ? | ? ? ? | ? ? ? | ? ? ?
                  | ? ? ? ? | ? ? | ? ? ? ? | ? ?]; try by eexists.
    destruct (TypeOf _) as [compType|]; [|by eexists].
    destruct (HN (S (S fuel)) ltac:(lia)) as (_ & Hpos).
    apply (Hpos compType ctx p).
Qed.

Lemma validateVariableMessage_returns (ident : IdentT) :
  eventually (fun fuel => variableValueReturns TypeString pass fuel ident).
Proof using Hranked.
  unfold variableValueReturns, validateVariableMessage.
  destruct (ObjectOf ident) as [obj|]; [|exists 0; intros; by eexists].
  destruct (findDeclaration obj (Files pass)) as [decl declAssign].
  assert (Hvalues : eventually (fun fuel =>
            Forall (handledReturns TypeString pass fuel)
              (match decl with Some d => Spec_Values d | None => [] end
               ++ match declAssign with Some a => Assign_Rhs a | None => [] end))).
  { apply eventually_Forall. apply Forall_forall. intros v _.
    apply handleValidation_returns. }
  destruct Hvalues as (N & HN). exists N. intros fuel Hfuel exprType ctx.
  specialize (HN fuel Hfuel). apply Forall_app in HN as (Hspec & Hassign).
  assert (Hfrom : ∀ m : M Diagnostic unit,
            m = match decl with
                | Some decl0 =>
                  match Spec_Values decl0 with
                  | [] =>
                    if isPointer exprType
                    then Reportf (pos (id_Info ident)) fmtZeroValue
                           [id_Name ident; ctx]
                    else ret ()
                  | v :: vs =>
                    forRangeM_ 0 (Spec_Names decl0)
                      (λ (i : nat) (name : IdentT),
                         if declares obj name
                         then
                          match (v :: vs) !! i with
                          | Some value =>
                              handleValidation TypeString pass fuel value
                                exprType ctx (pos (id_Info ident))
                          | None => ret ()
                          end
                         else ret ())
                  end
                | None => ret ()
                end → ∃ w, m = Some (tt, w)).
  { intros m ->. destruct decl as [decl|]; [|by eexists].
    destruct (Spec_Values decl) as [|v vs] eqn:Hvs.
    - destruct (isPointer _); by eexists.
    - apply forRangeM__returns. intros idx name.
      destruct (declares _ _); [|by eexists].
      destruct ((v :: vs) !! idx) as [value|] eqn:Hvalue; [|by eexists].
      apply list_elem_of_lookup_2 in Hvalue.
      rewrite Forall_forall in Hspec. apply (Hspec _ Hvalue). }
  destruct declAssign as [assign|]; [|by apply Hfrom].
  destruct (firstIndex _ _ _) as [idx|]; [|by apply Hfrom].
  destruct (Assign_Rhs assign !! idx) as [value|] eqn:Hvalue; [|by eexists].
  apply list_elem_of_lookup_2 in Hvalue.
  rewrite Forall_forall in Hassign. apply (Hassign _ Hvalue).
Qed.

Local Abbreviation valueR := (valueReturns TypeString pass).
Local Abbreviation literalR := (literalReturns TypeString pass).

Lemma literal_step (fuel : nat) (elts : list Node) :
  Forall (onValue (fun v => oracleR fuel v ∧ valueR fuel v)) elts →
  literalR (S fuel) elts.
Proof.
  intros Helts lit litType ctx. simpl.
  destruct (getStructType _ _); [|by eexists].
  cbv zeta. destruct (_ =? 0)%nat; [by eexists|].
  match goal with
  | |- ∃ w, bind ?m ?k = Some (tt, w) =>
      destruct (bind_returns m k) as ([] & w & Hw); [| |by exists w]
  end.
  - apply foldM_returns. eapply Forall_impl; [exact Helts|].
    intros elt Helt s.
    destruct elt as [? | ? ? | ? ? ? | ? k ? | ? ? ? | ? ? ? | ? ? ? | ? ? ? ?
                    | ? ? | ? ? ? ? | ? ?]; try by eexists _, _.
    destruct k as [? | ? ? | ? ? ? | ? ? ? | ? ? ? | ? ? ? | ? ? ? | ? ? ? ?
                  | ? ? | ? ? ? ? | ? ?]; try by eexists _, _.
    cbv zeta. destruct (findField _ _); [|by eexists _, _].
    destruct Helt as ((b & Hb) & Hval). rewrite Hb. simpl.
    destruct b; [by eexists _, _|].
    destruct (TypeOf _) as [valueType|]; [|by eexists _, _].
    destruct (isProtobufMessageType _ _); [|by eexists _, _].
    destruct (Hval valueType (ctx ++ "." ++ id_Name i)%string) as (w & ->).
    by eexists _, _.
  - intros initialized. destruct (reportMissing_returns
      (getMessageFields (TypeDecls pass) l) initialized
      (fun field => {| d_Pos := pos lit; d_Format := fmtNotInitIn;
                       d_Args := [ctx; Var_Name field; TypeString litType] |}))
      as (w & Hw).
    exists tt, w. exact Hw.
Qed.

Lemma value_returns_below (n : nat) (e : Node) :
  (size e < n)%nat → eventually (fun fuel => valueR fuel e).
Proof using Hranked.
  revert e. induction n as [|n IH]; intros e Hsize; [lia|].
  destruct e as [i | h v | h type elts | h k v | h fn args | h op x | h x sel
                | h lhs tok rhs | h results | h names ty values | h children];
    try (apply eventually_always; intros fuel ? ?; by eexists).
  - eapply eventually_step; [|apply (validateVariableMessage_returns i)].
    intros fuel Hfuel exprType ctx. simpl. apply Hfuel.
  - assert (Helts : eventually (fun fuel =>
              Forall (onValue (fun v => oracleR fuel v ∧ valueR fuel v)) elts)).
    { apply eventually_Forall. apply Forall_forall. intros elt Helt.
      destruct elt as [? | ? ? | ? ? ? | ? k value | ? ? ? | ? ? ? | ? ? ? | ? ? ? ?
                      | ? ? | ? ? ? ? | ? ?]; try by exists 0.
      destruct k as [? | ? ? | ? ? ? | ? ? ? | ? ? ? | ? ? ? | ? ? ? | ? ? ? ?
                    | ? ? | ? ? ? ? | ? ?]; try by exists 0.
      simpl. apply eventually_and.
      - eapply eventually_impl; [|apply (oracle_and_atPos_return value)].
        by intros ? [? _].
      - apply IH. pose proof (size_elem _ _ Helt) as Hle.
        simpl in Hle, Hsize. lia. }
    apply (eventually_step (fun fuel => literalR fuel elts));
      [|apply (eventually_step _ (fun fuel => literalR fuel elts)
                 (fun fuel => literal_step fuel elts) Helts)].
    intros fuel Hfuel exprType ctx. simpl. apply Hfuel.
  - destruct op; try (apply eventually_always; intros fuel ? ?; by eexists).
    eapply eventually_step; [|apply (IH x); simpl in Hsize; lia].
    intros fuel Hval exprType ctx. simpl. apply Hval.
Qed.

Lemma value_returns (e : Node) :
  eventually (fun fuel => oracleR fuel e ∧ valueR fuel e).
Proof using Hranked.
  apply eventually_and.
  - eapply eventually_impl; [|apply (oracle_and_atPos_return e)]. by intros ? [? _].
  - apply (value_returns_below (S (size e))). lia.
Qed.

(** With ranked declarations [checkCompositeLiteral] returns. *)
Lemma checkCompositeLiteral_returns (lit : Info) (elts : list Node)
    (litType : Type_) :
  eventually (fun fuel => ∃ w,
    checkCompositeLiteral TypeString pass fuel lit elts litType = Some (tt, w)).
Proof using Hranked.
  assert (Helts : eventually (fun fuel =>
            Forall (onValue (fun v => oracleR fuel v ∧ valueR fuel v)) elts)).
  { apply eventually_Forall. apply Forall_forall. intros elt _.
    destruct elt as [? | ? ? | ? ? ? | ? k value | ? ? ? | ? ? ? | ? ? ? | ? ? ? ?
                    | ? ? | ? ? ? ? | ? ?]; try by exists 0.
    destruct k as [? | ? ? | ? ? ? | ? ? ? | ? ? ? | ? ? ? | ? ? ? | ? ? ? ?
                  | ? ? | ? ? ? ? | ? ?]; try by exists 0.
    apply value_returns. }
  eapply eventually_impl; [|exact Helts].
  intros fuel Hfuel. unfold checkCompositeLiteral.
  destruct (negb _); [by eexists|].
  destruct (getStructType _ _); [|by eexists].
  cbv zeta. destruct (_ =? 0)%nat; [by eexists|].
  match goal with
  | |- ∃ w, bind ?m ?k = Some (tt, w) =>
      destruct (bind_returns m k) as ([] & w & Hw); [| |by exists w]
  end.
  - apply foldM_returns. eapply Forall_impl; [exact Hfuel|].
    intros elt Helt s.
    destruct elt as [? | ? ? | ? ? ? | ? k ? | ? ? ? | ? ? ? | ? ? ? | ? ? ? ?
                    | ? ? | ? ? ? ? | ? ?]; try by eexists _, _.
    destruct k as [? | ? ? | ? ? ? | ? ? ? | ? ? ? | ? ? ? | ? ? ? | ? ? ? ?
                  | ? ? | ? ? ? ? | ? ?]; try by eexists _, _.
    cbv zeta. destruct (findField _ _); [|by eexists _, _].
    destruct Helt as ((b & Hb) & Hval). rewrite Hb. simpl.
    destruct b; [by eexists _, _|].
    destruct (TypeOf _) as [valueType|]; [|by eexists _, _].
    destruct (isProtobufMessageType _ _); [|by eexists _, _].
    destruct (Hval valueType (id_Name i)) as (w & ->).
    by eexists _, _.
  - intros initialized. destruct (reportMissing_returns
      (getMessageFields (TypeDecls pass) l) initialized
      (fun field => {| d_Pos := pos lit; d_Format := fmtNotInit;
                       d_Args := [Var_Name field; TypeString litType] |}))
      as (w & Hw).
    exists tt, w. exact Hw.
Qed.

End Totality.

Section RunReturns.
Context (TypeString : Type_ -> string) (pass : Pass).
Context (rank : Object -> nat) (Hranked : ranked pass rank).

Lemma checkAssignment_returns (lhs rhs : list Node) :
  eventually (fun fuel => ∃ w,
    checkAssignment TypeString pass fuel lhs rhs = Some (tt, w)).
Proof using Hranked.
  assert (Hrhs : eventually (fun fuel =>
            Forall (fun r => oracleReturns pass fuel r
                             ∧ valueReturns TypeString pass fuel r) rhs)).
  { apply eventually_Forall. apply Forall_forall. intros r _.
    by eapply value_returns. }
  eapply eventually_impl; [|exact Hrhs].
  intros fuel Hfuel. unfold checkAssignment. apply forM__returns.
  apply Forall_forall. intros [l r] Hin.
  apply elem_of_zip_r in Hin. rewrite Forall_forall in Hfuel.
  destruct (Hfuel r Hin) as ((b & Hb) & Hval).
  destruct l as [? | ? ? | ? ? ? | ? ? ? | ? ? ? | ? ? ? | ? x sel | ? ? ? ?
                | ? ? | ? ? ? ? | ? ?]; try by eexists.
  destruct (TypeOf x) as [baseType|]; [|by eexists].
  cbv zeta. destruct (negb _); [by eexists|].
  destruct (getFieldFromType _ _ _); [|by eexists].
  destruct (negb _); [by eexists|].
  destruct (isOptionalField _); [by eexists|].
  rewrite Hb. simpl. destruct b; [by eexists|].
  destruct (TypeOf r) as [rhsType|]; [|by eexists].
  destruct (isProtobufMessageType _ _); [|by eexists].
  destruct (Hval rhsType (id_Name sel)) as (w & ->). by eexists.
Qed.

(** With ranked declarations the whole run returns. *)
Lemma run_returns :
  eventually (fun fuel => ∃ w, run TypeString pass fuel = Some (tt, w)).
Proof using Hranked.
  destruct (runWith_scheduled (TypeDecls pass) noteAssignment
              noteCompositeLiteral (Files pass)) as (entries & Hsched & _).
  assert (Hentries : eventually (fun fuel =>
            Forall (fun e => ∃ w,
              perform (checkAssignment TypeString pass fuel)
                      (checkCompositeLiteral TypeString pass fuel) e
              = Some (tt, w)) entries)).
  { apply eventually_Forall. apply Forall_forall. intros [lhs rhs|lit elts t] _.
    - apply checkAssignment_returns.
    - by eapply checkCompositeLiteral_returns. }
  eapply eventually_impl; [|exact Hentries].
  intros fuel Hfuel.
  destruct (runWith_scheduled (TypeDecls pass)
              (checkAssignment TypeString pass fuel)
              (checkCompositeLiteral TypeString pass fuel) (Files pass))
    as (entries' & Hsched' & Hrun).
  rewrite Hsched in Hsched'. injection Hsched' as <-.
  unfold run. rewrite Hrun. by apply forM__returns.
Qed.

End RunReturns.

(** *** Required fields that no element names *)


(** In the unit of [Ranked], [user] is declared from [addr] and [addr]
    from no variable. *)
Lemma Ranked_is_ranked : ranked Ranked.pass Ranked.rank.
Proof.
  intros [o k nm t] decl value obj' Hdecl Hvalue Hobj'.
  cbv -[Pos.eqb] in Hdecl.
  destruct (Pos.eqb_spec 61 o) as [<-|_];
    [|destruct (Pos.eqb_spec 60 o) as [<-|_]; [|discriminate Hdecl]];
    injection Hdecl as <-;
    apply list_elem_of_In in Hvalue; simpl in Hvalue;
    destruct Hvalue as [<-|[]];
    apply list_elem_of_In in Hobj'; simpl in Hobj'.
  - destruct Hobj' as [<-|[]]. vm_compute. lia.
  - destruct Hobj'.
Defined.


(** *** Declarations that are not ranked *)

Lemma anyNil_None (isNil : Node -> option bool) (before after : list Node)
    (self : Node) :
  Forall (fun v => isNil v ≠ Some true) before →
  isNil self = None →
  anyNil isNil (before ++ self :: after) = None.
Proof.
  intros Hbefore Hself. induction Hbefore as [|v before Hv _ IH]; simpl.
  - by rewrite Hself.
  - destruct (isNil v) as [[|]|]; [done|exact IH|reflexivity].
Qed.

(** The address of a composite literal is never nil for the oracle. *)
Lemma isNilValue_address_of_literal (pass : Pass) (fuel : nat) (h h' : Info)
    (type : option Node) (elts : list Node) :
  isNilValue pass fuel (UnaryExpr h AND (CompositeLit h' type elts)) ≠ Some true.
Proof. destruct fuel as [|[|fuel]]; discriminate. Qed.

Lemma isNilVariable_values (pass : Pass) (fuel : nat) (ident : IdentT)
    (obj : Object) (decl : Node) :
  ObjectOf ident = Some obj →
  hasConstantValue ident = false →
  findValueSpec obj (Files pass) = Some decl →
  Spec_Values decl ≠ [] →
  isNilVariable pass (S fuel) ident
  = anyNil (isNilValue pass fuel) (Spec_Values decl).
Proof.
  intros Hobj Hconst Hdecl Hvalues.
  change (isNilVariable pass (S fuel) ident)
    with (match ObjectOf ident with
          | None => Some false
          | Some obj =>
            if hasConstantValue ident then Some false
            else
              match findValueSpec obj (Files pass) with
              | None => Some false
              | Some decl =>
                match Spec_Values decl with
                | [] =>
                  match otype obj with
                  | Pointer _ => Some true
                  | Interface => Some true
                  | _ => Some false
                  end
                | v :: vs => anyNil (isNilValue pass fuel) (v :: vs)
                end
              end
          end).
  rewrite Hobj, Hconst, Hdecl. by destruct (Spec_Values decl).
Qed.

(** If the values of a [var] declaration contain one of the declared
    variables, after values that the oracle does not find nil, then the
    oracle returns for no amount of fuel on any variable of that
    declaration. *)
Lemma oracle_never_returns (pass : Pass) (decl : Node) (self : IdentT)
    (obj : Object) (before after : list Node) :
  findValueSpec obj (Files pass) = Some decl →
  Spec_Values decl = before ++ Ident self :: after →
  ObjectOf self = Some obj →
  id_Name self ≠ "nil" →
  hasConstantValue self = false →
  Forall (fun v => ∀ fuel, isNilValue pass fuel v ≠ Some true) before →
  ∀ fuel ident obj',
    ObjectOf ident = Some obj' →
    findValueSpec obj' (Files pass) = Some decl →
    id_Name ident ≠ "nil" →
    hasConstantValue ident = false →
    isNilValue pass fuel (Ident ident) = None.
Proof.
  intros Hdecl Hvalues Hself Hname Hconst Hbefore fuel.
  induction fuel as [fuel IH] using lt_wf_ind.
  intros ident obj' Hobj' Hdecl' Hname' Hconst'.
  destruct fuel as [|[|fuel]]; [reflexivity| |].
  - simpl. apply String.eqb_neq in Hname'. by rewrite Hname'.
  - assert (Hvar : isNilVariable pass (S fuel) ident = None).
    { rewrite (isNilVariable_values pass fuel ident obj' decl)
        by (try done; rewrite Hvalues; by destruct before).
      rewrite Hvalues. apply anyNil_None.
      - eapply Forall_impl; [exact Hbefore|]. intros v' Hv'. apply Hv'.
      - apply (IH fuel ltac:(lia) self obj Hself Hdecl Hname Hconst). }
    change (isNilValue pass (S (S fuel)) (Ident ident))
      with (if isNilIdent (Ident ident) then Some true
            else match isNilVariable pass (S fuel) ident with
                 | None => None
                 | Some true => Some true
                 | Some false => Some false
                 end).
    rewrite Hvar. simpl. apply String.eqb_neq in Hname'. by rewrite Hname'.
Qed.

Lemma anyNil_not_true (isNil : Node -> option bool) (values : list Node) :
  Forall (fun v => isNil v ≠ Some true) values →
  anyNil isNil values ≠ Some true.
Proof.
  induction 1 as [|v values Hv _ IH]; [discriminate|].
  simpl. by destruct (isNil v) as [[|]|].
Qed.

(** A variable declared with values none of which the oracle finds nil
    is not nil for the oracle. *)
Lemma isNilValue_variable_not_true (pass : Pass) (ident : IdentT)
    (obj : Object) (decl : Node) :
  ObjectOf ident = Some obj →
  id_Name ident ≠ "nil" →
  hasConstantValue ident = false →
  findValueSpec obj (Files pass) = Some decl →
  Spec_Values decl ≠ [] →
  Forall (fun v => ∀ fuel, isNilValue pass fuel v ≠ Some true)
    (Spec_Values decl) →
  ∀ fuel, isNilValue pass fuel (Ident ident) ≠ Some true.
Proof.
  intros Hobj Hname Hconst Hdecl Hne Hvalues fuel.
  apply String.eqb_neq in Hname.
  destruct fuel as [|[|fuel]]; [discriminate| |].
  - simpl. by rewrite Hname.
  - change (isNilValue pass (S (S fuel)) (Ident ident))
      with (if isNilIdent (Ident ident) then Some true
            else match isNilVariable pass (S fuel) ident with
                 | None => None
                 | Some true => Some true
                 | Some false => Some false
                 end).
    simpl isNilIdent. rewrite Hname.
    rewrite (isNilVariable_values pass fuel ident obj decl) by done.
    pose proof (anyNil_not_true (isNilValue pass fuel) (Spec_Values decl)) as Hany.
    destruct (anyNil _ _) as [[|]|]; try discriminate.
    exfalso. apply Hany; [|reflexivity].
    eapply Forall_impl; [exact Hvalues|]. intros v Hv. apply Hv.
Qed.

(** The at-use validator does not return if the oracle does not return
    on the value of the first element, when that element names a
    required field. *)
Lemma atUse_None (TypeString : Type_ -> string) (pass : Pass) (fuel : nat)
    (lit h : Info) (key : IdentT) (value : Node) (rest : list Node)
    (litType : Type_) (ctx : string) (p : Pos) (structType : list Var)
    (f : Var) :
  getStructType (TypeDecls pass) litType = Some structType →
  findField (getMessageFields (TypeDecls pass) structType) (id_Name key)
    = Some f →
  isNilValue pass fuel value = None →
  validateCompositeLiteralMessageAtUse TypeString pass (S fuel) lit
    (KeyValueExpr h (Ident key) value :: rest) litType ctx p = None.
Proof.
  intros Hstruct Hfind Hnil. simpl. rewrite Hstruct.
  destruct (getMessageFields _ _) as [|g fields] eqn:Hfields; [discriminate|].
  simpl length. simpl Nat.eqb. cbv iota zeta.
  rewrite Hfind, Hnil. reflexivity.
Qed.

(** A variable declared alone, with the address of a composite literal:
    [validateVariableMessage] hands the literal to the at-use validator. *)
Lemma validateVariableMessage_literal (TypeString : Type_ -> string)
    (pass : Pass) (fuel : nat) (ident name : IdentT) (obj : Object)
    (decl : Node) (h h' : Info) (type : option Node) (elts : list Node)
    (compType exprType : Type_) (ctx : string) :
  ObjectOf ident = Some obj →
  findDeclaration obj (Files pass) = (Some decl, None) →
  Spec_Names decl = [name] →
  Spec_Values decl = [UnaryExpr h AND (CompositeLit h' type elts)] →
  declares obj name = true →
  TypeOf (CompositeLit h' type elts) = Some compType →
  validateVariableMessage TypeString pass fuel ident exprType ctx
  = (validateCompositeLiteralMessageAtUse TypeString pass fuel h' elts
       compType ctx (pos (id_Info ident)) ;; ret tt).
Proof.
  intros Hobj Hdecl Hnames Hvalues Hdeclares Htype.
  unfold validateVariableMessage. rewrite Hobj, Hdecl. cbv iota zeta beta.
  rewrite Hvalues, Hnames. simpl forRangeM_. rewrite Hdeclares.
  simpl lookup. unfold handleValidation. rewrite Htype. reflexivity.
Qed.

(** An assignment to a required field of a response is checked by the
    oracle and, if the oracle says no, by [validateMessageValue]. *)
Lemma checkAssignment_required (TypeString : Type_ -> string) (pass : Pass)
    (fuel : nat) (h : Info) (x : Node) (sel : IdentT) (rhs : Node)
    (baseType rhsType : Type_) (field : Var) :
  TypeOf x = Some baseType →
  isResponseMessage (TypeDecls pass)
    (match baseType with Pointer e => e | _ => baseType end) = true →
  getFieldFromType (TypeDecls pass)
    (match baseType with Pointer e => e | _ => baseType end) (id_Name sel)
  = Some field →
  isMessageField (TypeDecls pass) field = true →
  isOptionalField field = false →
  TypeOf rhs = Some rhsType →
  isProtobufMessageType (TypeDecls pass) rhsType = true →
  isNilValue pass fuel rhs ≠ Some true →
  validateMessageValue TypeString pass fuel rhs rhsType (id_Name sel) = None →
  checkAssignment TypeString pass fuel [SelectorExpr h x sel] [rhs] = None.
Proof.
  intros Hx Hroot Hfield Hmsg Hopt Hrhs Hproto Hnil Hval.
  unfold checkAssignment. simpl zip. simpl forM_.
  rewrite Hx. cbv zeta. rewrite Hroot, Hfield, Hmsg, Hopt. simpl negb. cbv iota.
  destruct (isNilValue pass fuel rhs) as [[|]|]; [done| |reflexivity].
  simpl. rewrite Hrhs, Hproto, Hval. reflexivity.
Qed.

Lemma Together_oracle_never_returns (fuel : nat) (n : positive) :
  isNilValue Together.pass fuel (use n Together.b) = None.
Proof.
  eapply (oracle_never_returns Together.pass
            (ValueSpec (plain 401) [def 402 Together.a; def 403 Together.b] None
               [ ref 404 tAddress [kv 406 "Location" (ref 407 tLocation [])];
                 use 409 Together.a ])
            {| id_Info := typed 409 (Pointer tAddress); id_Name := "a";
               id_Obj := Some Together.a |}
            Together.a
            [ref 404 tAddress [kv 406 "Location" (ref 407 tLocation [])]] []);
    try (vm_compute; reflexivity); try discriminate.
  constructor; [|constructor]. intros fuel'. apply isNilValue_address_of_literal.
Qed.

Lemma Together_atUse_never_returns (fuel : nat) :
  validateCompositeLiteralMessageAtUse typeString Together.pass fuel
    (typed 414 tUser) Together.userElts tUser "User" 435%Z = None.
Proof.
  destruct fuel as [|fuel]; [reflexivity|].
  eapply (atUse_None typeString Together.pass fuel).
  - vm_compute; reflexivity.
  - vm_compute; reflexivity.
  - apply Together_oracle_never_returns.
Qed.

Lemma Together_value_never_returns (fuel : nat) :
  validateMessageValue typeString Together.pass fuel
    (use 435 Together.user) (Pointer tUser) "User" = None.
Proof.
  destruct fuel as [|fuel]; [reflexivity|].
  change (validateVariableMessage typeString Together.pass fuel
            {| id_Info := typed 435 (Pointer tUser); id_Name := "user";
               id_Obj := Some Together.user |} (Pointer tUser) "User" = None).
  erewrite validateVariableMessage_literal;
    [|reflexivity|vm_compute; reflexivity|reflexivity|reflexivity
     |reflexivity|reflexivity].
  change (bind (validateCompositeLiteralMessageAtUse typeString Together.pass
                  fuel (typed 414 tUser) Together.userElts tUser "User" 435%Z)
               (fun _ => ret tt) = None).
  by rewrite (Together_atUse_never_returns fuel).
Qed.

Lemma Together_run_never_returns (fuel : nat) :
  run typeString Together.pass fuel = None.
Proof.
  destruct (runWith_scheduled universe
              (checkAssignment typeString Together.pass fuel)
              (checkCompositeLiteral typeString Together.pass fuel)
              (Files Together.pass)) as (entries & Hsched & Hrun).
  vm_compute in Hsched. injection Hsched as <-.
  unfold run. change (TypeDecls Together.pass) with universe.
  rewrite Hrun. simpl forM_. unfold perform.
  erewrite (checkAssignment_required typeString Together.pass fuel);
    [reflexivity|reflexivity|vm_compute; reflexivity|vm_compute; reflexivity
    |vm_compute; reflexivity|reflexivity|reflexivity|vm_compute; reflexivity
    | |].
  - eapply (isNilValue_variable_not_true Together.pass);
      [reflexivity|discriminate|reflexivity|vm_compute; reflexivity
      |discriminate|].
    constructor; [|constructor]. intros fuel'.
    apply isNilValue_address_of_literal.
  - apply Together_value_never_returns.
Qed.

(** No ranking fits the unit of [Together]: [a] would rank below itself. *)
Lemma Together_is_not_ranked (rank : Object -> nat) :
  ¬ ranked Together.pass rank.
Proof.
  intros Hranked.
  pose proof (Hranked Together.a
    (ValueSpec (plain 401) [def 402 Together.a; def 403 Together.b] None
       [ ref 404 tAddress [kv 406 "Location" (ref 407 tLocation [])];
         use 409 Together.a ])
    (use 409 Together.a) Together.a) as Hlt.
  assert (rank Together.a < rank Together.a)%nat; [|lia].
  apply Hlt.
  - vm_compute; reflexivity.
  - apply list_elem_of_In. simpl. right. left. reflexivity.
  - apply list_elem_of_In. simpl. left. reflexivity.
Qed.

(** C6, at [var a, b = &examplev1.Address{...}, a],
    [var user = &examplev1.User{Address: b, ...}] and
    [response.User = user]: the unit is legal ([b] depends on [a], [a]
    on nothing), and yet for no amount of fuel does the oracle return on
    [b], the at-use validator on the literal of [user], or the run on the
    unit: [isNilVariable] asks about every value of the declaration of
    [a], among them [a] itself. *)
Theorem validation_never_returns_on_joint_declaration :
  (∀ fuel, isNilValue Together.pass fuel (use 417 Together.b) = None)
  ∧ (∀ fuel,
       validateCompositeLiteralMessageAtUse typeString Together.pass fuel
         (typed 414 tUser) Together.userElts tUser "User" 435%Z = None)
  ∧ (∀ fuel, run typeString Together.pass fuel = None).
Proof.
  split; [|split]; intros fuel.
  - apply Together_oracle_never_returns.
  - apply Together_atUse_never_returns.
  - apply Together_run_never_returns.
Qed.
(* ===================================================================== *)
(** ** More properties: the classifier, the searches, the validators     *)
(* ===================================================================== *)

(** *** Strings *)

Lemma prefix_spec (a b : string) :
  String.prefix a b = true ↔ ∃ q, b = a +:+ q.
Proof.
  revert b. induction a as [|c a IH]; intros b.
  - split; [intros _; by exists b | by destruct b].
  - destruct b as [|c' b].
    + split; [done | intros [q Hq]; discriminate].
    + change (String.prefix (String c a) (String c' b))
        with (if Ascii.ascii_dec c c' then String.prefix a b else false).
      destruct (Ascii.ascii_dec c c') as [->|Hne].
      * rewrite IH. split; intros [q Hq]; exists q; [by rewrite Hq | by injection Hq].
      * split; [done | intros [q Hq]; injection Hq; congruence].
Qed.

Lemma Contains_spec (s substr : string) :
  Contains s substr = true ↔ ∃ p q, s = p +:+ substr +:+ q.
Proof.
  induction s as [|c s IH].
  - change (Contains "" substr) with (String.prefix substr "" || false).
    rewrite orb_false_r, prefix_spec. split.
    + intros [q Hq]. by exists "", q.
    + intros (p & q & Hpq). destruct p; [by exists q | discriminate].
  - change (Contains (String c s) substr)
      with (String.prefix substr (String c s) || Contains s substr).
    rewrite orb_true_iff, prefix_spec, IH. split.
    + intros [[q Hq] | (p & q & Hpq)].
      * by exists "", q.
      * exists (String c p), q. simpl. by rewrite Hpq.
    + intros (p & q & Hpq). destruct p as [|c' p].
      * left. by exists q.
      * right. exists p, q. simpl in Hpq. by injection Hpq.
Qed.

Lemma append_cons (c : ascii) (a b : string) :
  String c a +:+ b = String c (a +:+ b).
Proof. reflexivity. Qed.

Lemma substring_all (s : string) : String.substring 0 (String.length s) s = s.
Proof. induction s as [|c s IH]; simpl; [done | by rewrite IH]. Qed.

Lemma substring_app_r (p s : string) :
  String.substring (String.length p) (String.length s) (p +:+ s) = s.
Proof. induction p as [|c p IH]; simpl; [apply substring_all | done]. Qed.

Lemma substring_split (s : string) (n : nat) :
  (n ≤ String.length s)%nat →
  s = String.substring 0 n s +:+ String.substring n (String.length s - n) s.
Proof.
  revert n. induction s as [|c s IH]; intros n Hn; simpl in *.
  - by destruct n.
  - destruct n as [|n]; simpl.
    + simpl. by rewrite substring_all.
    + rewrite append_cons. f_equal. apply IH. lia.
Qed.

Lemma length_append (a b : string) :
  String.length (a +:+ b) = (String.length a + String.length b)%nat.
Proof. induction a; [done | rewrite append_cons; simpl; by f_equal]. Qed.

Lemma HasSuffix_spec (s suffix : string) :
  HasSuffix s suffix = true ↔ ∃ p, s = p +:+ suffix.
Proof.
  unfold HasSuffix. rewrite andb_true_iff, Nat.leb_le, String.eqb_eq. split.
  - intros [Hlen Hsub].
    exists (String.substring 0 (String.length s - String.length suffix) s).
    pose proof (substring_split s (String.length s - String.length suffix)
                  ltac:(lia)) as H.
    replace (String.length s - (String.length s - String.length suffix))%nat
      with (String.length suffix) in H by lia.
    by rewrite Hsub in H.
  - intros [p ->]. rewrite length_append. split; [lia|].
    replace (String.length p + String.length suffix - String.length suffix)%nat
      with (String.length p) by lia.
    apply substring_app_r.
Qed.

(** *** The classifier *)

Lemma deref_named (t : Type_) (id : TypeId) :
  match t with Pointer e => e | _ => t end = Named id ↔
  t = Named id ∨ t = Pointer (Named id).
Proof.
  destruct t; split; intros H; try discriminate; try (destruct H; discriminate);
    try (destruct H as [H|H]; by inversion H); subst; auto.
Qed.

(** X1. A type is a response message exactly when it is a named type, or
    a pointer to one, that has a [ProtoMessage()] method and whose name
    ends in "Response", "Reply" or "Result"; [shouldCheckType] is the
    same test. *)
Theorem response_message_is_recognised_by_name (U : Universe) (t : Type_) :
  shouldCheckType U t = isResponseMessage U t
  ∧ (isResponseMessage U t = true ↔
     ∃ id obj stem ending,
       (t = Named id ∨ t = Pointer (Named id))
       ∧ hasProtoMessageMethod U id = true
       ∧ Named_Obj U id = Some obj
       ∧ ending ∈ ["Response"; "Reply"; "Result"]
       ∧ tn_Name obj = stem +:+ ending).
Proof.
  split; [reflexivity|]. unfold isResponseMessage. split.
  - destruct (match t with Pointer e => e | _ => t end) as [| | | | | | | |id] eqn:Ht;
      try discriminate.
    apply deref_named in Ht.
    destruct (hasProtoMessageMethod U id) eqn:Hm; [|discriminate]. simpl.
    destruct (Named_Obj U id) as [obj|] eqn:Hobj; [|discriminate].
    destruct (HasSuffix (tn_Name obj) "Response") eqn:H1.
    { apply HasSuffix_spec in H1 as [stem H1]. intros _.
      exists id, obj, stem, "Response". repeat split; try done. set_solver. }
    destruct (HasSuffix (tn_Name obj) "Reply") eqn:H2.
    { apply HasSuffix_spec in H2 as [stem H2]. intros _.
      exists id, obj, stem, "Reply". repeat split; try done. set_solver. }
    destruct (HasSuffix (tn_Name obj) "Result") eqn:H3; [|discriminate].
    apply HasSuffix_spec in H3 as [stem H3]. intros _.
    exists id, obj, stem, "Result". repeat split; try done. set_solver.
  - intros (id & obj & stem & ending & Ht & Hm & Hobj & Hend & Hname).
    apply deref_named in Ht. rewrite Ht, Hm, Hobj. simpl.
    assert (Hs : HasSuffix (tn_Name obj) ending = true).
    { apply HasSuffix_spec. by exists stem. }
    repeat (apply elem_of_cons in Hend as [->|Hend]; [rewrite Hs; by repeat case_match|]).
    by apply elem_of_nil in Hend.
Qed.

Lemma scalarWrappers_true (name : string) (b : bool) :
  scalarWrappers !! name = Some b → b = true.
Proof.
  unfold scalarWrappers. intros H%elem_of_list_to_map_2.
  repeat (apply elem_of_cons in H as [[= _ <-]|H]; [done|]).
  by apply elem_of_nil in H.
Qed.

Lemma scalarWrappers_default (name : string) :
  default false (scalarWrappers !! name) = bool_decide (name ∈ dom scalarWrappers).
Proof.
  destruct (scalarWrappers !! name) as [b|] eqn:H; simpl.
  - rewrite (scalarWrappers_true _ _ H). symmetry. apply bool_decide_eq_true.
    apply elem_of_dom. by eexists.
  - symmetry. apply bool_decide_eq_false. by apply not_elem_of_dom.
Qed.

(** X2. A field counts as a message field exactly when its type is a
    named type, or a pointer to one, that has a [ProtoMessage()] method
    and an object, and that either is a well-known type or is not named
    like one of the registered scalar wrappers. *)
Theorem message_field_is_wellknown_or_not_a_wrapper (U : Universe) (field : Var) :
  isMessageField U field = true ↔
  ∃ id obj,
    (Var_Type field = Named id ∨ Var_Type field = Pointer (Named id))
    ∧ isProtobufMessageType U (Var_Type field) = true
    ∧ Named_Obj U id = Some obj
    ∧ (isWellKnownType U (Var_Type field) = true
       ∨ tn_Name obj ∉ dom scalarWrappers).
Proof.
  unfold isMessageField, isProtobufMessageType, isWellKnownType, pkgPathContains.
  split.
  - intros H.
    assert (∃ id, Var_Type field = Named id ∨ Var_Type field = Pointer (Named id))
      as [id Ht].
    { destruct (Var_Type field) as [| e | | | | | | |id]; try discriminate;
        [destruct e; try discriminate|]; eauto. }
    exists id.
    destruct Ht as [Ht|Ht]; rewrite Ht in H |- *; simpl in H |- *;
      (destruct (hasProtoMessageMethod U id); [|discriminate]);
      (destruct (Named_Obj U id) as [obj|]; [|discriminate]);
      exists obj; (repeat split; auto);
      rewrite scalarWrappers_default in H;
      (destruct (tn_Pkg obj) as [pkg|];
       [destruct (Contains (Path pkg) _); [by left|];
        destruct (Contains (Path pkg) _); [by left|] |]);
      right; by destruct (bool_decide_reflect (tn_Name obj ∈ dom scalarWrappers)).
  - intros (id & obj & Ht & Hm & Hobj & Hkind).
    destruct Ht as [Ht|Ht]; rewrite Ht in Hm, Hkind |- *; simpl in Hm, Hkind |- *;
      rewrite Hm, Hobj; rewrite Hobj in Hkind; simpl;
      rewrite scalarWrappers_default;
      (destruct (tn_Pkg obj) as [pkg|];
       [destruct (Contains (Path pkg) _); [done|];
        destruct (Contains (Path pkg) _); [done|] |]);
      (destruct Hkind as [Hkind|Hkind]; [discriminate|]);
      by rewrite bool_decide_eq_false_2.
Qed.

Lemma message_field_is_not_optional (U : Universe) (field : Var) :
  isMessageField U field = true → isOptionalField field = false.
Proof.
  unfold isMessageField, isOptionalField.
  destruct (Var_Type field) as [| e | | | | | | |]; try done.
  by destruct e.
Qed.


(** X4. [getFieldFromType] returns the first field of the struct that has
    the name asked for, and nothing when no field has it or when the type
    is not a struct. *)
Theorem field_lookup_returns_first_field_of_that_name
    (U : Universe) (t : Type_) (fieldName : string) :
  match getFieldFromType U t fieldName with
  | Some field =>
      ∃ before after,
        getStructType U t = Some (before ++ field :: after)
        ∧ Var_Name field = fieldName
        ∧ fieldName ∉ map Var_Name before
  | None =>
      ∀ fields, getStructType U t = Some fields →
        fieldName ∉ map Var_Name fields
  end.
Proof.
  unfold getFieldFromType.
  destruct (getStructType U t) as [fields|]; [|done].
  assert (H : match List.find (fun field => String.eqb (Var_Name field) fieldName) fields with
              | Some field =>
                  ∃ before after, fields = before ++ field :: after
                    ∧ Var_Name field = fieldName
                    ∧ fieldName ∉ map Var_Name before
              | None => fieldName ∉ map Var_Name fields
              end).
  { induction fields as [|f fields IH]; simpl.
    - apply not_elem_of_nil.
    - destruct (String.eqb_spec (Var_Name f) fieldName) as [Heq|Hne].
      + exists [], fields. split; [done|]. split; [done|]. apply not_elem_of_nil.
      + destruct (List.find _ fields) as [field|].
        * destruct IH as (before & after & -> & Hname & Hnot).
          exists (f :: before), after. split; [done|]. split; [done|].
          simpl. rewrite not_elem_of_cons. split; [congruence | done].
        * rewrite not_elem_of_cons. split; [congruence | done]. }
  destruct (List.find _ fields) as [field|].
  - destruct H as (before & after & -> & Hname & Hnot). by exists before, after.
  - by intros ? [= <-].
Qed.



(** *** The traversal *)

Lemma Inspect_children {S : Type} (f : S -> Node -> S * bool) (s : S) (n : Node) :
  Inspect f s n
  = let '(s', descend) := f s n in
    if descend then fold_left (Inspect f) (children n) s' else s'.
Proof.
  assert (Hmany : ∀ ns s,
    (fix many (s : S) (ns : list Node) : S :=
       match ns with
       | [] => s
       | m :: ms => many (Inspect f s m) ms
       end) s ns = fold_left (Inspect f) ns s).
  { induction ns as [|m ms IH]; intros s0; [done | apply IH]. }
  assert (Hleaves : ∀ ids s,
    fold_left (fun s i => fst (f s (Ident i))) ids s
    = fold_left (Inspect f) (map Ident ids) s).
  { induction ids as [|i ids IH]; intros s0; [done|]. simpl. rewrite IH.
    f_equal. destruct (f s0 (Ident i)) as [s1 []]; reflexivity. }
  destruct n as [i | h v | h type Elts | h k v | h fn args | h op x | h x sel
                | h lhs tok rhs | h Results | h names ty values | h cs];
    simpl; destruct (f s _) as [s' []]; try reflexivity.
  - rewrite Hmany, fold_left_app. by destruct type.
  - by rewrite Hmany.
  - simpl. by destruct (f _ (Ident sel)) as [s1 []].
  - by rewrite !Hmany, fold_left_app.
  - by rewrite Hmany.
  - rewrite Hmany, !fold_left_app.
    destruct ty; simpl; by rewrite Hleaves.
  - by rewrite Hmany.
Qed.

Lemma subnodes_children (n : Node) :
  subnodes n = n :: flat_map subnodes (children n).
Proof.
  destruct n as [i | h v | h type Elts | h k v | h fn args | h op x | h x sel
                | h lhs tok rhs | h Results | h names ty values | h cs];
    simpl; try reflexivity; f_equal.
  - rewrite flat_map_app. by destruct type; simpl; rewrite ?app_nil_r.
  - by rewrite app_nil_r.
  - by rewrite app_nil_r.
  - by rewrite flat_map_app.
  - rewrite !flat_map_app. f_equal; [|by destruct ty; simpl; rewrite ?app_nil_r].
    induction names as [|i names IH]; [done|]. simpl. by f_equal.
Qed.

Lemma subnodes_children_length (n c : Node) :
  c ∈ children n → (length (subnodes c) < length (subnodes n))%nat.
Proof.
  rewrite (subnodes_children n). simpl.
  induction (children n) as [|x l IH]; [by intros ?%elem_of_nil|].
  intros [->|Hin]%elem_of_cons; simpl; rewrite length_app; [lia|].
  specialize (IH Hin). lia.
Qed.

(** Induction on a tree through its children. *)
Lemma Node_children_ind (P : Node -> Prop) :
  (∀ n, (∀ c, c ∈ children n → P c) → P n) → ∀ n, P n.
Proof.
  intros Hstep n. remember (length (subnodes n)) as k eqn:Hk.
  revert n Hk. induction k as [k IH] using lt_wf_ind. intros n ->.
  apply Hstep. intros c Hc.
  apply (IH (length (subnodes c))); [by apply subnodes_children_length | done].
Qed.

Lemma subnodes_self (n : Node) : n ∈ subnodes n.
Proof. rewrite subnodes_children. by left. Qed.

Lemma subnodes_child (n c d : Node) :
  c ∈ children n → d ∈ subnodes c → d ∈ subnodes n.
Proof.
  intros Hc Hd. rewrite subnodes_children. right.
  apply list_elem_of_In, in_flat_map. exists c.
  split; by apply list_elem_of_In.
Qed.

(** A callback that always descends meets the nodes in the order of
    [subnodes]. *)
Lemma Inspect_collect (n : Node) (acc : list Node) :
  Inspect (fun acc n => (acc ++ [n], true)) acc n = acc ++ subnodes n.
Proof.
  revert acc. induction n as [n IH] using Node_children_ind. intros acc.
  rewrite Inspect_children, subnodes_children.
  assert (H : ∀ cs acc, (∀ c, c ∈ cs → c ∈ children n) →
            fold_left (Inspect (fun acc n => (acc ++ [n], true))) cs acc
            = acc ++ flat_map subnodes cs).
  { induction cs as [|c cs IHcs]; intros acc0 Hsub; simpl.
    - by rewrite app_nil_r.
    - rewrite IH by (apply Hsub; by left).
      rewrite IHcs by (intros; apply Hsub; by right). by rewrite app_assoc. }
  rewrite H by done. by rewrite <- app_assoc.
Qed.

Lemma preorder_subnodes (file : File) :
  preorder file = flat_map subnodes (Decls file).
Proof.
  unfold preorder, InspectFile.
  assert (H : ∀ ds acc,
            fold_left (Inspect (fun acc n => (acc ++ [n], true))) ds acc
            = acc ++ flat_map subnodes ds).
  { induction ds as [|d ds IH]; intros acc; simpl.
    - by rewrite app_nil_r.
    - by rewrite Inspect_collect, IH, app_assoc. }
  by rewrite H.
Qed.

Lemma nodesOf_preorder (files : list File) :
  nodesOf files = concat (map preorder files).
Proof.
  unfold nodesOf. induction files as [|file files IH]; [done|].
  simpl. by rewrite preorder_subnodes, IH.
Qed.

(** Whatever holds of the captured state before a traversal, and is
    kept by the callback at every node of the tree, holds after it. *)
Lemma Inspect_invariant {S : Type} (f : S -> Node -> S * bool)
    (P : S -> Prop) (Q : Node -> Prop) :
  (∀ s n, P s → Q n → P (fst (f s n))) →
  ∀ n s, P s → (∀ d, d ∈ subnodes n → Q d) → P (Inspect f s n).
Proof.
  intros Hstep. induction n as [n IH] using Node_children_ind.
  intros s Hs Hq. rewrite Inspect_children.
  pose proof (Hstep s n Hs (Hq n (subnodes_self n))) as Hs'.
  destruct (f s n) as [s' descend]. simpl in Hs'.
  destruct descend; [|done].
  assert (H : ∀ cs s, (∀ c, c ∈ cs → c ∈ children n) → P s →
            P (fold_left (Inspect f) cs s)).
  { induction cs as [|c cs IHcs]; intros s0 Hsub Hs0; [done|]. simpl.
    apply IHcs; [intros; apply Hsub; by right|].
    apply IH; [apply Hsub; by left | done |].
    intros d Hd. apply Hq. eapply subnodes_child; [|exact Hd].
    apply Hsub. by left. }
  by apply H.
Qed.

Lemma InspectFile_invariant {S : Type} (f : S -> Node -> S * bool)
    (P : S -> Prop) (Q : Node -> Prop) (file : File) (s : S) :
  (∀ s n, P s → Q n → P (fst (f s n))) →
  P s → (∀ d, d ∈ preorder file → Q d) → P (InspectFile f s file).
Proof.
  intros Hstep Hs Hq. rewrite preorder_subnodes in Hq.
  unfold InspectFile. revert s Hs.
  induction (Decls file) as [|d ds IH]; intros s Hs; [done|]. simpl.
  apply IH.
  - intros n Hn. apply Hq. simpl. apply elem_of_app. by right.
  - apply Inspect_invariant with (Q := Q); [done | done |].
    intros n Hn. apply Hq. simpl. apply elem_of_app. by left.
Qed.

Lemma specVisitor_specOf (obj : Object) (decl : option Node) (n : Node) :
  specVisitor obj decl n
  = if specOf obj n then (Some n, false) else (decl, true).
Proof. by destruct n. Qed.

Lemma declVisitor_defineOf (obj : Object) (decl declAssign : option Node) (n : Node) :
  declVisitor obj (decl, declAssign) n
  = if defineOf obj n then ((decl, Some n), false)
    else let '(decl', descend) := specVisitor obj decl n in
         ((decl', declAssign), descend).
Proof.
  destruct n as [| | | | | | | h lhs tok rhs | | h names ty values |];
    try reflexivity; simpl.
  by destruct (existsb (declares obj) names).
Qed.

(** A search that keeps what it has found, that finds at every node
    that is a hit, and that descends below every other node, finds if the
    tree has a hit. *)
Section Finds.
Context {S : Type} (f : S -> Node -> S * bool).
Context (found : S -> Prop) (hit : Node -> bool).
Context (Hkeeps : ∀ s n, found s → found (fst (f s n))).
Context (Hhits : ∀ s n, hit n = true → found (fst (f s n))).
Context (Hdescends : ∀ s n, hit n = false → snd (f s n) = true).

Lemma fold_Inspect_finds (cs : list Node) :
  (∀ c s, c ∈ cs →
     found s ∨ (∃ d, d ∈ subnodes c ∧ hit d = true) → found (Inspect f s c)) →
  ∀ s, found s ∨ (∃ d, d ∈ flat_map subnodes cs ∧ hit d = true) →
       found (fold_left (Inspect f) cs s).
Proof using Type.
  induction cs as [|c cs IHcs]; intros IH s H; simpl.
  - destruct H as [H|(d & Hd & _)]; [done | by apply elem_of_nil in Hd].
  - apply IHcs; [intros c' s' Hc'; apply IH; by right|].
    destruct H as [H|(d & Hd & Hhit)].
    + left. apply IH; [by left | by left].
    + simpl in Hd. apply elem_of_app in Hd as [Hd|Hd].
      * left. apply IH; [by left | right; by exists d].
      * right. by exists d.
Qed.

Lemma Inspect_finds (n : Node) (s : S) :
  found s ∨ (∃ d, d ∈ subnodes n ∧ hit d = true) → found (Inspect f s n).
Proof using All.
  revert s. induction n as [n IH] using Node_children_ind. intros s H.
  rewrite Inspect_children.
  pose proof (Hkeeps s n) as Hk. pose proof (Hhits s n) as Hh.
  pose proof (Hdescends s n) as Hd.
  destruct (f s n) as [s' descend]. simpl in *.
  destruct (hit n) eqn:Hn.
  - destruct descend; [|by apply Hh].
    apply fold_Inspect_finds; [|left; by apply Hh].
    intros c s0 Hc. by apply IH.
  - rewrite Hd by done. apply fold_Inspect_finds; [intros c s0 Hc; by apply IH|].
    destruct H as [H|(d & Hin & Hhit)]; [left; by apply Hk|].
    right. exists d. split; [|done].
    rewrite subnodes_children in Hin.
    apply elem_of_cons in Hin as [->|Hin]; [congruence | done].
Qed.

Lemma InspectFile_finds (file : File) (s : S) :
  (∃ d, d ∈ preorder file ∧ hit d = true) → found (InspectFile f s file).
Proof using All.
  rewrite preorder_subnodes. unfold InspectFile. intros H.
  apply fold_Inspect_finds; [|by right].
  intros c s0 _. apply Inspect_finds.
Qed.

End Finds.

Lemma InspectFile_specVisitor_complete (obj : Object) (file : File) :
  (∃ d, d ∈ preorder file ∧ specOf obj d = true) →
  is_Some (InspectFile (specVisitor obj) None file).
Proof.
  apply (InspectFile_finds (specVisitor obj) is_Some (specOf obj));
    intros s n; rewrite specVisitor_specOf; by destruct (specOf obj n).
Qed.

Lemma InspectFile_specVisitor_sound (obj : Object) (file : File) (decl : Node) :
  InspectFile (specVisitor obj) None file = Some decl →
  decl ∈ preorder file ∧ specOf obj decl = true.
Proof.
  intros H.
  apply (InspectFile_invariant (specVisitor obj)
           (fun s => ∀ d, s = Some d → d ∈ preorder file ∧ specOf obj d = true)
           (fun n => n ∈ preorder file) file None); try done.
  intros s n Hs Hn d. rewrite specVisitor_specOf.
  destruct (specOf obj n) eqn:Hspec; simpl; [|by apply Hs].
  by intros [= <-].
Qed.

(** What the search for a [var] specification returns. *)
Lemma findValueSpec_preorder
    (obj : Object) (files : list File) :
  match findValueSpec obj files with
  | Some decl =>
      decl ∈ concat (map preorder files) ∧ specOf obj decl = true
  | None =>
      ∀ n, n ∈ concat (map preorder files) → specOf obj n = false
  end.
Proof.
  induction files as [|file files IH]; simpl.
  - by intros n ?%elem_of_nil.
  - destruct (InspectFile (specVisitor obj) None file) as [decl|] eqn:Hfile.
    + apply InspectFile_specVisitor_sound in Hfile as [Hin Hspec].
      split; [|done]. apply elem_of_app. by left.
    + destruct (findValueSpec obj files) as [decl|].
      * destruct IH as [Hin Hspec]. split; [|done]. apply elem_of_app. by right.
      * intros n [Hn|Hn]%elem_of_app; [|by apply IH].
        destruct (specOf obj n) eqn:Hspec; [|done].
        destruct (InspectFile_specVisitor_complete obj file) as [d Hd];
          [by exists n | congruence].
Qed.

(** X6. The search for the declaration of a variable, which the oracle
    and the validators at the position of use make, returns a [var]
    specification of the unit one of whose names denotes the variable,
    and it returns nothing only if the unit has no such specification. *)
Theorem declaration_search_finds_a_declaring_specification
    (obj : Object) (files : list File) :
  match findValueSpec obj files with
  | Some decl =>
      decl ∈ concat (map preorder files) ∧ specOf obj decl = true
  | None =>
      ∀ n, n ∈ concat (map preorder files) → specOf obj n = false
  end.
Proof. apply findValueSpec_preorder. Qed.

(** What [validateVariableMessage] has found when its search ends. *)
Lemma InspectFile_declVisitor_sound (obj : Object) (file : File)
    (decl declAssign : option Node) :
  InspectFile (declVisitor obj) (None, None) file = (decl, declAssign) →
  (∀ d, decl = Some d → d ∈ preorder file ∧ specOf obj d = true)
  ∧ (∀ a, declAssign = Some a → a ∈ preorder file ∧ defineOf obj a = true).
Proof.
  intros H.
  pose proof (InspectFile_invariant (declVisitor obj)
    (fun s => (∀ d, s.1 = Some d → d ∈ preorder file ∧ specOf obj d = true)
              ∧ (∀ a, s.2 = Some a → a ∈ preorder file ∧ defineOf obj a = true))
    (fun n => n ∈ preorder file) file (None, None)) as Hinv.
  rewrite H in Hinv. apply Hinv; try done.
  intros [d0 a0] n [Hd Ha] Hn. rewrite declVisitor_defineOf.
  destruct (defineOf obj n) eqn:Hdef; simpl.
  - split; [done|]. by intros a [= <-].
  - rewrite specVisitor_specOf. destruct (specOf obj n) eqn:Hspec; simpl.
    + split; [|done]. by intros d [= <-].
    + done.
Qed.

Lemma InspectFile_declVisitor_complete (obj : Object) (file : File) :
  (∃ d, d ∈ preorder file ∧ specOf obj d || defineOf obj d = true) →
  InspectFile (declVisitor obj) (None, None) file ≠ (None, None).
Proof.
  intros H.
  pose proof (InspectFile_finds (declVisitor obj)
    (fun s => s ≠ (None, None)) (fun n => specOf obj n || defineOf obj n)) as Hf.
  apply Hf; [| | |done].
  - intros [d0 a0] n Hs. rewrite declVisitor_defineOf, specVisitor_specOf.
    destruct (defineOf obj n); simpl; [done|].
    destruct (specOf obj n); simpl; [done | done].
  - intros [d0 a0] n Hhit. rewrite declVisitor_defineOf, specVisitor_specOf.
    destruct (defineOf obj n); simpl; [done|].
    destruct (specOf obj n); simpl; [done | done].
  - intros [d0 a0] n Hhit. rewrite declVisitor_defineOf, specVisitor_specOf.
    destruct (defineOf obj n); simpl; [by rewrite orb_true_r in Hhit|].
    by destruct (specOf obj n).
Qed.

(** What the search for a declaration of either kind returns. *)
Lemma findDeclaration_preorder
    (obj : Object) (files : list File) :
  let '(decl, declAssign) := findDeclaration obj files in
  (∀ d, decl = Some d →
     d ∈ concat (map preorder files) ∧ specOf obj d = true)
  ∧ (∀ a, declAssign = Some a →
       a ∈ concat (map preorder files) ∧ defineOf obj a = true)
  ∧ (decl = None → declAssign = None →
     ∀ n, n ∈ concat (map preorder files) →
       specOf obj n = false ∧ defineOf obj n = false).
Proof.
  induction files as [|file files IH]; simpl.
  - split; [done|]. split; [done|]. intros _ _ n Hn. by apply elem_of_nil in Hn.
  - destruct (InspectFile (declVisitor obj) (None, None) file)
      as [decl declAssign] eqn:Hfile.
    pose proof (InspectFile_declVisitor_sound _ _ _ _ Hfile) as [Hd Ha].
    assert (Hhere : (∀ d, decl = Some d →
               d ∈ preorder file ++ concat (map preorder files)
               ∧ specOf obj d = true)
            ∧ (∀ a, declAssign = Some a →
               a ∈ preorder file ++ concat (map preorder files)
               ∧ defineOf obj a = true)).
    { split; intros x Hx; [destruct (Hd x Hx) | destruct (Ha x Hx)];
        (split; [apply elem_of_app; by left | done]). }
    destruct decl as [d|]; [by destruct Hhere|].
    destruct declAssign as [a|]; [by destruct Hhere|].
    destruct (findDeclaration obj files) as [decl declAssign].
    destruct IH as (IHd & IHa & IHnone).
    split; [|split].
    + intros d Hdecl. destruct (IHd d Hdecl). split; [|done].
      apply elem_of_app. by right.
    + intros a Hassign. destruct (IHa a Hassign). split; [|done].
      apply elem_of_app. by right.
    + intros Hdecl Hassign n [Hn|Hn]%elem_of_app; [|by apply IHnone].
      destruct (specOf obj n || defineOf obj n) eqn:Hhit.
      * exfalso. apply (InspectFile_declVisitor_complete obj file); [|done].
        by exists n.
      * by apply orb_false_elim in Hhit.
Qed.

(** X7. The search [validateVariableMessage] makes returns a [var]
    specification and a [:=] statement of the unit that declare the
    variable, as far as it returns any, and it returns neither only if no
    node of the unit declares the variable in either way. *)
Theorem declaration_search_with_short_declarations
    (obj : Object) (files : list File) :
  let '(decl, declAssign) := findDeclaration obj files in
  (∀ d, decl = Some d →
     d ∈ concat (map preorder files) ∧ specOf obj d = true)
  ∧ (∀ a, declAssign = Some a →
       a ∈ concat (map preorder files) ∧ defineOf obj a = true)
  ∧ (decl = None → declAssign = None →
     ∀ n, n ∈ concat (map preorder files) →
       specOf obj n = false ∧ defineOf obj n = false).
Proof. apply findDeclaration_preorder. Qed.
Lemma Inspect_declVisitor_specVisitor (obj : Object) (n : Node) (decl : option Node) :
  (∀ d, d ∈ subnodes n → defineOf obj d = false) →
  Inspect (declVisitor obj) (decl, None) n
  = (Inspect (specVisitor obj) decl n, None).
Proof.
  revert decl. induction n as [n IH] using Node_children_ind. intros decl Hfree.
  rewrite !Inspect_children, declVisitor_defineOf.
  rewrite (Hfree n (subnodes_self n)).
  destruct (specVisitor obj decl n) as [decl' descend].
  destruct descend; [|done].
  assert (H : ∀ cs decl, (∀ c, c ∈ cs → c ∈ children n) →
            fold_left (Inspect (declVisitor obj)) cs (decl, None)
            = (fold_left (Inspect (specVisitor obj)) cs decl, None)).
  { induction cs as [|c cs IHcs]; intros decl0 Hsub; [done|]. simpl.
    rewrite IH; [|apply Hsub; by left|].
    - apply IHcs. intros c' Hc'. apply Hsub. by right.
    - intros d Hd. apply Hfree. eapply subnodes_child; [|exact Hd].
      apply Hsub. by left. }
  by apply H.
Qed.

(** X8. In a unit where no [:=] statement declares the variable, the
    search of [validateVariableMessage] finds what the search of the
    oracle finds. *)
Theorem declaration_searches_agree_without_short_declaration
    (obj : Object) (files : list File) :
  Forall (fun n => defineOf obj n = false) (concat (map preorder files)) →
  findDeclaration obj files = (findValueSpec obj files, None).
Proof.
  induction files as [|file files IH]; [done|]. simpl.
  intros [Hfile Hfiles]%Forall_app. rewrite preorder_subnodes in Hfile.
  assert (H : ∀ ds decl,
            Forall (fun n => defineOf obj n = false) (flat_map subnodes ds) →
            fold_left (Inspect (declVisitor obj)) ds (decl, None)
            = (fold_left (Inspect (specVisitor obj)) ds decl, None)).
  { induction ds as [|d ds IHds]; intros decl; [done|]. simpl.
    intros [Hd Hds]%Forall_app.
    rewrite Inspect_declVisitor_specVisitor; [by apply IHds|].
    by apply Forall_forall. }
  unfold InspectFile. rewrite H by done.
  destruct (fold_left (Inspect (specVisitor obj)) (Decls file) None); [done|].
  by apply IH.
Qed.

(** [var addr = &examplev1.Address{...}], a unit without [:=]. *)
Lemma declaration_searches_agree_without_short_declaration_witness :
  findDeclaration Ranked.addr (Files Ranked.pass)
  = (findValueSpec Ranked.addr (Files Ranked.pass), None).
Proof.
  apply (declaration_searches_agree_without_short_declaration Ranked.addr
           (Files Ranked.pass)).
  apply (bool_decide_unpack _). vm_compute. reflexivity.
Defined.

(** X9. A variable that no [var] specification of the unit declares (a
    parameter, a result, a variable declared by [:=]) is not nil for the
    oracle, whatever was assigned to it. *)
Theorem variable_without_var_specification_is_not_nil
    (pass : Pass) (fuel : nat) (ident : IdentT) (obj : Object) :
  ObjectOf ident = Some obj →
  id_Name ident ≠ "nil" →
  Forall (fun n => specOf obj n = false) (concat (map preorder (Files pass))) →
  isNilValue pass (S (S fuel)) (Ident ident) = Some false.
Proof.
  intros Hobj Hname Hfree.
  pose proof (findValueSpec_preorder obj (Files pass))
    as Hsearch.
  destruct (findValueSpec obj (Files pass)) as [decl|] eqn:Hfind.
  { destruct Hsearch as [Hin Hspec]. rewrite Forall_forall in Hfree.
    rewrite (Hfree decl Hin) in Hspec. discriminate. }
  simpl. rewrite (proj2 (String.eqb_neq _ _) Hname), Hobj, Hfind.
  by destruct (hasConstantValue ident).
Qed.

(** [addr := &examplev1.Address{..., Location: nil}]: the variable
    [addr] of the fixture [deeplyNestedNil], where it is used. *)
Lemma variable_without_var_specification_is_not_nil_witness :
  isNilValue DeeplyNested.pass 2 (use 239 DeeplyNested.addr) = Some false.
Proof.
  apply (variable_without_var_specification_is_not_nil DeeplyNested.pass 0
           _ DeeplyNested.addr).
  - reflexivity.
  - discriminate.
  - apply (bool_decide_unpack _). vm_compute. reflexivity.
Defined.

(** *** Where the nested validators report, and about what *)

Lemma logs_foldM_elem {W A S} (P : W -> Prop) (body : S -> A -> M W S) (s : S)
    (l : list A) :
  (∀ s x, x ∈ l → logs P (body s x)) → logs P (foldM body s l).
Proof.
  revert s. induction l as [|x l IH]; intros s Hbody; [apply logs_ret|].
  simpl. apply logs_bind; [apply Hbody; by left|].
  intros s'. apply IH. intros s0 y Hy. apply Hbody. by right.
Qed.

Lemma logs_forM__elem {W A} (P : W -> Prop) (l : list A) (body : A -> M W unit) :
  (∀ x, x ∈ l → logs P (body x)) → logs P (forM_ l body).
Proof.
  induction l as [|x l IH]; intros Hbody; [apply logs_ret|].
  simpl. apply logs_bind; [apply Hbody; by left|].
  intros _. apply IH. intros y Hy. apply Hbody. by right.
Qed.

Lemma append_assoc (a b c : string) : (a +:+ b) +:+ c = a +:+ (b +:+ c).
Proof. induction a as [|x a IH]; [done|]. rewrite !append_cons. by f_equal. Qed.

Lemma append_nil_r (a : string) : a +:+ "" = a.
Proof. induction a as [|x a IH]; [done|]. rewrite append_cons. by f_equal. Qed.

Lemma within_nested (ctx name : string) (d : Diagnostic) :
  within (ctx +:+ "." +:+ name) d → within ctx d.
Proof. intros [rest H]. exists ("." +:+ name +:+ rest). by rewrite H, !append_assoc. Qed.

Lemma atUseReport_nested (ctx name : string) (p : Pos) (d : Diagnostic) :
  atUseReport (ctx +:+ "." +:+ name) p d → atUseReport ctx p d.
Proof. intros [Hp Hw]. split; [done | by eapply within_nested]. Qed.

Ltac at_use_report :=
  split; [reflexivity | eexists ""; unfold contextOf; simpl; by rewrite append_nil_r].

Section Reports.
Context (TypeString : Type_ -> string) (pass : Pass).

Lemma atUse_reports (fuel : nat) :
  (∀ lit elts litType ctx p,
     logs (atUseReport ctx p)
       (validateCompositeLiteralMessageAtUse TypeString pass fuel lit elts
          litType ctx p))
  ∧ (∀ e exprType ctx p,
       logs (atUseReport ctx p)
         (validateMessageValueAtPos TypeString pass fuel e exprType ctx p))
  ∧ (∀ i exprType ctx p,
       logs (atUseReport ctx p)
         (validateVariableMessageAtPos TypeString pass fuel i exprType ctx p)).
Proof.
  induction fuel as [|fuel (IHlit & IHval & IHvar)].
  { repeat split; intros; apply logs_None. }
  split; [|split].
  - intros lit elts litType ctx p. simpl.
    destruct (getStructType _ _); [|apply logs_ret].
    cbv zeta. destruct (_ =? 0)%nat; [apply logs_ret|].
    apply logs_bind.
    + apply logs_foldM. intros s elt.
      destruct elt as [? | ? ? | ? ? ? | ? k ? | ? ? ? | ? ? ? | ? ? ? | ? ? ? ?
                      | ? ? | ? ? ? ? | ? ?]; try apply logs_ret.
      destruct k as [? | ? ? | ? ? ? | ? ? ? | ? ? ? | ? ? ? | ? ? ? | ? ? ? ?
                    | ? ? | ? ? ? ? | ? ?]; try apply logs_ret.
      cbv zeta. destruct (findField _ _); [|apply logs_ret].
      apply logs_bind; [apply logs_liftO|]. intros [|].
      * apply logs_bind; [|intros; apply logs_ret].
        apply logs_tell. at_use_report.
      * apply logs_bind; [|intros; apply logs_ret].
        destruct (TypeOf _); [|apply logs_ret].
        destruct (isProtobufMessageType _ _); [|apply logs_ret].
        eapply logs_impl; [|apply IHval]. apply atUseReport_nested.
    + intros initialized. apply logs_reportMissing. intros f.
      apply logs_tell. at_use_report.
  - intros e exprType ctx p. simpl.
    destruct e as [? | ? ? | ? ? ? | ? ? ? | ? ? ? | ? op ? | ? ? ? | ? ? ? ?
                  | ? ? | ? ? ? ? | ? ?]; try apply logs_ret.
    + apply IHvar.
    + apply IHlit.
    + destruct op; try apply logs_ret. apply IHval.
  - intros i exprType ctx p. simpl.
    destruct (ObjectOf i); [|apply logs_ret].
    destruct (findValueSpec _ _); [|apply logs_ret].
    destruct (Spec_Values _) as [|v vs].
    + destruct (isPointer _); [|apply logs_ret].
      apply logs_tell. at_use_report.
    + apply logs_forRangeM_. intros idx name.
      destruct (declares _ _); [|apply logs_ret].
      destruct (_ !! idx) as [value|]; [|apply logs_ret].
      destruct value as [? | ? ? | ? ? ? | ? ? ? | ? ? ? | ? op x | ? ? ? | ? ? ? ?
                        | ? ? | ? ? ? ? | ? ?]; try apply logs_ret.
      * apply IHlit.
      * destruct op; try apply logs_ret.
        destruct x as [? | ? ? | ? ? ? | ? ? ? | ? ? ? | ? ? ? | ? ? ? | ? ? ? ?
                      | ? ? | ? ? ? ? | ? ?]; try apply logs_ret.
        destruct (TypeOf _); [apply IHlit|apply logs_ret].
Qed.

Lemma handleValidation_reports (fuel : nat) value exprType ctx p :
  logs (atUseReport ctx p)
    (handleValidation TypeString pass fuel value exprType ctx p).
Proof.
  destruct (atUse_reports fuel) as (IHlit & _ & _).
  unfold handleValidation.
  destruct value as [? | ? ? | ? ? ? | ? ? ? | ? ? ? | ? op x | ? ? ? | ? ? ? ?
                    | ? ? | ? ? ? ? | ? ?]; try apply logs_ret.
  - destruct (TypeOf _); [apply IHlit|apply logs_ret].
  - destruct op; try apply logs_ret.
    destruct x as [? | ? ? | ? ? ? | ? ? ? | ? ? ? | ? ? ? | ? ? ? | ? ? ? ?
                  | ? ? | ? ? ? ? | ? ?]; try apply logs_ret.
    destruct (TypeOf _); [apply IHlit|apply logs_ret].
Qed.

Lemma validateVariableMessage_reports (fuel : nat) ident exprType ctx :
  logs (atUseReport ctx (pos (id_Info ident)))
    (validateVariableMessage TypeString pass fuel ident exprType ctx).
Proof.
  unfold validateVariableMessage.
  destruct (ObjectOf ident) as [obj|]; [|apply logs_ret].
  destruct (findDeclaration _ _) as [decl declAssign].
  assert (Hspec : ∀ m : M Diagnostic unit,
            m = match decl with
                | Some decl0 =>
                  match Spec_Values decl0 with
                  | [] =>
                    if isPointer exprType
                    then Reportf (pos (id_Info ident)) fmtZeroValue
                           [id_Name ident; ctx]
                    else ret ()
                  | v :: vs =>
                    forRangeM_ 0 (Spec_Names decl0)
                      (λ (i : nat) (name : IdentT),
                         if declares obj name
                         then
                          match (v :: vs) !! i with
                          | Some value =>
                              handleValidation TypeString pass fuel value
                                exprType ctx (pos (id_Info ident))
                          | None => ret ()
                          end
                         else ret ())
                  end
                | None => ret ()
                end → logs (atUseReport ctx (pos (id_Info ident))) m).
  { intros m ->. destruct decl as [decl|]; [|apply logs_ret].
    destruct (Spec_Values decl) as [|v vs] eqn:Hvalues.
    - destruct (isPointer _); [|apply logs_ret]. apply logs_tell. at_use_report.
    - apply logs_forRangeM_. intros idx name.
      destruct (declares _ _); [|apply logs_ret].
      destruct (_ !! idx); [apply handleValidation_reports|apply logs_ret]. }
  destruct declAssign as [assign|]; [|by apply Hspec].
  destruct (firstIndex _ _ _) as [idx|]; [|by apply Hspec].
  destruct (_ !! idx); [apply handleValidation_reports|apply logs_ret].
Qed.

End Reports.

Lemma positionsOf_self (e : Node) : nodePos e ∈ positionsOf [e].
Proof.
  unfold positionsOf. simpl. rewrite app_nil_r.
  apply list_elem_of_fmap. exists e. split; [done | apply subnodes_self].
Qed.

Lemma positionsOf_child (n c : Node) (p : Pos) :
  c ∈ children n → p ∈ positionsOf [c] → p ∈ positionsOf [n].
Proof.
  unfold positionsOf. simpl. rewrite !app_nil_r.
  intros Hc (d & -> & Hd)%list_elem_of_fmap.
  apply list_elem_of_fmap. exists d. split; [done|]. by eapply subnodes_child.
Qed.

Lemma positionsOf_elem (ns : list Node) (n : Node) (p : Pos) :
  n ∈ ns → p ∈ positionsOf [n] → p ∈ positionsOf ns.
Proof.
  unfold positionsOf. simpl. rewrite !app_nil_r.
  intros Hn (d & -> & Hd)%list_elem_of_fmap.
  apply list_elem_of_fmap. exists d. split; [done|].
  apply list_elem_of_In, in_flat_map. exists n. split; by apply list_elem_of_In.
Qed.

Lemma valueReport_at_use (e : Node) (ctx : string) (d : Diagnostic) :
  atUseReport ctx (nodePos e) d → valueReport e ctx d.
Proof. intros [Hp Hw]. split; [rewrite Hp; apply positionsOf_self | done]. Qed.

Lemma literalReport_value (lit : Info) (type : option Node) (elts : list Node)
    (ctx : string) (d : Diagnostic) :
  literalReport lit elts ctx d → valueReport (CompositeLit lit type elts) ctx d.
Proof.
  intros [[Hp|Hp] Hw]; (split; [|done]).
  - rewrite Hp. apply (positionsOf_self (CompositeLit lit type elts)).
  - unfold positionsOf in *. simpl. rewrite app_nil_r.
    apply elem_of_cons. right. rewrite fmap_app. apply elem_of_app. by right.
Qed.

Section ValueReports.
Context (TypeString : Type_ -> string) (pass : Pass).

Lemma validateMessageValue_reports (fuel : nat) :
  (∀ e exprType ctx,
     logs (valueReport e ctx)
       (validateMessageValue TypeString pass fuel e exprType ctx))
  ∧ (∀ lit elts litType ctx,
       logs (literalReport lit elts ctx)
         (validateCompositeLiteralMessage TypeString pass fuel lit elts litType ctx)).
Proof.
  induction fuel as [|fuel (IHval & IHlit)].
  { split; intros; apply logs_None. }
  split.
  - intros e exprType ctx. simpl.
    destruct e as [i | ? ? | h type elts | ? ? ? | ? ? ? | h op x | ? ? ? | ? ? ? ?
                  | ? ? | ? ? ? ? | ? ?]; try apply logs_ret.
    + eapply logs_impl; [|apply validateVariableMessage_reports].
      apply (valueReport_at_use (Ident i)).
    + eapply logs_impl; [|apply IHlit]. apply literalReport_value.
    + destruct op; try apply logs_ret.
      eapply logs_impl; [|apply IHval].
      intros d [Hp Hw]. split; [|done].
      eapply positionsOf_child; [|exact Hp]. by left.
  - intros lit elts litType ctx. simpl.
    destruct (getStructType _ _); [|apply logs_ret].
    cbv zeta. destruct (_ =? 0)%nat; [apply logs_ret|].
    apply logs_bind.
    + apply logs_foldM_elem. intros s elt Helt.
      destruct elt as [? | ? ? | ? ? ? | h k value | ? ? ? | ? ? ? | ? ? ? | ? ? ? ?
                      | ? ? | ? ? ? ? | ? ?]; try apply logs_ret.
      destruct k as [key | ? ? | ? ? ? | ? ? ? | ? ? ? | ? ? ? | ? ? ? | ? ? ? ?
                    | ? ? | ? ? ? ? | ? ?]; try apply logs_ret.
      assert (Hvalue : ∀ p, p ∈ positionsOf [value] → p ∈ positionsOf elts).
      { intros p Hp. eapply positionsOf_elem; [exact Helt|].
        eapply positionsOf_child; [|exact Hp]. simpl. set_solver. }
      cbv zeta. destruct (findField _ _); [|apply logs_ret].
      apply logs_bind; [apply logs_liftO|]. intros [|].
      * apply logs_bind; [|intros; apply logs_ret].
        apply logs_tell. split.
        -- right. apply Hvalue, positionsOf_self.
        -- eexists "". unfold contextOf. simpl. by rewrite append_nil_r.
      * apply logs_bind; [|intros; apply logs_ret].
        destruct (TypeOf _); [|apply logs_ret].
        destruct (isProtobufMessageType _ _); [|apply logs_ret].
        eapply logs_impl; [|apply IHval].
        intros d [Hp Hw]. split; [right; by apply Hvalue|].
        by eapply within_nested.
    + intros initialized. apply logs_reportMissing. intros f.
      apply logs_tell. split; [by left|].
      eexists "". unfold contextOf. simpl. by rewrite append_nil_r.
Qed.

End ValueReports.

(** X10. Whatever the validators for a traced variable report, they
    report at the position they were given, the position of the use, and
    under a field context that extends the one they were given. *)
Theorem at_use_validation_reports_at_the_use
    (TypeString : Type_ -> string) (pass : Pass) (fuel : nat)
    (e : Node) (exprType : Type_) (ctx : string) (p : Pos)
    (out : list Diagnostic) :
  validateMessageValueAtPos TypeString pass fuel e exprType ctx p
  = Some (tt, out) →
  Forall (atUseReport ctx p) out.
Proof.
  intros H. destruct (atUse_reports TypeString pass fuel) as (_ & Hval & _).
  by eapply Hval.
Qed.

(** [&examplev1.User{Id: "123", Name: "John"}], the value of [user] in
    [badVariableUsage], validated for the use at 1215. *)
Lemma at_use_validation_reports_at_the_use_witness :
  ∃ out,
    validateMessageValueAtPos typeString BadVariable.pass 3
      (ref 1203 tUser [kv 1205 "Id" (str 1206 "123");
                       kv 1207 "Name" (str 1208 "John")])
      (Pointer tUser) "User" 1215%Z = Some (tt, out)
    ∧ length out = 3%nat
    ∧ Forall (atUseReport "User" 1215%Z) out.
Proof.
  eexists. split; [vm_compute; reflexivity|]. split; [reflexivity|].
  apply (at_use_validation_reports_at_the_use typeString BadVariable.pass 3
           (ref 1203 tUser [kv 1205 "Id" (str 1206 "123");
                            kv 1207 "Name" (str 1208 "John")])
           (Pointer tUser) "User" 1215%Z).
  vm_compute; reflexivity.
Defined.

(** X11. What [validateVariableMessage] finds wrong with the value a
    variable was declared with, by [var] or by [:=], it reports at the
    identifier that uses the variable, not at the declaration. *)
Theorem traced_variable_is_reported_where_it_is_used
    (TypeString : Type_ -> string) (pass : Pass) (fuel : nat)
    (ident : IdentT) (exprType : Type_) (ctx : string)
    (out : list Diagnostic) :
  validateVariableMessage TypeString pass fuel ident exprType ctx
  = Some (tt, out) →
  Forall (fun d => d_Pos d = pos (id_Info ident)) out.
Proof.
  intros H.
  pose proof (validateVariableMessage_reports TypeString pass fuel ident
                exprType ctx _ _ H) as Hout.
  eapply Forall_impl; [exact Hout|]. by intros d [Hp _].
Qed.

(** [user] in [badVariableUsage], declared by [:=] at 1201 and used at
    1215. *)
Lemma traced_variable_is_reported_where_it_is_used_witness :
  ∃ out,
    validateVariableMessage typeString BadVariable.pass 2
      {| id_Info := typed 1215 (Pointer tUser); id_Name := "user";
         id_Obj := Some BadVariable.user |}
      (Pointer tUser) "User" = Some (tt, out)
    ∧ length out = 3%nat
    ∧ Forall (fun d => d_Pos d = 1215%Z) out.
Proof.
  eexists. split; [vm_compute; reflexivity|]. split; [reflexivity|].
  apply (traced_variable_is_reported_where_it_is_used typeString
           BadVariable.pass 2
           {| id_Info := typed 1215 (Pointer tUser); id_Name := "user";
              id_Obj := Some BadVariable.user |}
           (Pointer tUser) "User").
  vm_compute; reflexivity.
Defined.

(** X12. The validation of the value of a field reports only at
    positions of nodes of that value, and only under field contexts that
    extend the field's. *)
Theorem nested_validation_reports_inside_the_value
    (TypeString : Type_ -> string) (pass : Pass) (fuel : nat)
    (e : Node) (exprType : Type_) (ctx : string) (out : list Diagnostic) :
  validateMessageValue TypeString pass fuel e exprType ctx = Some (tt, out) →
  Forall (valueReport e ctx) out.
Proof.
  intros H.
  destruct (validateMessageValue_reports TypeString pass fuel) as (Hval & _).
  by eapply Hval.
Qed.

(** The value of [User] in the response of [deeplyNestedNil] written with
    [var]: the nil [Location] of [addr] is reported at the use of [user],
    under [User.Address]. *)
Lemma nested_validation_reports_inside_the_value_witness :
  ∃ out,
    validateMessageValue typeString DeeplyNestedVar.pass 8
      (use 1345 DeeplyNestedVar.user) (Pointer tUser) "User" = Some (tt, out)
    ∧ length out = 1%nat
    ∧ Forall (valueReport (use 1345 DeeplyNestedVar.user) "User") out.
Proof.
  eexists. split; [vm_compute; reflexivity|]. split; [reflexivity|].
  apply (nested_validation_reports_inside_the_value typeString
           DeeplyNestedVar.pass 8 (use 1345 DeeplyNestedVar.user)
           (Pointer tUser) "User").
  vm_compute; reflexivity.
Defined.

(** *** What [run] hands over, and where it reports *)

Lemma subnodes_trans (n d e : Node) :
  d ∈ subnodes n → e ∈ subnodes d → e ∈ subnodes n.
Proof.
  revert d e. induction n as [n IH] using Node_children_ind. intros d e Hd He.
  rewrite subnodes_children in Hd. apply elem_of_cons in Hd as [->|Hd]; [done|].
  apply list_elem_of_In, in_flat_map in Hd as (c & Hc & Hd).
  apply list_elem_of_In in Hc, Hd.
  eapply subnodes_child; [exact Hc|]. by eapply IH.
Qed.

Lemma nodesOf_subnodes (files : list File) (n d : Node) :
  n ∈ nodesOf files → d ∈ subnodes n → d ∈ nodesOf files.
Proof.
  unfold nodesOf. intros Hn Hd.
  apply list_elem_of_In, in_flat_map in Hn as (file & Hfile & Hn).
  apply in_flat_map in Hn as (decl & Hdecl & Hn). apply list_elem_of_In in Hn.
  apply list_elem_of_In, in_flat_map. exists file. split; [done|].
  apply in_flat_map. exists decl. split; [done|].
  apply list_elem_of_In. by eapply subnodes_trans.
Qed.

Lemma nodesOf_child (files : list File) (n c : Node) :
  n ∈ nodesOf files → c ∈ children n → c ∈ nodesOf files.
Proof.
  intros Hn Hc. eapply nodesOf_subnodes; [exact Hn|].
  eapply subnodes_child; [exact Hc | apply subnodes_self].
Qed.

Lemma visited_nodesOf (files : list File) (n : Node) :
  n ∈ visited files → n ∈ nodesOf files.
Proof.
  unfold visited. rewrite <- nodesOf_preorder.
  intros [Hn _]%list_elem_of_In%List.filter_In. by apply list_elem_of_In.
Qed.

Section Entries.
Context (U : Universe) (files : list File).

Lemma visitResult_entries (s : gset NodeId) (result : Node) :
  result ∈ nodesOf files →
  logs (fromUnit U files) (visitResult U noteCompositeLiteral s result).
Proof.
  intros Hin.
  destruct result as [? | ? ? | h type elts | ? ? ? | ? ? ? | ? ? ? | ? ? ? | ? ? ? ?
                     | ? ? | ? ? ? ? | ? ?]; try apply logs_ret.
  unfold visitResult. destruct (bool_decide _); [apply logs_ret|].
  destruct (TypeOf _) as [litType|] eqn:Htype; [|apply logs_ret].
  destruct (isResponseMessage U litType) eqn:Hroot; [|apply logs_ret].
  apply logs_bind; [|intros; apply logs_ret].
  apply logs_tell. exists (CompositeLit h type elts). split; [done|].
  by exists type.
Qed.

Lemma visit_entries (s : gset NodeId) (n : Node) :
  n ∈ nodesOf files →
  logs (fromUnit U files) (visit U noteAssignment noteCompositeLiteral s n).
Proof.
  intros Hin.
  destruct n as [? | ? ? | h type elts | ? ? ? | ? ? ? | ? ? ? | ? ? ? | h lhs tok rhs
                | h results | ? ? ? ? | ? ?]; try apply logs_ret.
  - unfold visit. destruct (bool_decide _); [apply logs_ret|].
    destruct (TypeOf _) as [litType|] eqn:Htype; [|apply logs_ret].
    destruct (isResponseMessage U litType) eqn:Hroot; [|apply logs_ret].
    apply logs_bind; [|intros; apply logs_ret].
    apply logs_tell. exists (CompositeLit h type elts). split; [done|].
    by exists type.
  - apply logs_bind; [|intros; apply logs_ret].
    apply logs_tell. exists (AssignStmt h lhs tok rhs). split; [done|].
    by exists h, tok.
  - apply logs_foldM_elem. intros s0 result Hres.
    apply visitResult_entries. by eapply nodesOf_child.
Qed.

Lemma schedule_entries (entries : list Entry) :
  schedule U files = Some (tt, entries) → Forall (fromUnit U files) entries.
Proof.
  unfold schedule, runWith.
  destruct (existsb _ files); [intros [= <-]; constructor|].
  unfold scan.
  assert (H : logs (fromUnit U files)
            (foldM (visit U noteAssignment noteCompositeLiteral) ∅ (visited files) ;;
             ret tt)).
  { apply logs_bind; [|intros; apply logs_ret].
    apply logs_foldM_elem. intros s n Hn.
    apply visit_entries. by apply visited_nodesOf. }
  apply H.
Qed.

End Entries.

(** X13. [run] hands to [checkAssignment] only assignment statements of
    the unit, and to [checkCompositeLiteral] only composite literals of
    the unit whose recorded type is a response message. *)
Theorem run_checks_only_nodes_of_the_unit
    (U : Universe) (files : list File) (entries : list Entry) :
  schedule U files = Some (tt, entries) →
  Forall (fun e => ∃ n, n ∈ concat (map preorder files) ∧ entryOf U e n)
    entries.
Proof.
  intros H. rewrite <- nodesOf_preorder. by apply schedule_entries.
Qed.

(** [return examplev1.UserResponse{LastLogin: timestamppb.Now()}] *)
Lemma run_checks_only_nodes_of_the_unit_witness :
  ∃ entries,
    schedule universe [BadResponse.byValue] = Some (tt, entries)
    ∧ length entries = 1%nat
    ∧ Forall (fun e => ∃ n, n ∈ concat (map preorder [BadResponse.byValue])
                            ∧ entryOf universe e n) entries.
Proof.
  eexists. split; [vm_compute; reflexivity|]. split; [reflexivity|].
  apply (run_checks_only_nodes_of_the_unit universe [BadResponse.byValue]).
  vm_compute; reflexivity.
Defined.

Lemma assignmentEntries_app (es1 es2 : list Entry) :
  assignmentEntries (es1 ++ es2) = assignmentEntries es1 ++ assignmentEntries es2.
Proof. apply omap_app. Qed.

Lemma visitResult_assignments (U : Universe) (s : gset NodeId) (result : Node)
    (s' : gset NodeId) (es : list Entry) :
  visitResult U noteCompositeLiteral s result = Some (s', es) →
  assignmentEntries es = [].
Proof.
  destruct result as [? | ? ? | h type elts | ? ? ? | ? ? ? | ? ? ? | ? ? ? | ? ? ? ?
                     | ? ? | ? ? ? ? | ? ?]; try by intros [= <- <-].
  unfold visitResult. destruct (bool_decide _); [by intros [= <- <-]|].
  destruct (TypeOf _) as [litType|]; [|by intros [= <- <-]].
  destruct (isResponseMessage U litType); cbn; by intros [= <- <-].
Qed.

Lemma foldM_visitResult_assignments (U : Universe) (results : list Node)
    (s s' : gset NodeId) (es : list Entry) :
  foldM (visitResult U noteCompositeLiteral) s results = Some (s', es) →
  assignmentEntries es = [].
Proof.
  revert s es. induction results as [|r rs IH]; intros s es; simpl.
  - by intros [= <- <-].
  - intros (s1 & w1 & w2 & H1 & H2 & ->)%bind_Some.
    rewrite assignmentEntries_app.
    by rewrite (visitResult_assignments _ _ _ _ _ H1), (IH _ _ H2).
Qed.

Lemma visit_assignments (U : Universe) (s : gset NodeId) (n : Node)
    (s' : gset NodeId) (es : list Entry) :
  visit U noteAssignment noteCompositeLiteral s n = Some (s', es) →
  assignmentEntries es = assignmentsOf [n].
Proof.
  destruct n as [? | ? ? | h type elts | ? ? ? | ? ? ? | ? ? ? | ? ? ? | h lhs tok rhs
                | h results | ? ? ? ? | ? ?]; try by intros [= <- <-].
  - unfold visit. destruct (bool_decide _); [by intros [= <- <-]|].
    destruct (TypeOf _) as [litType|]; [|by intros [= <- <-]].
    destruct (isResponseMessage U litType); cbn; by intros [= <- <-].
  - apply foldM_visitResult_assignments.
Qed.

Lemma assignmentsOf_filter (ns : list Node) :
  assignmentsOf (List.filter nodeFilter ns) = assignmentsOf ns.
Proof.
  induction ns as [|n ns IH]; [done|].
  destruct n; simpl; by rewrite ?IH.
Qed.

Lemma foldM_visit_assignments (U : Universe) (ns : list Node)
    (s s' : gset NodeId) (es : list Entry) :
  foldM (visit U noteAssignment noteCompositeLiteral) s ns = Some (s', es) →
  assignmentEntries es = assignmentsOf ns.
Proof.
  revert s es. induction ns as [|n ns IH]; intros s es; simpl.
  - by intros [= <- <-].
  - intros (s1 & w1 & w2 & H1 & H2 & ->)%bind_Some.
    rewrite assignmentEntries_app, (visit_assignments _ _ _ _ _ H1), (IH _ _ H2).
    unfold assignmentsOf. simpl. by destruct n.
Qed.

(** X14. Unless the unit has a generated file, every assignment
    statement of the unit is handed to [checkAssignment], once, in the
    order of the traversal, wherever it stands. *)
Theorem every_assignment_is_checked_in_order
    (U : Universe) (files : list File) (entries : list Entry) :
  existsb (fun file => HasSuffix (Filename file) ".pb.go") files = false →
  schedule U files = Some (tt, entries) →
  assignmentEntries entries = assignmentsOf (concat (map preorder files)).
Proof.
  intros Hgen Hsched.
  destruct (schedule_fold U files entries Hgen Hsched) as [s Hfold].
  rewrite <- assignmentsOf_filter. by eapply foldM_visit_assignments.
Qed.

(** [badVariableUsage]: its two [:=] statements, and not its return
    statement. *)
Lemma every_assignment_is_checked_in_order_witness :
  ∃ entries,
    schedule universe (Files BadVariable.pass) = Some (tt, entries)
    ∧ length (assignmentEntries entries) = 2%nat
    ∧ assignmentEntries entries
      = assignmentsOf (concat (map preorder (Files BadVariable.pass))).
Proof.
  eexists. split; [vm_compute; reflexivity|]. split; [reflexivity|].
  apply (every_assignment_is_checked_in_order universe (Files BadVariable.pass)).
  - vm_compute; reflexivity.
  - vm_compute; reflexivity.
Defined.

Section Positions.
Context (TypeString : Type_ -> string) (pass : Pass).

Lemma checkCompositeLiteral_positions (fuel : nat) (lit : Info)
    (elts : list Node) (litType : Type_) :
  logs (fun d => d_Pos d = pos lit ∨ d_Pos d ∈ positionsOf elts)
    (checkCompositeLiteral TypeString pass fuel lit elts litType).
Proof.
  unfold checkCompositeLiteral.
  destruct (negb _); [apply logs_ret|].
  destruct (getStructType _ _); [|apply logs_ret].
  cbv zeta. destruct (_ =? 0)%nat; [apply logs_ret|].
  apply logs_bind.
  - apply logs_foldM_elem. intros s elt Helt.
    destruct elt as [? | ? ? | ? ? ? | h k value | ? ? ? | ? ? ? | ? ? ? | ? ? ? ?
                    | ? ? | ? ? ? ? | ? ?]; try apply logs_ret.
    destruct k as [key | ? ? | ? ? ? | ? ? ? | ? ? ? | ? ? ? | ? ? ? | ? ? ? ?
                  | ? ? | ? ? ? ? | ? ?]; try apply logs_ret.
    assert (Hvalue : ∀ p, p ∈ positionsOf [value] → p ∈ positionsOf elts).
    { intros p Hp. eapply positionsOf_elem; [exact Helt|].
      eapply positionsOf_child; [|exact Hp]. simpl. set_solver. }
    cbv zeta. destruct (findField _ _); [|apply logs_ret].
    apply logs_bind; [apply logs_liftO|]. intros [|].
    + apply logs_bind; [|intros; apply logs_ret].
      apply logs_tell. right. apply Hvalue, positionsOf_self.
    + apply logs_bind; [|intros; apply logs_ret].
      destruct (TypeOf _); [|apply logs_ret].
      destruct (isProtobufMessageType _ _); [|apply logs_ret].
      eapply logs_impl;
        [|apply (proj1 (validateMessageValue_reports TypeString pass fuel))].
      intros d [Hp _]. right. by apply Hvalue.
  - intros initialized. apply logs_reportMissing. intros f.
    apply logs_tell. by left.
Qed.

Lemma checkAssignment_positions (fuel : nat) (Lhs Rhs : list Node) :
  logs (fun d => d_Pos d ∈ positionsOf Rhs)
    (checkAssignment TypeString pass fuel Lhs Rhs).
Proof.
  unfold checkAssignment. apply logs_forM__elem. intros [lhs rhs] Hin.
  apply elem_of_zip_r in Hin.
  destruct lhs as [? | ? ? | ? ? ? | ? ? ? | ? ? ? | ? ? ? | ? x sel | ? ? ? ?
                  | ? ? | ? ? ? ? | ? ?]; try apply logs_ret.
  destruct (TypeOf x) as [baseType|]; [|apply logs_ret].
  cbv zeta. destruct (negb _); [apply logs_ret|].
  destruct (getFieldFromType _ _ _); [|apply logs_ret].
  destruct (negb _); [apply logs_ret|].
  destruct (isOptionalField _); [apply logs_ret|].
  apply logs_bind; [apply logs_liftO|]. intros [|].
  - apply logs_tell. eapply positionsOf_elem; [exact Hin | apply positionsOf_self].
  - destruct (TypeOf rhs); [|apply logs_ret].
    destruct (isProtobufMessageType _ _); [|apply logs_ret].
    eapply logs_impl;
      [|apply (proj1 (validateMessageValue_reports TypeString pass fuel))].
    intros d [Hp _]. by eapply positionsOf_elem.
Qed.

End Positions.

Lemma positionsOf_nodesOf (files : list File) (n : Node) (ns : list Node) (p : Pos) :
  n ∈ nodesOf files → (∀ c, c ∈ ns → c ∈ children n) →
  p ∈ positionsOf ns → p ∈ map nodePos (nodesOf files).
Proof.
  intros Hn Hsub (d & -> & Hd)%list_elem_of_fmap.
  apply list_elem_of_fmap. exists d. split; [done|].
  apply list_elem_of_In, in_flat_map in Hd as (c & Hc & Hd).
  apply list_elem_of_In in Hc, Hd.
  eapply nodesOf_subnodes; [|exact Hd]. eapply nodesOf_child; [exact Hn|].
  by apply Hsub.
Qed.

(** X15. Every diagnostic of [run] is reported at the position of a
    node of the files of the unit. *)
Theorem run_reports_at_nodes_of_the_unit
    (TypeString : Type_ -> string) (pass : Pass) (fuel : nat)
    (out : list Diagnostic) :
  run TypeString pass fuel = Some (tt, out) →
  Forall (fun d => d_Pos d ∈ map nodePos (concat (map preorder (Files pass))))
    out.
Proof.
  rewrite <- nodesOf_preorder.
  destruct (runWith_scheduled (TypeDecls pass)
              (checkAssignment TypeString pass fuel)
              (checkCompositeLiteral TypeString pass fuel) (Files pass))
    as (entries & Hsched & Hrun).
  unfold run. rewrite Hrun. clear Hrun.
  pose proof (schedule_entries _ _ _ Hsched) as Hentries. rewrite Forall_forall in Hentries.
  revert out. apply (logs_forM__elem _ entries). intros e He.
  destruct (Hentries e He) as (n & Hn & Hof).
  destruct e as [lhs rhs | lit elts litType]; simpl in *.
  - destruct Hof as (h & tok & ->).
    eapply logs_impl; [|apply checkAssignment_positions].
    intros d Hd. eapply positionsOf_nodesOf; [exact Hn| |exact Hd].
    intros c Hc. simpl. apply elem_of_app. by right.
  - destruct Hof as (type & -> & _ & _).
    eapply logs_impl; [|apply checkCompositeLiteral_positions].
    intros d [Hd|Hd].
    + rewrite Hd. apply list_elem_of_fmap.
      by exists (CompositeLit lit type elts).
    + eapply positionsOf_nodesOf; [exact Hn| |exact Hd].
      intros c Hc. simpl. apply elem_of_app. by right.
Qed.

(** [badVariableUsage]: the three reports are at 1215, where [user] is
    used. *)
Lemma run_reports_at_nodes_of_the_unit_witness :
  ∃ out,
    run typeString BadVariable.pass 4 = Some (tt, out)
    ∧ length out = 3%nat
    ∧ Forall (fun d => d_Pos d
                       ∈ map nodePos (concat (map preorder (Files BadVariable.pass))))
        out.
Proof.
  eexists. split; [vm_compute; reflexivity|]. split; [reflexivity|].
  apply (run_reports_at_nodes_of_the_unit typeString BadVariable.pass 4).
  vm_compute; reflexivity.
Defined.

(** *** The entry points *)

(** X16. On a unit whose [var] declarations are ranked, so that no
    variable is declared from itself, [run] returns: from some amount of
    fuel on it yields its diagnostics. *)
Theorem run_returns_on_ranked_declarations
    (TypeString : Type_ -> string) (pass : Pass) (rank : Object -> nat) :
  ranked pass rank →
  ∃ N : nat, ∀ fuel, (N ≤ fuel)%nat →
    ∃ out, run TypeString pass fuel = Some (tt, out).
Proof. intros Hranked. by eapply run_returns. Qed.

Lemma run_returns_on_ranked_declarations_witness :
  ∃ N : nat, ∀ fuel, (N ≤ fuel)%nat →
    ∃ out, run typeString Ranked.pass fuel = Some (tt, out).
Proof.
  apply (run_returns_on_ranked_declarations typeString Ranked.pass Ranked.rank).
  exact Ranked_is_ranked.
Defined.

(** X17. An assignment of something the oracle takes for nil to a
    required message field of a response message is reported, once, at
    the right-hand side, with the name of the field and the type of the
    message. *)
Theorem nil_assignment_to_required_field_is_reported
    (TypeString : Type_ -> string) (pass : Pass) (fuel : nat)
    (h : Info) (x : Node) (sel : IdentT) (rhs : Node)
    (baseType : Type_) (field : Var) :
  TypeOf x = Some baseType →
  isResponseMessage (TypeDecls pass) (deref baseType) = true →
  getFieldFromType (TypeDecls pass) (deref baseType) (id_Name sel) = Some field →
  isMessageField (TypeDecls pass) field = true →
  isNilValue pass fuel rhs = Some true →
  checkAssignment TypeString pass fuel [SelectorExpr h x sel] [rhs]
  = Some (tt, [ {| d_Pos := nodePos rhs; d_Format := fmtNilAssign;
                   d_Args := [id_Name sel; TypeString (deref baseType)] |} ]).
Proof.
  intros Hx Hroot Hfield Hmsg Hnil. unfold checkAssignment. simpl.
  rewrite Hx. fold (deref baseType). rewrite Hroot, Hfield, Hmsg.
  rewrite (message_field_is_not_optional _ _ Hmsg), Hnil. reflexivity.
Qed.

(** [response.User = nil] *)
Lemma nil_assignment_to_required_field_is_reported_witness :
  checkAssignment typeString ExplicitNil.pass 1 [ExplicitNil.target] [nil_ 2004]
  = Some (tt, [ {| d_Pos := 2004%Z; d_Format := fmtNilAssign;
                   d_Args := ["User"; typeString tUserResponse] |} ]).
Proof.
  apply (nil_assignment_to_required_field_is_reported typeString
           ExplicitNil.pass 1 (typed 2001 (Pointer tUser))
           (use 2002 ExplicitNil.response) (name_ 2003 "User") (nil_ 2004)
           (Pointer tUserResponse) (NewVar "User" (Pointer tUser)));
    reflexivity.
Defined.

Lemma opaque_not_nil (pass : Pass) (fuel : nat) (e : Node) :
  opaque e = true → isNilValue pass (S fuel) e = Some false.
Proof.
  destruct e as [? | ? ? | ? ? ? | ? ? ? | ? ? args | ? op ? | ? ? ? | ? ? ? ?
                | ? ? | ? ? ? ? | ? ?]; try done.
  - intros H. rewrite isNilValue_call. destruct args as [|arg [|]]; try done.
    simpl in H. by destruct (isNilIdent arg).
  - by destruct op.
Qed.

Lemma opaque_not_validated (TypeString : Type_ -> string) (pass : Pass)
    (fuel : nat) (e : Node) (exprType : Type_) (ctx : string) :
  opaque e = true →
  validateMessageValue TypeString pass (S fuel) e exprType ctx = ret tt.
Proof.
  destruct e as [? | ? ? | ? ? ? | ? ? ? | ? ? args | ? op ? | ? ? ? | ? ? ? ?
                | ? ? | ? ? ? ? | ? ?]; try done.
  by destruct op.
Qed.

(** X18. [checkAssignment] reports nothing for a statement in which
    every left-hand side is something else than a required message field
    of a response message, or gets a value the analyzer does not look
    into: a call (but for one with the single argument [nil]), a field
    selection, a literal of a basic type, any other kind of expression. *)
Theorem opaque_assignment_is_not_reported
    (TypeString : Type_ -> string) (pass : Pass) (fuel : nat)
    (Lhs Rhs : list Node) :
  Forall (fun '(lhs, rhs) =>
            targetsRequiredField (TypeDecls pass) lhs = false
            ∨ opaque rhs = true) (zip Lhs Rhs) →
  checkAssignment TypeString pass (S fuel) Lhs Rhs = Some (tt, []).
Proof.
  unfold checkAssignment. induction (zip Lhs Rhs) as [|[lhs rhs] pairs IH].
  { reflexivity. }
  intros [Hpair Hpairs]%Forall_cons.
  change (forM_ ((lhs, rhs) :: pairs) ?body)
    with (bind (body (lhs, rhs)) (fun _ => forM_ pairs body)).
  rewrite (IH Hpairs).
  assert (Hhere : ∀ m : M Diagnostic unit, m = ret tt →
            bind m (fun _ => Some (tt, [])) = Some (tt, [])) by by intros m ->.
  apply Hhere. clear Hhere IH Hpairs.
  destruct lhs as [? | ? ? | ? ? ? | ? ? ? | ? ? ? | ? ? ? | h x sel | ? ? ? ?
                  | ? ? | ? ? ? ? | ? ?]; try reflexivity.
  unfold targetsRequiredField in Hpair.
  destruct (TypeOf x) as [baseType|]; [|reflexivity].
  fold (deref baseType). cbv zeta.
  destruct (isResponseMessage _ (deref baseType)); [|reflexivity].
  destruct (getFieldFromType _ _ _) as [field|]; [|reflexivity].
  destruct (isMessageField _ field); [|reflexivity].
  destruct (isOptionalField field); [reflexivity|].
  destruct Hpair as [Hpair|Hpair]; [discriminate|].
  rewrite (opaque_not_nil _ _ _ Hpair). cbn -[validateMessageValue].
  destruct (TypeOf rhs); [|reflexivity].
  destruct (isProtobufMessageType _ _); [|reflexivity].
  by rewrite (opaque_not_validated _ _ _ _ _ _ Hpair).
Qed.

(** [response.User, count = loadUser(req), other.Count] *)
Lemma opaque_assignment_is_not_reported_witness :
  checkAssignment typeString Opaque.pass 1 Opaque.Lhs Opaque.Rhs = Some (tt, []).
Proof.
  apply (opaque_assignment_is_not_reported typeString Opaque.pass 0
           Opaque.Lhs Opaque.Rhs).
  apply Forall_cons_2; [right; reflexivity|].
  apply Forall_cons_2; [left; reflexivity|].
  apply Forall_nil_2.
Defined.



(** *** More fuel changes nothing *)










Section Fuel.
Context (TypeString : Type_ -> string) (pass : Pass).









End Fuel.



(** X21. A variable that no node of the unit declares, by [var] or by
    [:=] (a parameter, a result), is taken to be valid: its validation
    reports nothing, whatever the fuel. *)
Theorem undeclared_variable_is_taken_to_be_valid
    (TypeString : Type_ -> string) (pass : Pass) (fuel : nat)
    (ident : IdentT) (obj : Object) (exprType : Type_) (ctx : string) :
  ObjectOf ident = Some obj →
  Forall (fun n => specOf obj n = false ∧ defineOf obj n = false)
    (concat (map preorder (Files pass))) →
  validateVariableMessage TypeString pass fuel ident exprType ctx
  = Some (tt, []).
Proof.
  intros Hobj Hfree. unfold validateVariableMessage. rewrite Hobj.
  pose proof (findDeclaration_preorder obj (Files pass)) as Hsearch.
  destruct (findDeclaration obj (Files pass)) as [decl declAssign].
  destruct Hsearch as (Hdecl & Hassign & _). rewrite Forall_forall in Hfree.
  destruct decl as [d|].
  { destruct (Hdecl d eq_refl) as [Hin Hspec].
    destruct (Hfree d Hin) as [Hno _]. congruence. }
  destruct declAssign as [a|]; [|reflexivity].
  destruct (Hassign a eq_refl) as [Hin Hdef].
  destruct (Hfree a Hin) as [_ Hno]. congruence.
Qed.

(** [req] in [response.User, count = loadUser(req), other.Count] is
    declared nowhere in the file. *)
Lemma undeclared_variable_is_taken_to_be_valid_witness :
  validateVariableMessage typeString Opaque.pass 0
    {| id_Info := plain 2112; id_Name := "req"; id_Obj := Some Opaque.req |}
    (Pointer (Named "examplev1.GetUserRequest")) "Request"
  = Some (tt, []).
Proof.
  apply (undeclared_variable_is_taken_to_be_valid typeString Opaque.pass 0
           _ Opaque.req).
  - reflexivity.
  - apply (bool_decide_unpack _). vm_compute. reflexivity.
Defined.





Lemma logs_and {W A} (P Q : W -> Prop) (m : M W A) :
  logs P m → logs Q m → logs (fun w => P w ∧ Q w) m.
Proof.
  intros HP HQ a w Hm. apply Forall_and. split; [by eapply HP | by eapply HQ].
Qed.



(** *** Omitted fields of nested literals *)





Section ClosingLoop.
Context (mk : Var -> Diagnostic) (f : Var) (initialized : gset string).
Context (Hmk : ∀ g, mk g = mk f → Var_Name g = Var_Name f).



End ClosingLoop.







(** *** Variables *)

(** X26. The oracle does not tell the names of a [var] specification
    apart: a variable is nil for it as soon as any value of the
    specification that declares it is, be it the value of another name. *)
Theorem variable_is_nil_if_any_value_of_its_specification_is
    (pass : Pass) (fuel : nat) (ident : IdentT) (obj : Object) (decl : Node)
    (before after : list Node) (value : Node) :
  ObjectOf ident = Some obj →
  id_Name ident ≠ "nil" →
  hasConstantValue ident = false →
  findValueSpec obj (Files pass) = Some decl →
  Spec_Values decl = before ++ value :: after →
  Forall (fun v => isNilValue pass fuel v = Some false) before →
  isNilValue pass fuel value = Some true →
  isNilValue pass (S (S fuel)) (Ident ident) = Some true.
Proof.
  intros Hobj Hname Hconst Hdecl Hvalues Hbefore Hvalue.
  assert (Hvar : isNilVariable pass (S fuel) ident = Some true).
  { rewrite (isNilVariable_values pass fuel ident obj decl Hobj Hconst Hdecl)
      by (rewrite Hvalues; by destruct before).
    rewrite Hvalues. clear Hvalues.
    induction Hbefore as [|v before Hv _ IH]; simpl.
    - by rewrite Hvalue.
    - by rewrite Hv. }
  change (isNilValue pass (S (S fuel)) (Ident ident))
    with (if String.eqb (id_Name ident) "nil" then Some true
          else match isNilVariable pass (S fuel) ident with
               | None => None
               | Some true => Some true
               | Some false => Some false
               end).
  rewrite Hvar. by destruct (String.eqb _ _).
Qed.

(** [backup] in [var primary, backup *examplev1.User = nil,
    &examplev1.User{}]. *)
Lemma variable_is_nil_if_any_value_of_its_specification_is_witness :
  isNilValue Joint.pass 3 (use 2310 Joint.backup) = Some true.
Proof.
  apply (variable_is_nil_if_any_value_of_its_specification_is Joint.pass 1
           _ Joint.backup Joint.decl [] [ref 2306 tUser []] (nil_ 2305));
    try reflexivity.
  - discriminate.
  - constructor.
Defined.

(** X27. The validators at the position of use look for [var]
    specifications only: a variable that none declares, one introduced
    by [:=] included, is not validated by them, whatever it was given. *)
Theorem at_use_validation_skips_short_declarations
    (TypeString : Type_ -> string) (pass : Pass) (fuel : nat)
    (ident : IdentT) (obj : Object) (exprType : Type_) (ctx : string) (p : Pos) :
  ObjectOf ident = Some obj →
  Forall (fun n => specOf obj n = false) (concat (map preorder (Files pass))) →
  validateMessageValueAtPos TypeString pass (S (S fuel)) (Ident ident)
    exprType ctx p = Some (tt, []).
Proof.
  intros Hobj Hfree.
  pose proof (findValueSpec_preorder obj (Files pass)) as Hsearch.
  destruct (findValueSpec obj (Files pass)) as [decl|] eqn:Hfind.
  { destruct Hsearch as [Hin Hspec]. rewrite Forall_forall in Hfree.
    rewrite (Hfree decl Hin) in Hspec. discriminate. }
  simpl. by rewrite Hobj, Hfind.
Qed.

(** [addr], declared by [:=] in [deeplyNestedNil] with a nil [Location],
    as the value of [Address] in the literal [user] is declared with. *)
Lemma at_use_validation_skips_short_declarations_witness :
  validateMessageValueAtPos typeString DeeplyNested.pass 2
    (use 239 DeeplyNested.addr) (Pointer tAddress) "User.Address" 255%Z
  = Some (tt, []).
Proof.
  apply (at_use_validation_skips_short_declarations typeString
           DeeplyNested.pass 0 _ DeeplyNested.addr).
  - reflexivity.
  - apply (bool_decide_unpack _). vm_compute. reflexivity.
Defined.

(** *** Units without response messages, and what assignments are about *)

(** X28. In a unit none of whose types is a response message, [run]
    reports nothing, and it returns with any fuel, whatever the
    declarations of the unit are. *)
Theorem unit_without_response_messages_is_not_reported
    (TypeString : Type_ -> string) (pass : Pass) (fuel : nat) :
  (∀ t, isResponseMessage (TypeDecls pass) t = false) →
  run TypeString pass fuel = Some (tt, []).
Proof.
  intros Hnone.
  destruct (runWith_scheduled (TypeDecls pass)
              (checkAssignment TypeString pass fuel)
              (checkCompositeLiteral TypeString pass fuel) (Files pass))
    as (entries & Hsched & Hrun).
  unfold run. rewrite Hrun. clear Hrun.
  pose proof (schedule_entries _ _ _ Hsched) as Hentries. clear Hsched.
  induction Hentries as [|e entries (n & _ & Hof) _ IH]; [reflexivity|].
  change (forM_ (e :: entries) ?body)
    with (bind (body e) (fun _ => forM_ entries body)).
  rewrite IH.
  assert (Hhere : ∀ m : M Diagnostic unit, m = ret tt →
            bind m (fun _ => Some (tt, [])) = Some (tt, [])) by by intros m ->.
  apply Hhere. clear Hhere IH.
  destruct e as [lhs rhs | lit elts litType]; simpl.
  - unfold checkAssignment. clear Hof.
    induction (zip lhs rhs) as [|[l r] pairs IH]; [reflexivity|].
    change (forM_ ((l, r) :: pairs) ?body)
      with (bind (body (l, r)) (fun _ => forM_ pairs body)).
    rewrite IH.
    assert (Hhere : ∀ m : M Diagnostic unit, m = ret tt →
              bind m (fun _ => ret tt) = ret tt) by by intros m ->.
    apply Hhere.
    destruct l as [? | ? ? | ? ? ? | ? ? ? | ? ? ? | ? ? ? | ? x sel | ? ? ? ?
                  | ? ? | ? ? ? ? | ? ?]; try reflexivity.
    destruct (TypeOf x); [|reflexivity]. cbv zeta. by rewrite Hnone.
  - destruct Hof as (_ & _ & _ & Hroot). by rewrite Hnone in Hroot.
Qed.

(** The unit of [var a, b = ..., a], on which [run] does not return when
    [UserResponse] is a response message, read without its types. *)
Lemma unit_without_response_messages_is_not_reported_witness :
  run typeString {| Files := Files Together.pass; TypeDecls := fun _ => None |} 0
  = Some (tt, []).
Proof.
  apply (unit_without_response_messages_is_not_reported typeString
           {| Files := Files Together.pass; TypeDecls := fun _ => None |} 0).
  intros t. destruct t as [| [] | | | | | | |]; reflexivity.
Defined.

(** X29. [checkAssignment] reports only about required message fields
    of response messages that its left-hand sides select: every
    diagnostic names such a field and the type of the message, or comes
    from the validation of the value assigned to such a field. *)
Theorem assignment_reports_only_selected_required_fields
    (TypeString : Type_ -> string) (pass : Pass) (fuel : nat)
    (Lhs Rhs : list Node) (out : list Diagnostic) :
  checkAssignment TypeString pass fuel Lhs Rhs = Some (tt, out) →
  Forall (fun d => ∃ h x sel baseType,
            SelectorExpr h x sel ∈ Lhs
            ∧ TypeOf x = Some baseType
            ∧ targetsRequiredField (TypeDecls pass) (SelectorExpr h x sel) = true
            ∧ aboutField (id_Name sel) (TypeString (deref baseType)) d) out.
Proof.
  intros Hout.
  apply (λ H : logs _ (checkAssignment TypeString pass fuel Lhs Rhs),
           H tt out Hout).
  unfold checkAssignment. apply logs_forM__elem. intros [lhs rhs] Hin.
  apply elem_of_zip_l in Hin.
  destruct lhs as [? | ? ? | ? ? ? | ? ? ? | ? ? ? | ? ? ? | h x sel | ? ? ? ?
                  | ? ? | ? ? ? ? | ? ?]; try apply logs_ret.
  destruct (TypeOf x) as [baseType|] eqn:Hx; [|apply logs_ret].
  cbv zeta. fold (deref baseType).
  destruct (isResponseMessage _ (deref baseType)) eqn:Hroot; [|apply logs_ret].
  destruct (getFieldFromType _ _ _) as [field|] eqn:Hfield; [|apply logs_ret].
  destruct (isMessageField _ field) eqn:Hmsg; [|apply logs_ret].
  destruct (isOptionalField field) eqn:Hopt; [apply logs_ret|].
  assert (Htarget : targetsRequiredField (TypeDecls pass) (SelectorExpr h x sel)
                    = true).
  { unfold targetsRequiredField. by rewrite Hx, Hroot, Hfield, Hmsg, Hopt. }
  apply logs_bind; [apply logs_liftO|]. intros [|].
  - apply logs_tell. exists h, x, sel, baseType. repeat split; try done.
    left. split; [set_solver | done].
  - destruct (TypeOf rhs); [|apply logs_ret].
    destruct (isProtobufMessageType _ _); [|apply logs_ret].
    eapply logs_impl;
      [|apply logs_and;
         [apply validateMessageValue_formats
         |apply (proj1 (validateMessageValue_reports TypeString pass fuel))]].
    intros d [Hformat [_ Hwithin]].
    exists h, x, sel, baseType. repeat split; try done. by right.
Qed.

(** [response.User = user] in [implicitNilAssignment]. *)
Lemma assignment_reports_only_selected_required_fields_witness :
  ∃ out,
    checkAssignment typeString ImplicitNil.pass 3
      [field 121 ImplicitNil.response "User" (Pointer tUser)]
      [use 124 ImplicitNil.user] = Some (tt, out)
    ∧ length out = 1%nat
    ∧ Forall (fun d => ∃ h x sel baseType,
                SelectorExpr h x sel
                ∈ [field 121 ImplicitNil.response "User" (Pointer tUser)]
                ∧ TypeOf x = Some baseType
                ∧ targetsRequiredField universe (SelectorExpr h x sel) = true
                ∧ aboutField (id_Name sel) (typeString (deref baseType)) d) out.
Proof.
  eexists. split; [vm_compute; reflexivity|]. split; [reflexivity|].
  apply (assignment_reports_only_selected_required_fields typeString
           ImplicitNil.pass 3
           [field 121 ImplicitNil.response "User" (Pointer tUser)]
           [use 124 ImplicitNil.user]).
  vm_compute; reflexivity.
Defined.
